(** * Ewald summation for periodic Coulomb energies (pyqmc, [src/pyqmc/ewald.py])

    A shallow embedding of the class [Ewald] and the properties of its
    set-up phase and of its evaluators.

    Numbers.  numpy's float64 and complex128 values are modelled by the
    real numbers [R] of the standard library and by pairs of reals; every
    statement below is therefore a statement about exact arithmetic (sums
    may be reassociated, [cos^2 + sin^2 = 1] holds exactly, nothing
    overflows).  Shapes and integer indices are [nat], the integer
    arguments of the constructor are [Z].

    Arrays.  An array is a nested list in C order.  The leading axis of a
    configuration batch is the configuration axis; numpy carries it through
    every call, and the model maps over it, except where the code lets that
    axis meet another one (line 366).

    Effects.  The constructor is a function to [result Ewald]: an exception
    leaves no object.  The methods run in a state-and-exception monad over
    the attributes of the object.  The [print] of line 104 is left out. *)

From Stdlib Require Import String.
From Stdlib Require Import Reals Lra Lia ZArith List Permutation Bool FinFun.
Import ListNotations.
Local Open Scope R_scope.

(** ** Exceptions *)

(** A raised Python exception, identified by the name of its class. *)
Inductive exn : Type := Raise (cls : string).

Definition LinAlgError : exn := Raise "LinAlgError".
Definition ValueError : exn := Raise "ValueError".
Definition AttributeError : exn := Raise "AttributeError".

(** Results of code that may raise. *)
Definition result (A : Type) : Type := (exn + A)%type.

Definition bindE {A B : Type} (r : result A) (k : A -> result B) : result B :=
  match r with
  | inl e => inl e
  | inr a => k a
  end.

Fixpoint mapE {A B : Type} (f : A -> result B) (l : list A) : result (list B) :=
  match l with
  | [] => inr []
  | a :: l' =>
      bindE (f a) (fun b => bindE (mapE f l') (fun bs => inr (b :: bs)))
  end.

(** ** The part of numpy and scipy that the class uses *)

Module np.

Definition V3 : Type := (R * R * R)%type.
(** A 3x3 array, as its three rows. *)
Definition M33 : Type := (V3 * V3 * V3)%type.
(** A complex number: real and imaginary part. *)
Definition C : Type := (R * R)%type.

Definition sum (l : list R) : R := fold_right Rplus 0 l.

Definition map2 {A B D : Type} (f : A -> B -> D) (l : list A) (m : list B)
  : list D :=
  map (fun ab => f (fst ab) (snd ab)) (combine l m).

(** [a[mask]] for a boolean mask. *)
Definition mask {A : Type} (l : list A) (m : list bool) : list A :=
  map fst (filter snd (combine l m)).

Definition vadd (a b : V3) : V3 :=
  let '(a0, a1, a2) := a in
  let '(b0, b1, b2) := b in
  (a0 + b0, a1 + b1, a2 + b2).

Definition vopp (a : V3) : V3 :=
  let '(a0, a1, a2) := a in (- a0, - a1, - a2).

(** [k * a] and [a * k] for a scalar [k]. *)
Definition vscale (k : R) (a : V3) : V3 :=
  let '(a0, a1, a2) := a in (k * a0, k * a1, k * a2).

Definition vmulr (a : V3) (k : R) : V3 :=
  let '(a0, a1, a2) := a in (a0 * k, a1 * k, a2 * k).

Definition vdot (a b : V3) : R :=
  let '(a0, a1, a2) := a in
  let '(b0, b1, b2) := b in
  a0 * b0 + a1 * b1 + a2 * b2.

(** [np.sum(a ** 2)] over the last axis of a 3-vector. *)
Definition sumsq (a : V3) : R := vdot a a.

(** [np.linalg.norm(a, axis=-1)]. *)
Definition norm (a : V3) : R := sqrt (sumsq a).

Definition tolist (a : V3) : list R :=
  let '(a0, a1, a2) := a in [a0; a1; a2].

Definition of_ints (n : Z * Z * Z) : V3 :=
  let '(x, y, z) := n in (IZR x, IZR y, IZR z).

(** [np.dot(x, m)] for a row vector [x] and a 3x3 array [m]. *)
Definition vecmat (x : V3) (m : M33) : V3 :=
  let '(r0, r1, r2) := m in
  let '(x0, x1, x2) := x in
  vadd (vadd (vscale x0 r0) (vscale x1 r1)) (vscale x2 r2).

Definition transpose (m : M33) : M33 :=
  let '((a00, a01, a02), (a10, a11, a12), (a20, a21, a22)) := m in
  ((a00, a10, a20), (a01, a11, a21), (a02, a12, a22)).

Definition mscale (m : M33) (k : R) : M33 :=
  let '(r0, r1, r2) := m in (vmulr r0 k, vmulr r1 k, vmulr r2 k).

Definition rows (m : M33) : list V3 :=
  let '(r0, r1, r2) := m in [r0; r1; r2].

(** [np.linalg.det]. *)
Definition det (m : M33) : R :=
  let '((a00, a01, a02), (a10, a11, a12), (a20, a21, a22)) := m in
  a00 * (a11 * a22 - a12 * a21)
  - a01 * (a10 * a22 - a12 * a20)
  + a02 * (a10 * a21 - a11 * a20).

Definition adjugate (m : M33) : M33 :=
  let '((a00, a01, a02), (a10, a11, a12), (a20, a21, a22)) := m in
  ((a11 * a22 - a12 * a21, a02 * a21 - a01 * a22, a01 * a12 - a02 * a11),
   (a12 * a20 - a10 * a22, a00 * a22 - a02 * a20, a02 * a10 - a00 * a12),
   (a10 * a21 - a11 * a20, a01 * a20 - a00 * a21, a00 * a11 - a01 * a10)).

(** [np.linalg.inv] over the reals: raises [LinAlgError] exactly on a
    singular matrix.  In float64 the routine raises only at an exactly
    zero pivot; a statement that must not depend on which matrices are
    rejected takes the inversion as a parameter ([init_with] below). *)
Definition inv (m : M33) : result M33 :=
  if Req_dec_T (det m) 0 then inl LinAlgError
  else inr (mscale (adjugate m) (/ det m)).

(** [np.amin] of a non-empty 1-d array. *)
Definition amin (x : R) (l : list R) : R := fold_left Rmin l x.

(** [np.arange(lo, hi)] for integers. *)
Definition arange (lo hi : Z) : list Z :=
  map (fun k => (lo + Z.of_nat k)%Z) (seq 0 (Z.to_nat (hi - lo))).

(** [np.meshgrid(r, r, r, indexing="ij")], the three grids stacked on a
    last axis and flattened in C order: the first coordinate varies
    slowest. *)
Definition meshgrid3 (r : list Z) : list (Z * Z * Z) :=
  flat_map (fun x => flat_map (fun y => map (fun z => (x, y, z)) r) r) r.

(** Complex arithmetic. *)
Definition cadd (a b : C) : C := (fst a + fst b, snd a + snd b).
Definition cneg (a : C) : C := (- fst a, - snd a).
Definition cmul (a b : C) : C :=
  (fst a * fst b - snd a * snd b, fst a * snd b + snd a * fst b).
Definition cscale (a : C) (k : R) : C := (fst a * k, snd a * k).
Definition conj (a : C) : C := (fst a, - snd a).
Definition real (a : C) : R := fst a.
Definition abs (a : C) : R := sqrt (fst a * fst a + snd a * snd a).
Definition csum (l : list C) : C := fold_right cadd (0, 0) l.

(** [np.exp(1j * t)] for a real [t]. *)
Definition exp1j (t : R) : C := (cos t, sin t).

(** [np.dot] of two 1-d arrays of the same length. *)
Definition dot (a b : list R) : R := sum (map2 Rmult a b).

(** [np.dot] of a complex and a real 1-d array. *)
Definition cdot (a : list C) (b : list R) : C := csum (map2 cscale a b).

(** [np.sum(a, axis=0)] of a 2-d complex array with [n] columns. *)
Definition csum_axis0 (n : nat) (a : list (list C)) : list C :=
  fold_right (map2 cadd) (repeat (0, 0) n) a.

(** [np.einsum("k,kl->", a, x)]: the slice of the einsums of lines 263
    and 353 for one particle. *)
Definition einsum_k_kl (a : list R) (x : list (list R)) : R :=
  sum (map2 (fun ak row => ak * sum row) a x).

(** [np.zeros((n, n))] and assignment to one entry.  numpy raises
    [IndexError] for an index outside the array; here such a write leaves
    the array as it is, and the loops below only write in range
    (lemma [pair_indices_range]). *)
Definition zeros2 (n m : nat) : list (list R) := repeat (repeat 0 m) n.

Fixpoint set_nth {A : Type} (l : list A) (i : nat) (v : A) : list A :=
  match l, i with
  | [], _ => []
  | _ :: l', O => v :: l'
  | a :: l', S i' => a :: set_nth l' i' v
  end.

Definition set2 (m : list (list R)) (i j : nat) (v : R) : list (list R) :=
  set_nth m i (set_nth (nth i m []) j v).

End np.

Import np.

(** ** [scipy.special.erfc] *)

Definition gauss (t : R) : R := exp (- (t * t)).

Lemma gauss_continuity : continuity gauss.
Proof.
  unfold gauss.
  apply (continuity_comp (fun t => - (t * t)) exp).
  - apply continuity_opp.
    apply continuity_mult; apply derivable_continuous, derivable_id.
  - apply derivable_continuous, derivable_exp.
Qed.

Lemma gauss_integrable (a b : R) : Riemann_integrable gauss a b.
Proof.
  destruct (Rle_dec a b) as [Hab | Hab].
  - apply continuity_implies_RiemannInt;
      [exact Hab | intros; apply gauss_continuity].
  - apply RiemannInt_P1.
    apply continuity_implies_RiemannInt;
      [lra | intros; apply gauss_continuity].
Qed.

(** erf(x) = 2/sqrt(pi) * integral of exp(-t^2) from 0 to x. *)
Definition erf (x : R) : R := 2 / sqrt PI * RiemannInt (gauss_integrable 0 x).
Definition erfc (x : R) : R := 1 - erf x.

(** ** Collaborators: the simulation cell and the distance primitives *)

(** The pyscf cell, as far as the constructor reads it: [cell.nelec],
    [cell.atom_coords()], [cell.atom_charges()], [cell.lattice_vectors()]. *)
Record Cell : Type := {
  cell_nelec : nat * nat;
  cell_atom_coords : list V3;
  cell_atom_charges : list R;
  cell_lattice_vectors : M33
}.

(** Modelled from the spec: the distance module ([pyqmc.distance]) is not
    among the sources.  The spec asks of it "a minimum-image
    pairwise-distance primitive and a distance-to-fixed-points primitive".
    A distance object is given by the displacement [disp r v] it assigns to
    a position [v] seen from a reference point [r]; [dist_i] applies it to
    a list of reference points and [dist_matrix] to all pairs [i < j] of a
    list of positions.  What the primitives do with positions that are not
    3-vectors (raise, or broadcast to some displacements) is left open
    in [dist_i_other] and [dist_matrix_other]; that answer also covers the
    addition of the lattice displacements that follows each call. *)
Record Distance : Type := {
  disp : V3 -> V3 -> V3;
  dist_i_other : list (list R) -> list R -> result (list V3);
  dist_matrix_other : list (list R) -> result (list V3)
}.

Definition as_V3 (p : list R) : option V3 :=
  match p with
  | [x; y; z] => Some (x, y, z)
  | _ => None
  end.

Fixpoint as_V3s (ps : list (list R)) : option (list V3) :=
  match ps with
  | [] => Some []
  | p :: ps' =>
      match as_V3 p, as_V3s ps' with
      | Some v, Some vs => Some (v :: vs)
      | _, _ => None
      end
  end.

(** The index pairs [(i, j)], [i < j < n], in lexicographic order. *)
Definition pair_indices (n : nat) : list (nat * nat) :=
  flat_map (fun i => map (pair i) (seq (S i) (n - S i))) (seq 0 n).

Definition dist_i3 (d : Distance) (refs : list V3) (v : V3) : list V3 :=
  map (fun r => disp d r v) refs.

Definition dist_matrix3 (d : Distance) (pts : list V3) : list V3 :=
  map (fun ij => disp d (nth (snd ij) pts (0, 0, 0)) (nth (fst ij) pts (0, 0, 0)))
      (pair_indices (length pts)).

(** [dist.dist_i(refs, v)] for one position [v]. *)
Definition dist_i (d : Distance) (refs : list (list R)) (v : list R)
  : result (list V3) :=
  match as_V3s refs, as_V3 v with
  | Some rs, Some x => inr (dist_i3 d rs x)
  | _, _ => dist_i_other d refs v
  end.

(** [dist.dist_matrix(pts)] for one configuration: the displacements; the
    index pairs it also returns are [pair_indices] of the particle count. *)
Definition dist_matrix (d : Distance) (pts : list (list R))
  : result (list V3) :=
  match as_V3s pts with
  | Some ps => inr (dist_matrix3 d ps)
  | None => dist_matrix_other d pts
  end.

(** ** Configuration batches *)

(** A 3-d array of shape (nconf, nelec, ndim) and a 2-d array of shape
    (nconf, ndim). *)
Record ndarray3 : Type := {
  shape3 : nat * nat * nat;
  data3 : list (list (list R))
}.

Record ndarray2 : Type := {
  shape2 : nat * nat;
  data2 : list (list R)
}.

(** The data of an array fill its shape. *)
Definition wf3 (a : ndarray3) : Prop :=
  let '(nconf, nelec, ndim) := shape3 a in
  length (data3 a) = nconf /\
  Forall (fun conf => length conf = nelec /\
                      Forall (fun p => length p = ndim) conf) (data3 a).

Definition wf2 (a : ndarray2) : Prop :=
  let '(nconf, ndim) := shape2 a in
  length (data2 a) = nconf /\ Forall (fun p => length p = ndim) (data2 a).

(** A [PeriodicConfigs] object: the positions [configs.configs] and the
    distance object [configs.dist]. *)
Record PeriodicConfigs : Type := {
  configs : ndarray3;
  dist : Distance
}.

(** ** The Ewald object *)

(** The attributes of an [Ewald] instance.  The three [*_separated]
    attributes do not exist until [ewald_electron] has run. *)
Record Ewald : Type := {
  nelec : nat * nat;
  atom_coords : list V3;
  atom_charges : list R;
  latvec : M33;
  lattice_displacements : list V3;
  alpha : R;
  gpoints : list V3;
  gweight : list R;
  ijconst : R;
  ii_const : R;
  ee_const : nat -> R;
  ei_const : nat -> R;
  e_single : nat -> R;
  e_single_test : R;
  ion_exp : list C;
  ion_ion : R;
  ei_separated : option (list (list R));
  ee_separated : option (list (list R));
  ewalde_separated : option (list (list R))
}.

(** Attribute assignment for the three attributes written after set-up. *)
Definition set_ei_separated (v : list (list R)) (s : Ewald) : Ewald :=
  {| nelec := nelec s; atom_coords := atom_coords s;
     atom_charges := atom_charges s; latvec := latvec s;
     lattice_displacements := lattice_displacements s; alpha := alpha s;
     gpoints := gpoints s; gweight := gweight s; ijconst := ijconst s;
     ii_const := ii_const s; ee_const := ee_const s; ei_const := ei_const s;
     e_single := e_single s; e_single_test := e_single_test s;
     ion_exp := ion_exp s; ion_ion := ion_ion s;
     ei_separated := Some v;
     ee_separated := ee_separated s;
     ewalde_separated := ewalde_separated s |}.

Definition set_ee_separated (v : list (list R)) (s : Ewald) : Ewald :=
  {| nelec := nelec s; atom_coords := atom_coords s;
     atom_charges := atom_charges s; latvec := latvec s;
     lattice_displacements := lattice_displacements s; alpha := alpha s;
     gpoints := gpoints s; gweight := gweight s; ijconst := ijconst s;
     ii_const := ii_const s; ee_const := ee_const s; ei_const := ei_const s;
     e_single := e_single s; e_single_test := e_single_test s;
     ion_exp := ion_exp s; ion_ion := ion_ion s;
     ei_separated := ei_separated s;
     ee_separated := Some v;
     ewalde_separated := ewalde_separated s |}.

Definition set_ewalde_separated (v : list (list R)) (s : Ewald) : Ewald :=
  {| nelec := nelec s; atom_coords := atom_coords s;
     atom_charges := atom_charges s; latvec := latvec s;
     lattice_displacements := lattice_displacements s; alpha := alpha s;
     gpoints := gpoints s; gweight := gweight s; ijconst := ijconst s;
     ii_const := ii_const s; ee_const := ee_const s; ei_const := ei_const s;
     e_single := e_single s; e_single_test := e_single_test s;
     ion_exp := ion_exp s; ion_ion := ion_ion s;
     ei_separated := ei_separated s;
     ee_separated := ee_separated s;
     ewalde_separated := Some v |}.

(** The attributes fixed by the constructor agree in two states. *)
Definition same_setup (s t : Ewald) : Prop :=
  nelec s = nelec t /\ atom_coords s = atom_coords t /\
  atom_charges s = atom_charges t /\ latvec s = latvec t /\
  lattice_displacements s = lattice_displacements t /\
  alpha s = alpha t /\ gpoints s = gpoints t /\ gweight s = gweight t /\
  ijconst s = ijconst t /\ ii_const s = ii_const t /\
  ee_const s = ee_const t /\ ei_const s = ei_const t /\
  e_single s = e_single t /\ e_single_test s = e_single_test t /\
  ion_exp s = ion_exp t /\ ion_ion s = ion_ion t.

(** ** Set-up *)

(** The real-space summand erfc(alpha r) / r. *)
Definition erfc_over_r (alpha r : R) : R := erfc (alpha * r) / r.

(** [np.sum(erfc(alpha * r) / r, axis=-1)] for
    [r = norm(v + lattice_displacements)]: the sum over the lattice images
    of one displacement [v]. *)
Definition image_sum (alpha : R) (displacements : list V3) (v : V3) : R :=
  sum (map (fun n => erfc_over_r alpha (norm (vadd v n))) displacements).

(** Lines 73-79. *)
Definition set_lattice_displacements (latvec : M33) (nlatvec : Z) : list V3 :=
  let xyz := meshgrid3 (arange (- nlatvec) (nlatvec + 1)) in
  map (fun n => vecmat (of_ints n) latvec) xyz.

(** Line 109: the mask [X + 1e-6 * Y + 1e-12 * Z > 0]. *)
Definition positive_octant (n : Z * Z * Z) : bool :=
  let '(x, y, z) := n in
  if Rlt_dec 0 (IZR x + 1e-6 * IZR y + 1e-12 * IZR z) then true else false.

(** Line 115: the mask [gweight > 1e-10]. *)
Definition bigweight (w : R) : bool :=
  if Rlt_dec 1e-10 w then true else false.

(** Lines 97-102: the smallest cell height. *)
Definition smallest_height (latvec recvec : M33) : R :=
  let cellvolume := det latvec in
  let crossproduct := mscale (transpose recvec) cellvolume in
  let tmpheight_i := map2 vdot (rows crossproduct) (rows latvec) in
  let length_i := map norm (rows crossproduct) in
  let heights := map2 (fun t l => Rabs t / l) tmpheight_i length_i in
  amin (hd 0 heights) (tl heights).

(** Lines 112-114: the weight of one reciprocal vector. *)
Definition reciprocal_weight (cellvolume alpha : R) (g : V3) : R :=
  let gsquared := sumsq g in
  4 * PI * exp (- gsquared / (4 * alpha ^ 2)) / (cellvolume * gsquared).

(** [ewald_ion] (lines 195-212): the attribute [ion_exp] it sets and the
    ion-ion energy it returns.  [MinimalImageDistance] stands for the
    constructor of that name in the distance module.  The function is
    given for a cell with at least one fixed charge and as many
    coordinates as charges; for other cells the code raises (the index
    array of line 203 is empty or out of range, the product of line 207
    has mismatched shapes), and a statement on what the constructor does
    for every cell carries these two conditions as hypotheses. *)
Definition ewald_ion (MinimalImageDistance : M33 -> Distance)
    (latvec : M33) (atom_coords : list V3) (atom_charges : list R)
    (displacements : list V3) (alpha : R) (gpoints : list V3)
    (gweight : list R) : list C * R :=
  let ion_ion_real :=
    if Nat.eqb (length atom_charges) 1 then 0
    else
      let dist := MinimalImageDistance latvec in
      let ion_distances := dist_matrix3 dist atom_coords in
      let ion_inds := pair_indices (length atom_coords) in
      let charge_ij :=
        map (fun ij => nth (fst ij) atom_charges 0 * nth (snd ij) atom_charges 0)
            ion_inds in
      sum (map2 (fun c v => c * image_sum alpha displacements v)
                charge_ij ion_distances) in
  let GdotR := map (fun g => map (fun x => vdot g x) atom_coords) gpoints in
  let ion_exp := map (fun row => cdot (map exp1j row) atom_charges) GdotR in
  let ion_ion_rec := dot gweight (map (fun z => abs z ^ 2) ion_exp) in
  (ion_exp, ion_ion_real + ion_ion_rec).

(** [set_ewald_constants] (lines 151-165), given the attributes set
    before it is called; it completes the object. *)
Definition set_ewald_constants (MinimalImageDistance : M33 -> Distance)
    (nelec : nat * nat) (atom_coords : list V3) (atom_charges : list R)
    (latvec : M33) (lattice_displacements : list V3) (alpha : R)
    (gpoints : list V3) (gweight : list R) (cellvolume : R) : Ewald :=
  let i_sum := sum atom_charges in
  let ii_sum2 := sum (map (fun z => z ^ 2) atom_charges) in
  let ii_sum := (i_sum ^ 2 - ii_sum2) / 2 in
  let ijconst := - PI / (cellvolume * alpha ^ 2) in
  let squareconst := - alpha / sqrt PI + ijconst / 2 in
  let ion := ewald_ion MinimalImageDistance latvec atom_coords atom_charges
               lattice_displacements alpha gpoints gweight in
  {| nelec := nelec;
     atom_coords := atom_coords;
     atom_charges := atom_charges;
     latvec := latvec;
     lattice_displacements := lattice_displacements;
     alpha := alpha;
     gpoints := gpoints;
     gweight := gweight;
     ijconst := ijconst;
     ii_const := ii_sum * ijconst + ii_sum2 * squareconst;
     ee_const := fun ne =>
       INR ne * (INR ne - 1) / 2 * ijconst + INR ne * squareconst;
     ei_const := fun ne => - INR ne * i_sum * ijconst;
     e_single := fun ne =>
       (INR ne - 1) * ijconst - i_sum * ijconst + squareconst;
     e_single_test := - i_sum * ijconst + squareconst;
     ion_exp := fst ion;
     ion_ion := snd ion;
     ei_separated := None;
     ee_separated := None;
     ewalde_separated := None |}.

(** [set_up_reciprocal_ewald_sum] (lines 95-119), given the attributes
    set before it is called. *)
Definition set_up_reciprocal_ewald_sum (MinimalImageDistance : M33 -> Distance)
    (nelec : nat * nat) (atom_coords : list V3) (atom_charges : list R)
    (latvec : M33) (lattice_displacements : list V3) (ewald_gmax : Z)
  : result Ewald :=
  let cellvolume := det latvec in
  bindE (inv latvec) (fun recvec =>
  (* Determine alpha *)
  let smallestheight := smallest_height latvec recvec in
  let alpha := 5.0 / smallestheight in
  (* Determine G points to include in reciprocal Ewald sum *)
  let XYZ := meshgrid3 (arange (- ewald_gmax) (ewald_gmax + 1)) in
  let positive_octants := map positive_octant XYZ in
  let gpoints := mask XYZ positive_octants in
  let gpoints := map (fun n => vmulr (vmulr (vecmat (of_ints n) recvec) 2) PI)
                     gpoints in
  let gweight := map (reciprocal_weight cellvolume alpha) gpoints in
  let bigweights := map bigweight gweight in
  inr (set_ewald_constants MinimalImageDistance nelec atom_coords atom_charges
         latvec lattice_displacements alpha
         (mask gpoints bigweights) (mask gweight bigweights) cellvolume)).

(** The constructor (lines 67-71).  An exception leaves no object
    behind. *)
Definition __init__ (MinimalImageDistance : M33 -> Distance) (cell : Cell)
    (ewald_gmax nlatvec : Z) : result Ewald :=
  let nelec := cell_nelec cell in
  let atom_coords := cell_atom_coords cell in
  let atom_charges := cell_atom_charges cell in
  let latvec := cell_lattice_vectors cell in
  let lattice_displacements := set_lattice_displacements latvec nlatvec in
  set_up_reciprocal_ewald_sum MinimalImageDistance nelec atom_coords
    atom_charges latvec lattice_displacements ewald_gmax.

(** The set-up with the matrix inversion of line 96 as a parameter:
    [linalg_inv] stands for [np.linalg.inv], whatever it does in floating
    point on a singular or nearly singular matrix.  With [inv] for
    [linalg_inv] these are [set_up_reciprocal_ewald_sum] and [__init__]. *)
Definition set_up_reciprocal_ewald_sum_with (linalg_inv : M33 -> result M33)
    (MinimalImageDistance : M33 -> Distance)
    (nelec : nat * nat) (atom_coords : list V3) (atom_charges : list R)
    (latvec : M33) (lattice_displacements : list V3) (ewald_gmax : Z)
  : result Ewald :=
  let cellvolume := det latvec in
  bindE (linalg_inv latvec) (fun recvec =>
  (* Determine alpha *)
  let smallestheight := smallest_height latvec recvec in
  let alpha := 5.0 / smallestheight in
  (* Determine G points to include in reciprocal Ewald sum *)
  let XYZ := meshgrid3 (arange (- ewald_gmax) (ewald_gmax + 1)) in
  let positive_octants := map positive_octant XYZ in
  let gpoints := mask XYZ positive_octants in
  let gpoints := map (fun n => vmulr (vmulr (vecmat (of_ints n) recvec) 2) PI)
                     gpoints in
  let gweight := map (reciprocal_weight cellvolume alpha) gpoints in
  let bigweights := map bigweight gweight in
  inr (set_ewald_constants MinimalImageDistance nelec atom_coords atom_charges
         latvec lattice_displacements alpha
         (mask gpoints bigweights) (mask gweight bigweights) cellvolume)).

Definition init_with (linalg_inv : M33 -> result M33)
    (MinimalImageDistance : M33 -> Distance) (cell : Cell)
    (ewald_gmax nlatvec : Z) : result Ewald :=
  let nelec := cell_nelec cell in
  let atom_coords := cell_atom_coords cell in
  let atom_charges := cell_atom_charges cell in
  let latvec := cell_lattice_vectors cell in
  let lattice_displacements := set_lattice_displacements latvec nlatvec in
  set_up_reciprocal_ewald_sum_with linalg_inv MinimalImageDistance nelec
    atom_coords atom_charges latvec lattice_displacements ewald_gmax.

(** ** Methods *)

(** A method body: it reads and writes the attributes of [self] and may
    raise.  The state that is returned with an exception is the state at
    the moment it was raised. *)
Definition M (A : Type) : Type := Ewald -> result A * Ewald.

Definition ret {A : Type} (a : A) : M A := fun s => (inr a, s).

Definition bind {A B : Type} (m : M A) (k : A -> M B) : M B :=
  fun s =>
    match m s with
    | (inl e, s') => (inl e, s')
    | (inr a, s') => k a s'
    end.

Definition lift {A : Type} (r : result A) : M A := fun s => (r, s).

Definition self : M Ewald := fun s => (inr s, s).

(** Reading an attribute that may not exist yet. *)
Definition getattr {A : Type} (f : Ewald -> option A) : M A :=
  fun s =>
    match f s with
    | Some a => (inr a, s)
    | None => (inl AttributeError, s)
    end.

Definition setattr (f : Ewald -> Ewald) : M unit := fun s => (inr tt, f s).

Notation "x <- c ;; k" := (bind c (fun x => k))
  (at level 61, c at next level, right associativity).
Notation "c ;;; k" := (bind c (fun _ => k))
  (at level 61, right associativity).

(** Element-wise sum of two arrays of shape (nconf, nelec). *)
Definition add2 (a b : list (list R)) : list (list R) := map2 (map2 Rplus) a b.

Definition scale2 (k : R) (a : list (list R)) : list (list R) :=
  map (map (Rmult k)) a.

(** [np.dot(a, gpoints.T)] for an array [a] whose last axis has length
    [ndim]: numpy raises [ValueError] unless [ndim = 3]. *)
Definition dot_gpoints {A : Type} (ndim : nat) (gpoints : list V3)
    (rowmap : (list R -> list R) -> A) : result A :=
  if Nat.eqb ndim 3
  then inr (rowmap (fun p => map (fun g => dot p (tolist g)) gpoints))
  else inl ValueError.

(** The loop of lines 274-278 for one configuration. *)
Definition fill_ee_matrix (nelec : nat) (ee_inds : list (nat * nat))
    (cij : list R) : list (list R) :=
  fold_left
    (fun ee_matrix iv =>
       let '((i, j), val) := iv in
       set2 (set2 ee_matrix i j val) j i val)
    (combine ee_inds cij) (zeros2 nelec nelec).

(** The four sums of [ewald_electron] for one configuration: the slice
    [c] of the arrays along the configuration axis. *)

(** Lines 260-265: real space electron-ion part, per electron. *)
Definition real_space_ei (s : Ewald) (d : Distance) (conf : list (list R))
  : result (list R) :=
  bindE (mapE (dist_i d (map tolist (atom_coords s))) conf)
    (fun ei_distances =>
       inr (map (fun dists =>
                   einsum_k_kl (map Ropp (atom_charges s))
                     (map (fun v =>
                             map (fun n => erfc_over_r (alpha s) (norm (vadd v n)))
                                 (lattice_displacements s)) dists))
                ei_distances)).

(** Lines 269-279: real space electron-electron part, per electron. *)
Definition real_space_ee (s : Ewald) (d : Distance) (nelec : nat)
    (conf : list (list R)) : result (list R) :=
  bindE (dist_matrix d conf)
    (fun ee_distances =>
       let ee_inds := pair_indices nelec in
       let ee_cij :=
         map (image_sum (alpha s) (lattice_displacements s)) ee_distances in
       let ee_matrix := fill_ee_matrix nelec ee_inds ee_cij in
       inr (map (fun row => sum row / 2) ee_matrix)).

(** Lines 286-289: reciprocal space electron-electron part, per electron,
    from the slice of [e_expGdotR]. *)
Definition recip_ee (s : Ewald) (e_expGdotR : list (list C)) : list R :=
  let sum_e_exp := csum_axis0 (length (gpoints s)) e_expGdotR in
  let coscos_sinsin :=
    map (fun row => map2 (fun a b => real (cmul (conj a) b)) sum_e_exp row)
        e_expGdotR in
  map (fun row => dot (map (fun x => x - 0.5) row) (gweight s)) coscos_sinsin.

(** Lines 292-293: reciprocal space electron-ion part, per electron. *)
Definition recip_ei (s : Ewald) (e_expGdotR : list (list C)) : list R :=
  let coscos_sinsin :=
    map (fun row =>
           map2 (fun a b => real (cmul (cneg (conj a)) b)) (ion_exp s) row)
        e_expGdotR in
  map (fun row => dot row (gweight s)) coscos_sinsin.

(** [ewald_electron] (lines 256-303). *)
Definition ewald_electron (cfg : PeriodicConfigs) : M (list R * list R) :=
  let '(nconf, nelec, ndim) := shape3 (configs cfg) in
  let X := data3 (configs cfg) in
  s <- self ;;
  (* Real space electron-ion part *)
  ei_real_separated <- lift (mapE (real_space_ei s (dist cfg)) X) ;;
  (* Real space electron-electron part *)
  ee_real_separated <-
    lift (if Nat.ltb 1 nelec
          then mapE (real_space_ee s (dist cfg) nelec) X
          else
            (* np.zeros(nelec), broadcast over the configurations on
               line 297 *)
            inr (map (fun _ => repeat 0 nelec) X)) ;;
  (* Reciprocal space electron-electron part *)
  e_GdotR <-
    lift (dot_gpoints ndim (gpoints s) (fun row => map (map row) X)) ;;
  let e_expGdotR := map (map (map exp1j)) e_GdotR in
  let ee_recip_separated := map (recip_ee s) e_expGdotR in
  (* Reciprocal space electron-ion part *)
  let ei_recip_separated := map (recip_ei s) e_expGdotR in
  (* Combine parts *)
  let ei_sep := add2 ei_real_separated (scale2 2 ei_recip_separated) in
  let ee_sep := add2 ee_real_separated (scale2 1 ee_recip_separated) in
  setattr (set_ei_separated ei_sep) ;;;
  setattr (set_ee_separated ee_sep) ;;;
  setattr (set_ewalde_separated (add2 ei_sep ee_sep)) ;;;
  s <- self ;;
  (* line 299 reads nelec back from the shape of ee_recip_separated *)
  let ee := map (fun row => sum row + INR nelec / 2 * sum (gweight s)) ee_sep in
  let ei := map sum ei_sep in
  ret (ee, ei).

(** [energy] (lines 316-321). *)
Definition energy (cfg : PeriodicConfigs) : M (list R * list R * R) :=
  let nelec := snd (fst (shape3 (configs cfg))) in
  eeei <- ewald_electron cfg ;;
  s <- self ;;
  let ee := map (fun x => x + ee_const s nelec) (fst eeei) in
  let ei := map (fun x => x + ei_const s nelec) (snd eeei) in
  let ii := ion_ion s + ii_const s in
  ret (ee, ei, ii).

(** [energy_separated] (lines 332-333). *)
Definition energy_separated (cfg : PeriodicConfigs) : M (list (list R)) :=
  let nelec := snd (fst (shape3 (configs cfg))) in
  s <- self ;;
  sep <- getattr ewalde_separated ;;
  ret (map (map (fun x => e_single s nelec + x)) sep).

(** Updates of the last column and of the other columns of a row of
    [Vtest]. *)
Definition set_last (row : list R) (v : R) : list R := removelast row ++ [v].

Definition iadd_last (row : list R) (v : R) : list R :=
  removelast row ++ [last row 0 + v].

Definition iadd_init (row : list R) (vs : list R) : list R :=
  map2 Rplus (removelast row) vs ++ [last row 0].

(** [a * b] for [a] of shape (nconf, ng) and [b] of shape
    (nconf, nelec, ng).  numpy aligns trailing axes, so the first axis of
    [a] meets the second axis of [b]: the shapes are compatible only if
    nconf = nelec or one of them is 1, and entry [c][k][g] of the product
    is [a[k][g] * b[c][k][g]] (index 0 along an axis of length 1). *)
Definition mul_2d_3d (nconf nelec : nat) (a : list (list C))
    (b : list (list (list C))) : result (list (list (list C))) :=
  if Nat.eqb nconf nelec || Nat.eqb nconf 1 || Nat.eqb nelec 1 then
    let m := if Nat.eqb nconf 1 then nelec else nconf in
    inr (map (fun bc =>
                map (fun k =>
                       map2 cmul (nth (if Nat.eqb nconf 1 then 0%nat else k) a [])
                            (nth (if Nat.eqb nelec 1 then 0%nat else k) bc []))
                    (seq 0 m)) b)
  else inl ValueError.

(** [Vtest[:, :-1] += a] for [a] of shape (nconf, m): the in-place sum
    needs m = nelec or m = 1. *)
Definition iadd_columns (nelec m : nat) (Vtest a : list (list R))
  : result (list (list R)) :=
  if Nat.eqb m nelec || Nat.eqb m 1 then
    inr (map2 (fun row arow =>
                 iadd_init row
                   (if Nat.eqb m nelec then arow
                    else repeat (nth 0 arow 0) nelec))
              Vtest a)
  else inl ValueError.

(** [energy_with_test_pos] (lines 344-373); [epos] is [epos.configs]. *)
Definition energy_with_test_pos (cfg : PeriodicConfigs) (epos : ndarray2)
  : M (list (list R)) :=
  let '(nconf, nelec, ndim) := shape3 (configs cfg) in
  let X := data3 (configs cfg) in
  let E := data2 epos in
  s <- self ;;
  let Vtest := repeat (repeat (0 + ijconst s) (nelec + 1)) nconf in
  let Vtest := map (fun row => set_last row (e_single_test s)) Vtest in
  (* Real space electron-ion part *)
  ei_distances <-
    lift (mapE (dist_i (dist cfg) (map tolist (atom_coords s))) E) ;;
  let Vtest :=
    map2 iadd_last Vtest
      (map (fun dists =>
              einsum_k_kl (map Ropp (atom_charges s))
                (map (fun v =>
                        map (fun n => erfc_over_r (alpha s) (norm (vadd v n)))
                            (lattice_displacements s)) dists))
           ei_distances) in
  (* Real space electron-electron part *)
  ee_distances <-
    lift (mapE (fun ce => dist_i (dist cfg) (fst ce) (snd ce)) (combine X E)) ;;
  let Vtest :=
    map2 iadd_init Vtest
      (map (map (image_sum (alpha s) (lattice_displacements s))) ee_distances) in
  (* Reciprocal space electron-electron part *)
  e_GdotR <-
    lift (dot_gpoints ndim (gpoints s) (fun row => map (map row) X)) ;;
  let e_expGdotR := map (map (map exp1j)) e_GdotR in
  t_GdotR <-
    lift (dot_gpoints (snd (shape2 epos)) (gpoints s) (fun row => map row E)) ;;
  let test_exp := map (map exp1j) t_GdotR in
  prod <- lift (mul_2d_3d nconf nelec (map (map conj) test_exp) e_expGdotR) ;;
  let ee_recip_separated :=
    map (map (fun row => dot (map real row) (gweight s))) prod in
  Vtest <-
    lift (iadd_columns nelec (if Nat.eqb nconf 1 then nelec else nconf)
            Vtest (scale2 2 ee_recip_separated)) ;;
  (* Reciprocal space electron-ion part *)
  let coscos_sinsin :=
    map (fun row =>
           map2 (fun a b => real (cmul (cneg (conj a)) b)) (ion_exp s) row)
        test_exp in
  let ei_recip_separated :=
    map (fun row => dot (map (fun x => x + 0.5) row) (gweight s))
        coscos_sinsin in
  let Vtest :=
    map2 iadd_last Vtest (map (Rmult 2) ei_recip_separated) in
  ret Vtest.

(** ** Notions used in the statements *)

(** The structure factor of the mobile particles of one configuration,
    one entry per stored reciprocal vector: the sum over the particles of
    exp(i G.x), with the sign of the exponent that the code uses. *)
Definition structure_factor (s : Ewald) (conf : list (list R)) : list C :=
  map (fun g => csum (map (fun p => exp1j (dot p (tolist g))) conf))
      (gpoints s).

(** Sum over G of weight(G) |z(G)|^2. *)
Definition weighted_norm2 (s : Ewald) (z : list C) : R :=
  dot (gweight s) (map (fun a => abs a ^ 2) z).

(** [s] is an object built by the constructor, possibly after some
    evaluations. *)
Definition constructed (MinimalImageDistance : M33 -> Distance) (cell : Cell)
    (ewald_gmax nlatvec : Z) (s : Ewald) : Prop :=
  exists s0, __init__ MinimalImageDistance cell ewald_gmax nlatvec = inr s0 /\
             same_setup s0 s.

(** The integer triple [n] lies in the search cube of radius [gmax]. *)
Definition in_cube (gmax : Z) (n : Z * Z * Z) : Prop :=
  let '(x, y, z) := n in
  (- gmax <= x <= gmax)%Z /\ (- gmax <= y <= gmax)%Z /\ (- gmax <= z <= gmax)%Z.

(** The half-space test of line 109, as a proposition. *)
Definition half_space (n : Z * Z * Z) : Prop :=
  let '(x, y, z) := n in 0 < IZR x + 1e-6 * IZR y + 1e-12 * IZR z.

(** The first nonzero entry of [n] is positive. *)
Definition lex_positive (n : Z * Z * Z) : Prop :=
  let '(x, y, z) := n in
  (0 < x \/ (x = 0 /\ (0 < y \/ (y = 0 /\ 0 < z))))%Z.

(** The inner product of two integer triples. *)
Definition zdot (n m : Z * Z * Z) : Z :=
  let '(a, b, c) := n in
  let '(x, y, z) := m in (a * x + b * y + c * z)%Z.

(** ** Closed forms of what the methods compute *)

(** Closed forms of the per-configuration arrays, used to state what the
    methods return when nothing raises. *)
Definition to_V3 (p : list R) : V3 :=
  match as_V3 p with
  | Some v => v
  | None => (0, 0, 0)
  end.

Definition e_exp (s : Ewald) (conf : list (list R)) : list (list C) :=
  map (fun p => map exp1j (map (fun g => dot p (tolist g)) (gpoints s))) conf.

Definition ei_real (s : Ewald) (d : Distance) (conf : list (list R)) : list R :=
  map (fun p =>
         einsum_k_kl (map Ropp (atom_charges s))
           (map (fun v =>
                   map (fun n => erfc_over_r (alpha s) (norm (vadd v n)))
                       (lattice_displacements s))
                (dist_i3 d (atom_coords s) (to_V3 p))))
      conf.

Definition ee_real (s : Ewald) (d : Distance) (nelec : nat)
    (conf : list (list R)) : list R :=
  if Nat.ltb 1 nelec then
    map (fun row => sum row / 2)
        (fill_ee_matrix nelec (pair_indices nelec)
           (map (image_sum (alpha s) (lattice_displacements s))
                (dist_matrix3 d (map to_V3 conf))))
  else repeat 0 nelec.

Definition ei_sep (s : Ewald) (d : Distance) (conf : list (list R)) : list R :=
  map2 Rplus (ei_real s d conf) (map (Rmult 2) (recip_ei s (e_exp s conf))).

Definition ee_sep (s : Ewald) (d : Distance) (nelec : nat)
    (conf : list (list R)) : list R :=
  map2 Rplus (ee_real s d nelec conf)
       (map (Rmult 1) (recip_ee s (e_exp s conf))).

(** The state after a successful [ewald_electron]. *)
Definition after_ewald_electron (cfg : PeriodicConfigs) (s : Ewald) : Ewald :=
  let nelec := snd (fst (shape3 (configs cfg))) in
  let X := data3 (configs cfg) in
  let eis := map (ei_sep s (dist cfg)) X in
  let ees := map (ee_sep s (dist cfg) nelec) X in
  set_ewalde_separated (add2 eis ees)
    (set_ee_separated ees (set_ei_separated eis s)).

(** The batch has shape (nconf, nelec, 3) and its data fill the shape. *)
Definition batch3 (a : ndarray3) (nconf nelec : nat) : Prop :=
  shape3 a = (nconf, nelec, 3%nat) /\ wf3 a.

Definition re_conj_mul (a b : C) : R := real (cmul (conj a) b).

Definition re_mul (a b : C) : R := real (cmul a b).

Definition opp3 (n : Z * Z * Z) : Z * Z * Z :=
  let '(x, y, z) := n in (- x, - y, - z)%Z.

(** An n x n array given by its entries, and the change of one entry. *)
Definition mat_of (n : nat) (F : nat -> nat -> R) : list (list R) :=
  map (fun a => map (F a) (seq 0 n)) (seq 0 n).

Definition upd (F : nat -> nat -> R) (i j : nat) (v : R) : nat -> nat -> R :=
  fun a b => if Nat.eqb a i && Nat.eqb b j then v else F a b.

(** The loop of lines 274-278, on entries. *)
Definition fill_entries (f : nat * nat -> R) (inds : list (nat * nat))
    (F0 : nat -> nat -> R) : nat -> nat -> R :=
  fold_left (fun F p => upd (upd F (fst p) (snd p) (f p)) (snd p) (fst p) (f p))
            inds F0.

(** The entries after the loop: the pair energy off the diagonal, zero on
    the diagonal. *)
Definition pair_entry (f : nat * nat -> R) (a b : nat) : R :=
  if Nat.ltb a b then f (a, b) else if Nat.ltb b a then f (b, a) else 0.

(** The lattice sum of the pair [(i, j)] of a configuration, as
    [dist_matrix] orients it. *)
Definition pair_energy (s : Ewald) (d : Distance) (pts : list V3)
    (p : nat * nat) : R :=
  image_sum (alpha s) (lattice_displacements s)
    (disp d (nth (snd p) pts (0, 0, 0)) (nth (fst p) pts (0, 0, 0))).

(** The displacement primitive is odd: seen from the other end the
    displacement is reversed. *)
Definition odd_displacement (d : Distance) : Prop :=
  forall a b, disp d a b = vopp (disp d b a).

(** The row of [Vtest] for one configuration [conf] and one test
    position [t]. *)
Definition test_row (s : Ewald) (d : Distance) (conf : list (list R))
    (t : list R) : list R :=
  let test_exp := map exp1j (map (fun g => dot t (tolist g)) (gpoints s)) in
  map2 Rplus
    (map2 Rplus (repeat (0 + ijconst s) (length conf))
       (map (image_sum (alpha s) (lattice_displacements s))
            (dist_i3 d (map to_V3 conf) (to_V3 t))))
    (map (Rmult 2)
         (map (fun row => dot (map real (map2 cmul (map conj test_exp) row))
                              (gweight s))
              (e_exp s conf)))
  ++ [e_single_test s
      + einsum_k_kl (map Ropp (atom_charges s))
          (map (fun v =>
                  map (fun n => erfc_over_r (alpha s) (norm (vadd v n)))
                      (lattice_displacements s))
               (dist_i3 d (atom_coords s) (to_V3 t)))
      + 2 * dot (map (fun x => x + 0.5)
                     (map2 (fun a b => real (cmul (cneg (conj a)) b))
                           (ion_exp s) test_exp))
                (gweight s)].

(** The row of [Vtest] for the configuration [conf] and its test
    position [t] when there are as many configurations as mobile
    particles: the product of line 366 then takes, for the particle of
    index k, the test position of the configuration of index k in [E]. *)
Definition test_row_square (s : Ewald) (d : Distance) (E : list (list R))
    (conf : list (list R)) (t : list R) : list R :=
  let test_exp :=
    fun u => map exp1j (map (fun g => dot u (tolist g)) (gpoints s)) in
  map2 Rplus
    (map2 Rplus (repeat (0 + ijconst s) (length conf))
       (map (image_sum (alpha s) (lattice_displacements s))
            (dist_i3 d (map to_V3 conf) (to_V3 t))))
    (map (Rmult 2)
         (map (fun k =>
                 dot (map real (map2 cmul (map conj (test_exp (nth k E [])))
                                     (nth k (e_exp s conf) [])))
                     (gweight s))
              (seq 0 (length conf))))
  ++ [e_single_test s
      + einsum_k_kl (map Ropp (atom_charges s))
          (map (fun v =>
                  map (fun n => erfc_over_r (alpha s) (norm (vadd v n)))
                      (lattice_displacements s))
               (dist_i3 d (atom_coords s) (to_V3 t)))
      + 2 * dot (map (fun x => x + 0.5)
                     (map2 (fun a b => real (cmul (cneg (conj a)) b))
                           (ion_exp s) (test_exp t)))
                (gweight s)].

(** The batch with the test position of each configuration appended as
    its last particle. *)
Definition append_test (cfg : PeriodicConfigs) (epos : ndarray2)
  : PeriodicConfigs :=
  let '(nconf, nelec, ndim) := shape3 (configs cfg) in
  {| configs :=
       {| shape3 := (nconf, S nelec, ndim);
          data3 := map2 (fun conf t => conf ++ [t])
                        (data3 (configs cfg)) (data2 epos) |};
     dist := dist cfg |}.

(** The electron-ion share of the appended particle. *)
Definition ei_one (s : Ewald) (d : Distance) (t : list R) : R :=
  einsum_k_kl (map Ropp (atom_charges s))
    (map (fun v =>
            map (fun n => erfc_over_r (alpha s) (norm (vadd v n)))
                (lattice_displacements s))
         (dist_i3 d (atom_coords s) (to_V3 t)))
  + 2 * dot (map2 (fun a b => real (cmul (cneg (conj a)) b)) (ion_exp s)
                  (map exp1j (map (fun g => dot t (tolist g)) (gpoints s))))
            (gweight s).

(** The batch with every particle of every configuration moved by the
    vector [t]. *)
Definition translate (t : list R) (cfg : PeriodicConfigs) : PeriodicConfigs :=
  {| configs :=
       {| shape3 := shape3 (configs cfg);
          data3 := map (map (fun p => map2 Rplus p t)) (data3 (configs cfg)) |};
     dist := dist cfg |}.

(** The displacement primitive sees only relative positions. *)
Definition translation_invariant (d : Distance) : Prop :=
  forall a b v, disp d (vadd a v) (vadd b v) = disp d a b.

(** The object [s] with other contents of its three cache attributes. *)
Definition with_cache (a b c : option (list (list R))) (s : Ewald) : Ewald :=
  {| nelec := nelec s; atom_coords := atom_coords s;
     atom_charges := atom_charges s; latvec := latvec s;
     lattice_displacements := lattice_displacements s; alpha := alpha s;
     gpoints := gpoints s; gweight := gweight s; ijconst := ijconst s;
     ii_const := ii_const s; ee_const := ee_const s; ei_const := ei_const s;
     e_single := e_single s; e_single_test := e_single_test s;
     ion_exp := ion_exp s; ion_ion := ion_ion s;
     ei_separated := a; ee_separated := b; ewalde_separated := c |}.

(** ** Concrete inputs *)

(** Modelled from the spec: a distance object for concrete evaluations,
    the displacement [v - r] without periodic wrapping; it rejects
    positions that are not 3-vectors. *)
Definition raw_distance : Distance :=
  {| disp := fun r v => vadd v (vopp r);
     dist_i_other := fun _ _ => inl ValueError;
     dist_matrix_other := fun _ => inl ValueError |}.

(** The cell of the spec's scenario: a cube of side 10 with two fixed
    charges +1 at (0,0,0) and (0,0,1.5). *)
Definition cubic10 : Cell :=
  {| cell_nelec := (1%nat, 1%nat);
     cell_atom_coords := [(0, 0, 0); (0, 0, 1.5)];
     cell_atom_charges := [1; 1];
     cell_lattice_vectors := ((10, 0, 0), (0, 10, 0), (0, 0, 10)) |}.

(** One configuration with one mobile particle at (1, 2, 3). *)
Definition one_electron : PeriodicConfigs :=
  {| configs := {| shape3 := (1%nat, 1%nat, 3%nat); data3 := [[[1; 2; 3]]] |};
     dist := raw_distance |}.

(** One configuration with one particle at (4, 5, 6). *)
Definition other_electron : PeriodicConfigs :=
  {| configs := {| shape3 := (1%nat, 1%nat, 3%nat); data3 := [[[4; 5; 6]]] |};
     dist := raw_distance |}.

(** One configuration with one particle given by two coordinates. *)
Definition planar_batch : PeriodicConfigs :=
  {| configs := {| shape3 := (1%nat, 1%nat, 2%nat); data3 := [[[1; 2]]] |};
     dist := raw_distance |}.

(** Two configurations with one particle each, and one test position for
    each of them. *)
Definition two_configurations : PeriodicConfigs :=
  {| configs := {| shape3 := (2%nat, 1%nat, 3%nat);
                   data3 := [[[1; 2; 3]]; [[4; 5; 6]]] |};
     dist := raw_distance |}.

Definition one_test_position : ndarray2 :=
  {| shape2 := (1%nat, 3%nat); data2 := [[2; 2; 2]] |}.

Definition two_test_positions : ndarray2 :=
  {| shape2 := (2%nat, 3%nat); data2 := [[2; 2; 2]; [3; 3; 3]] |}.

(** A cell of zero height: the third lattice vector is zero. *)
Definition flat_cell : Cell :=
  {| cell_nelec := (1%nat, 1%nat);
     cell_atom_coords := [(0, 0, 0)];
     cell_atom_charges := [1];
     cell_lattice_vectors := ((10, 0, 0), (0, 10, 0), (0, 0, 0)) |}.

(** A cell of height 1e-9. *)
Definition thin_cell : Cell :=
  {| cell_nelec := (1%nat, 1%nat);
     cell_atom_coords := [(0, 0, 0)];
     cell_atom_charges := [1];
     cell_lattice_vectors := ((10, 0, 0), (0, 10, 0), (0, 0, 1e-9)) |}.

(** A cubic cell of side 10 with one fixed charge +2 at (1, 1, 1). *)
Definition one_ion_cell : Cell :=
  {| cell_nelec := (1%nat, 1%nat);
     cell_atom_coords := [(1, 1, 1)];
     cell_atom_charges := [2];
     cell_lattice_vectors := ((10, 0, 0), (0, 10, 0), (0, 0, 10)) |}.

(** One configuration with the particles (1, 2, 3) and (4, 5, 6), and the
    same configuration in the other order. *)
Definition two_electrons : PeriodicConfigs :=
  {| configs := {| shape3 := (1%nat, 2%nat, 3%nat);
                   data3 := [[[1; 2; 3]; [4; 5; 6]]] |};
     dist := raw_distance |}.

Definition two_electrons_swapped : PeriodicConfigs :=
  {| configs := {| shape3 := (1%nat, 2%nat, 3%nat);
                   data3 := [[[4; 5; 6]; [1; 2; 3]]] |};
     dist := raw_distance |}.

(** Two configurations with two mobile particles each. *)
Definition two_by_two : PeriodicConfigs :=
  {| configs := {| shape3 := (2%nat, 2%nat, 3%nat);
                   data3 := [[[1; 2; 3]; [4; 5; 6]];
                             [[1; 1; 1]; [7; 8; 9]]] |};
     dist := raw_distance |}.

(** A cell whose first lattice vector is sheared along the second: its
    lattice matrix is not symmetric. *)
Definition sheared_cell : Cell :=
  {| cell_nelec := (1%nat, 0%nat);
     cell_atom_coords := [(0, 0, 0)];
     cell_atom_charges := [1];
     cell_lattice_vectors := ((2, 1, 0), (0, 1, 0), (0, 0, 1)) |}.

(** ** Lists, sums and masks *)

Lemma mapE_ok {A B : Type} (f : A -> result B) (g : A -> B) (l : list A) :
  (forall a, In a l -> f a = inr (g a)) -> mapE f l = inr (map g l).
Proof.
  induction l as [| a l IH]; intros H; simpl.
  - reflexivity.
  - rewrite (H a (or_introl eq_refl)). simpl.
    rewrite IH by (intros b Hb; apply H; right; exact Hb).
    reflexivity.
Qed.

Lemma sum_app (l m : list R) : sum (l ++ m) = sum l + sum m.
Proof. induction l as [| a l IH]; simpl; [lra | rewrite IH; lra]. Qed.

Lemma sum_map_plus {A : Type} (f g : A -> R) (l : list A) :
  sum (map (fun a => f a + g a) l) = sum (map f l) + sum (map g l).
Proof. induction l as [| a l IH]; simpl; [lra | rewrite IH; lra]. Qed.

Lemma sum_map_scal {A : Type} (k : R) (f : A -> R) (l : list A) :
  sum (map (fun a => k * f a) l) = k * sum (map f l).
Proof. induction l as [| a l IH]; simpl; [lra | rewrite IH; lra]. Qed.

Lemma sum_map_const {A : Type} (k : R) (l : list A) :
  sum (map (fun _ => k) l) = INR (length l) * k.
Proof.
  induction l as [| a l IH]; [simpl; lra |].
  change (length (a :: l)) with (S (length l)).
  rewrite S_INR. simpl. rewrite IH. lra.
Qed.

Lemma sum_map_ext {A : Type} (f g : A -> R) (l : list A) :
  (forall a, In a l -> f a = g a) -> sum (map f l) = sum (map g l).
Proof.
  intros H. f_equal. apply map_ext_in. exact H.
Qed.

Lemma sum_repeat_0 (n : nat) : sum (repeat 0 n) = 0.
Proof. induction n as [| n IH]; simpl; [reflexivity | rewrite IH; lra]. Qed.

Lemma sum_pos (l : list R) :
  l <> [] -> Forall (fun w => 0 < w) l -> 0 < sum l.
Proof.
  intros Hne Hall. destruct l as [| a l]; [contradiction |].
  clear Hne. revert a Hall. induction l as [| b l IH]; intros a Hall.
  - inversion Hall; subst. simpl. lra.
  - inversion Hall as [| ? ? Ha Hl]; subst. specialize (IH b Hl).
    simpl in *. lra.
Qed.

Lemma map2_map_same {A B D E : Type} (f : B -> D -> E) (g : A -> B)
    (h : A -> D) (l : list A) :
  map2 f (map g l) (map h l) = map (fun a => f (g a) (h a)) l.
Proof.
  unfold map2. induction l as [| a l IH]; simpl; [reflexivity |].
  rewrite IH. reflexivity.
Qed.

Lemma map2_map_r {A B D : Type} (f : A -> B -> D) (h : A -> B) (l : list A) :
  map2 f l (map h l) = map (fun a => f a (h a)) l.
Proof.
  rewrite <- (map_id l) at 1. apply (map2_map_same f (fun a => a) h).
Qed.

Lemma map2_same {A D : Type} (f : A -> A -> D) (l : list A) :
  map2 f l l = map (fun a => f a a) l.
Proof.
  unfold map2. induction l as [| a l IH]; simpl; [reflexivity |].
  rewrite IH. reflexivity.
Qed.

Lemma map2_singleton {A B D : Type} (f : A -> B -> D) (a : A) (b : B) :
  map2 f [a] [b] = [f a b].
Proof. reflexivity. Qed.

Lemma map2_length {A B D : Type} (f : A -> B -> D) (l : list A) (m : list B) :
  length l = length m -> length (map2 f l m) = length l.
Proof.
  intros H. unfold map2. rewrite length_map, length_combine, H.
  apply Nat.min_id.
Qed.

Lemma mask_map {A : Type} (f : A -> bool) (l : list A) :
  mask l (map f l) = filter f l.
Proof.
  unfold mask. induction l as [| a l IH]; simpl; [reflexivity |].
  destruct (f a); simpl; rewrite IH; reflexivity.
Qed.

Lemma filter_map_swap {A B : Type} (p : B -> bool) (w : A -> B) (l : list A) :
  filter p (map w l) = map w (filter (fun a => p (w a)) l).
Proof.
  induction l as [| a l IH]; simpl; [reflexivity |].
  destruct (p (w a)); simpl; rewrite IH; reflexivity.
Qed.

Lemma in_arange (lo hi x : Z) :
  In x (arange lo hi) <-> (lo <= x < hi)%Z.
Proof.
  unfold arange. rewrite in_map_iff. split.
  - intros [k [Hk Hin]]. apply in_seq in Hin. lia.
  - intros H. exists (Z.to_nat (x - lo)). split; [lia |].
    apply in_seq. lia.
Qed.

Lemma in_meshgrid3 (r : list Z) (x y z : Z) :
  In (x, y, z) (meshgrid3 r) <-> In x r /\ In y r /\ In z r.
Proof.
  unfold meshgrid3. rewrite in_flat_map. split.
  - intros [x' [Hx H]]. apply in_flat_map in H. destruct H as [y' [Hy H]].
    apply in_map_iff in H. destruct H as [z' [Heq Hz]].
    inversion Heq; subst. auto.
  - intros [Hx [Hy Hz]]. exists x. split; [exact Hx |].
    apply in_flat_map. exists y. split; [exact Hy |].
    apply in_map_iff. exists z. auto.
Qed.

Lemma in_search_cube (gmax : Z) (n : Z * Z * Z) :
  In n (meshgrid3 (arange (- gmax) (gmax + 1))) <-> in_cube gmax n.
Proof.
  destruct n as [[x y] z]. rewrite in_meshgrid3, !in_arange.
  unfold in_cube. lia.
Qed.

Lemma positive_octant_true (n : Z * Z * Z) :
  positive_octant n = true <-> half_space n.
Proof.
  destruct n as [[x y] z]. unfold positive_octant, half_space.
  destruct (Rlt_dec 0 (IZR x + 1e-6 * IZR y + 1e-12 * IZR z)); split;
    intros H; try reflexivity; try assumption; try discriminate.
  contradiction.
Qed.

Lemma bigweight_true (w : R) : bigweight w = true <-> 1e-10 < w.
Proof.
  unfold bigweight. destruct (Rlt_dec 1e-10 w); split; intros H;
    try reflexivity; try assumption; try discriminate.
  contradiction.
Qed.

(** ** Linear algebra of the set-up *)

Lemma inv_singular (m : M33) : det m = 0 -> inv m = inl LinAlgError.
Proof.
  intros H. unfold inv. destruct (Req_dec_T (det m) 0); [reflexivity |].
  contradiction.
Qed.

Lemma inv_regular (m : M33) :
  det m <> 0 -> inv m = inr (mscale (adjugate m) (/ det m)).
Proof.
  intros H. unfold inv. destruct (Req_dec_T (det m) 0); [contradiction |].
  reflexivity.
Qed.

Lemma inv_inr (m r : M33) :
  inv m = inr r -> det m <> 0 /\ r = mscale (adjugate m) (/ det m).
Proof.
  unfold inv. destruct (Req_dec_T (det m) 0); [discriminate |].
  intros H. injection H as <-. split; [assumption | reflexivity].
Qed.

(** A row vector is recovered from its product with the inverse. *)
Lemma vecmat_inv_cancel (x : V3) (m r : M33) :
  inv m = inr r -> vecmat (vecmat x r) m = x.
Proof.
  intros H. apply inv_inr in H. destruct H as [Hd ->].
  destruct m as [[[[a00 a01] a02] [[a10 a11] a12]] [[a20 a21] a22]].
  destruct x as [[x0 x1] x2].
  unfold det in Hd. cbn in *.
  f_equal; [f_equal |]; field; exact Hd.
Qed.

Lemma vecmat_zero (m : M33) : vecmat (0, 0, 0) m = (0, 0, 0).
Proof.
  destruct m as [[[[a00 a01] a02] [[a10 a11] a12]] [[a20 a21] a22]].
  cbn. f_equal; [f_equal |]; ring.
Qed.

Lemma sumsq_nonneg (v : V3) : 0 <= sumsq v.
Proof. destruct v as [[a b] c]. unfold sumsq, vdot. nra. Qed.

Lemma sumsq_pos (v a : V3) : vdot v a <> 0 -> 0 < sumsq v.
Proof.
  destruct v as [[v0 v1] v2], a as [[a0 a1] a2]. unfold sumsq, vdot.
  intros H.
  destruct (Req_dec_T v0 0) as [E0 | N0]; [| nra].
  destruct (Req_dec_T v1 0) as [E1 | N1]; [| nra].
  destruct (Req_dec_T v2 0) as [E2 | N2]; [| nra].
  subst. exfalso. apply H. ring.
Qed.

Lemma height_pos (v a : V3) : vdot v a <> 0 -> 0 < Rabs (vdot v a) / norm v.
Proof.
  intros H. apply Rdiv_lt_0_compat.
  - apply Rabs_pos_lt. exact H.
  - unfold norm. apply sqrt_lt_R0. apply (sumsq_pos v a H).
Qed.

(** Each row of [crossproduct] has the cell volume as its product with
    the lattice vector of the same index. *)
Lemma crossproduct_heights (m r : M33) :
  inv m = inr r ->
  map2 vdot (rows (mscale (transpose r) (det m))) (rows m)
  = [det m; det m; det m].
Proof.
  intros H. apply inv_inr in H. destruct H as [Hd ->].
  destruct m as [[[[a00 a01] a02] [[a10 a11] a12]] [[a20 a21] a22]].
  unfold det in *. cbn in *.
  f_equal; [| f_equal; [| f_equal]]; field; exact Hd.
Qed.

Lemma smallest_height_pos (m r : M33) :
  inv m = inr r -> 0 < smallest_height m r.
Proof.
  intros H. pose proof (crossproduct_heights m r H) as Hh.
  pose proof (inv_inr m r H) as [Hd _].
  unfold smallest_height.
  destruct (mscale (transpose r) (det m)) as [[c0 c1] c2] eqn:Ec.
  destruct m as [[m0 m1] m2].
  cbn [rows map2 map combine fst snd] in *.
  injection Hh as H0 H1 H2.
  cbn [hd tl amin fold_left].
  assert (P0 : 0 < Rabs (vdot c0 m0) / norm c0)
    by (apply height_pos; rewrite H0; exact Hd).
  assert (P1 : 0 < Rabs (vdot c1 m1) / norm c1)
    by (apply height_pos; rewrite H1; exact Hd).
  assert (P2 : 0 < Rabs (vdot c2 m2) / norm c2)
    by (apply height_pos; rewrite H2; exact Hd).
  repeat apply Rmin_glb_lt; assumption.
Qed.

(** ** What the constructor returns *)

Lemma init_singular (MID : M33 -> Distance) (cell : Cell) (gmax nlatvec : Z) :
  det (cell_lattice_vectors cell) = 0 ->
  __init__ MID cell gmax nlatvec = inl LinAlgError.
Proof.
  intros H. unfold __init__, set_up_reciprocal_ewald_sum.
  rewrite (inv_singular _ H). reflexivity.
Qed.

Lemma init_regular (MID : M33 -> Distance) (cell : Cell) (gmax nlatvec : Z) :
  det (cell_lattice_vectors cell) <> 0 ->
  exists s, __init__ MID cell gmax nlatvec = inr s.
Proof.
  intros H. unfold __init__, set_up_reciprocal_ewald_sum.
  rewrite (inv_regular _ H). cbn [bindE]. eexists. reflexivity.
Qed.

(** The reciprocal part of a constructed object. *)
Lemma init_reciprocal (MID : M33 -> Distance) (cell : Cell) (gmax nlatvec : Z)
    (s : Ewald) :
  __init__ MID cell gmax nlatvec = inr s ->
  exists recvec,
    inv (cell_lattice_vectors cell) = inr recvec /\
    alpha s = 5.0 / smallest_height (cell_lattice_vectors cell) recvec /\
    gweight s
    = map (reciprocal_weight (det (cell_lattice_vectors cell)) (alpha s))
          (gpoints s) /\
    gpoints s
    = filter (fun g => bigweight (reciprocal_weight
                                    (det (cell_lattice_vectors cell))
                                    (alpha s) g))
        (map (fun n => vmulr (vmulr (vecmat (of_ints n) recvec) 2) PI)
             (filter positive_octant
                     (meshgrid3 (arange (- gmax) (gmax + 1))))).
Proof.
  unfold __init__, set_up_reciprocal_ewald_sum. intros H.
  destruct (inv (cell_lattice_vectors cell)) as [e | recvec] eqn:Einv;
    [discriminate |].
  cbn [bindE] in H. injection H as <-. exists recvec.
  unfold set_ewald_constants. cbn [alpha gweight gpoints].
  rewrite !mask_map.
  rewrite (map_map (reciprocal_weight _ _) bigweight).
  rewrite !mask_map. rewrite filter_map_swap.
  repeat split; reflexivity.
Qed.

Lemma init_lengths (MID : M33 -> Distance) (cell : Cell) (gmax nlatvec : Z)
    (s : Ewald) :
  __init__ MID cell gmax nlatvec = inr s ->
  length (gweight s) = length (gpoints s) /\
  length (ion_exp s) = length (gpoints s).
Proof.
  intros H. destruct (init_reciprocal _ _ _ _ _ H) as [r [_ [_ [Hw _]]]].
  split; [rewrite Hw; apply length_map |].
  unfold __init__, set_up_reciprocal_ewald_sum in H.
  destruct (inv (cell_lattice_vectors cell)) as [e | recvec];
    [discriminate |].
  cbn [bindE] in H. injection H as <-.
  unfold set_ewald_constants. cbn [ion_exp gpoints]. unfold ewald_ion.
  cbn [fst].
  rewrite !length_map. reflexivity.
Qed.

Lemma init_gweight_big (MID : M33 -> Distance) (cell : Cell) (gmax nlatvec : Z)
    (s : Ewald) :
  __init__ MID cell gmax nlatvec = inr s ->
  Forall (fun w => 1e-10 < w) (gweight s).
Proof.
  intros H. destruct (init_reciprocal _ _ _ _ _ H) as [r [_ [_ [Hw Hg]]]].
  rewrite Hw. apply Forall_forall. intros w Hin.
  apply in_map_iff in Hin. destruct Hin as [g [<- Hin]].
  rewrite Hg in Hin. apply filter_In in Hin. destruct Hin as [_ Hb].
  apply bigweight_true. exact Hb.
Qed.

Lemma init_with_inv (MID : M33 -> Distance) (cell : Cell) (gmax nlatvec : Z) :
  init_with inv MID cell gmax nlatvec = __init__ MID cell gmax nlatvec.
Proof. reflexivity. Qed.

Lemma inv_raises_LinAlgError (m : M33) (e : exn) :
  inv m = inl e -> e = LinAlgError.
Proof.
  unfold inv. destruct (Req_dec_T (det m) 0); [| discriminate].
  intros H. injection H as <-. reflexivity.
Qed.

Lemma init_ion (MID : M33 -> Distance) (cell : Cell) (gmax nlatvec : Z)
    (s : Ewald) :
  __init__ MID cell gmax nlatvec = inr s ->
  atom_coords s = cell_atom_coords cell /\
  atom_charges s = cell_atom_charges cell /\
  (ion_exp s, ion_ion s)
  = ewald_ion MID (cell_lattice_vectors cell) (cell_atom_coords cell)
      (cell_atom_charges cell) (lattice_displacements s) (alpha s)
      (gpoints s) (gweight s) /\
  ii_const s
  = (sum (cell_atom_charges cell) ^ 2
     - sum (map (fun z => z ^ 2) (cell_atom_charges cell))) / 2 * ijconst s
    + sum (map (fun z => z ^ 2) (cell_atom_charges cell))
      * (e_single_test s + sum (cell_atom_charges cell) * ijconst s).
Proof.
  unfold __init__, set_up_reciprocal_ewald_sum. intros H.
  destruct (inv (cell_lattice_vectors cell)); [discriminate |].
  cbn [bindE] in H. injection H as <-. unfold set_ewald_constants.
  cbn [atom_coords atom_charges ion_exp ion_ion lattice_displacements alpha
       gpoints gweight ii_const ijconst e_single_test].
  split; [reflexivity |]. split; [reflexivity |].
  split; [symmetry; apply surjective_pairing |].
  f_equal. f_equal. lra.
Qed.

(** ** Inner products and sums along an axis *)

Lemma dot_comm (a b : list R) : dot a b = dot b a.
Proof.
  unfold dot, map2. revert b.
  induction a as [| x a IH]; intros [| y b]; simpl; try reflexivity.
  rewrite IH. lra.
Qed.

Lemma dot_map_minus_const (c : R) (l w : list R) :
  length l = length w ->
  dot (map (fun x => x - c) l) w = dot l w - c * sum w.
Proof.
  unfold dot, map2. revert w.
  induction l as [| x l IH]; intros [| y w] Hlen; simpl in *;
    try discriminate; [lra |].
  rewrite IH by lia. lra.
Qed.

Lemma dot_map_plus_const (c : R) (l w : list R) :
  length l = length w ->
  dot (map (fun x => x + c) l) w = dot l w + c * sum w.
Proof.
  unfold dot, map2. revert w.
  induction l as [| x l IH]; intros [| y w] Hlen; simpl in *;
    try discriminate; [lra |].
  rewrite IH by lia. lra.
Qed.

Lemma repeat_as_map {A B : Type} (b : B) (l : list A) :
  repeat b (length l) = map (fun _ => b) l.
Proof. induction l as [| a l IH]; simpl; [| rewrite IH]; reflexivity. Qed.

Lemma csum_axis0_length (n : nat) (rows : list (list C)) :
  Forall (fun row => length row = n) rows ->
  length (csum_axis0 n rows) = n.
Proof.
  unfold csum_axis0. induction 1 as [| row rows Hrow _ IH]; simpl.
  - apply repeat_length.
  - rewrite map2_length; lia.
Qed.

(** Summing the rows first or the products first. *)
Lemma csum_axis0_map {A B : Type} (h : A -> B -> C) (gs : list B)
    (conf : list A) :
  csum_axis0 (length gs) (map (fun p => map (h p) gs) conf)
  = map (fun g => csum (map (fun p => h p g) conf)) gs.
Proof.
  unfold csum_axis0. induction conf as [| p conf IH]; simpl.
  - apply repeat_as_map.
  - rewrite IH. apply map2_map_same.
Qed.

Section Bilinear.

(** A real-valued pairing of complex numbers that is additive in its
    second argument, such as Re(conj(a) b). *)
Variable f : C -> C -> R.
Hypothesis f_add : forall t a b, f t (cadd a b) = f t a + f t b.
Hypothesis f_zero : forall t, f t (0, 0) = 0.

Lemma dot_pairing_add (T r r' : list C) (w : list R) :
  length r = length T -> length r' = length T ->
  dot (map2 f T (map2 cadd r r')) w
  = dot (map2 f T r) w + dot (map2 f T r') w.
Proof.
  unfold dot, map2. revert r r' w.
  induction T as [| t T IH]; intros [| a r] [| a' r'] w Hr Hr';
    simpl in *; try discriminate; try lra.
  destruct w as [| y w]; simpl; [lra |].
  rewrite f_add. rewrite IH by lia. lra.
Qed.

Lemma dot_pairing_zero (T : list C) (w : list R) (n : nat) :
  dot (map2 f T (repeat (0, 0) n)) w = 0.
Proof.
  unfold dot, map2. revert n w.
  induction T as [| t T IH]; intros [| n] w; simpl; try reflexivity.
  destruct w as [| y w]; simpl; [reflexivity |].
  rewrite f_zero, IH. lra.
Qed.

Lemma sum_dot_pairing (n : nat) (T : list C) (rows : list (list C))
    (w : list R) :
  length T = n -> Forall (fun row => length row = n) rows ->
  sum (map (fun row => dot (map2 f T row) w) rows)
  = dot (map2 f T (csum_axis0 n rows)) w.
Proof.
  intros HT Hrows. induction Hrows as [| row rows Hrow Hrows IH].
  - simpl. symmetry. apply dot_pairing_zero.
  - simpl. rewrite IH.
    change (csum_axis0 n (row :: rows))
      with (map2 cadd row (csum_axis0 n rows)).
    rewrite dot_pairing_add;
      [reflexivity | lia | rewrite csum_axis0_length; [lia | exact Hrows]].
Qed.

End Bilinear.

Lemma abs_sq (a : C) : abs a ^ 2 = fst a * fst a + snd a * snd a.
Proof.
  unfold abs. simpl. rewrite Rmult_1_r. apply sqrt_sqrt. nra.
Qed.

Lemma pairing_self (T : list C) :
  map2 (fun a b => real (cmul (conj a) b)) T T = map (fun a => abs a ^ 2) T.
Proof.
  rewrite map2_same. apply map_ext. intros [x y].
  rewrite abs_sq. unfold real, cmul, conj. simpl. ring.
Qed.

Lemma re_conj_mul_add (t a b : C) :
  re_conj_mul t (cadd a b) = re_conj_mul t a + re_conj_mul t b.
Proof.
  destruct t, a, b. unfold re_conj_mul, real, cmul, conj, cadd. simpl. ring.
Qed.

Lemma re_conj_mul_zero (t : C) : re_conj_mul t (0, 0) = 0.
Proof. destruct t. unfold re_conj_mul, real, cmul, conj. simpl. ring. Qed.

(** The per-particle reciprocal terms of one configuration add up, with
    the half weight per particle restored, to the weighted squared modulus
    of the column sums. *)
Lemma sum_recip_ee (s : Ewald) (rows : list (list C)) :
  length (gweight s) = length (gpoints s) ->
  Forall (fun row => length row = length (gpoints s)) rows ->
  sum (recip_ee s rows) + INR (length rows) / 2 * sum (gweight s)
  = weighted_norm2 s (csum_axis0 (length (gpoints s)) rows).
Proof.
  intros Hw Hrows. unfold recip_ee, weighted_norm2.
  set (n := length (gpoints s)) in *.
  set (S := csum_axis0 n rows).
  assert (HS : length S = n) by (apply csum_axis0_length; exact Hrows).
  rewrite map_map.
  rewrite (sum_map_ext _
             (fun row => dot (map2 (fun a b => real (cmul (conj a) b)) S row)
                             (gweight s)
                         + - (0.5 * sum (gweight s)))).
  2:{ intros row Hin. rewrite dot_map_minus_const; [lra |].
      rewrite Forall_forall in Hrows. rewrite map2_length; [lia |].
      rewrite (Hrows row Hin). exact HS. }
  rewrite sum_map_plus, sum_map_const.
  change (fun a b : C => real (cmul (conj a) b)) with re_conj_mul.
  rewrite (sum_dot_pairing re_conj_mul re_conj_mul_add re_conj_mul_zero
             n S rows (gweight s) HS Hrows).
  unfold re_conj_mul.
  fold S. rewrite pairing_self. rewrite (dot_comm (gweight s)). lra.
Qed.

(** ** The evaluators on a batch of 3-vectors *)

Lemma batch3_data (a : ndarray3) (nconf nelec : nat) :
  batch3 a nconf nelec ->
  length (data3 a) = nconf /\
  forall conf, In conf (data3 a) ->
    length conf = nelec /\ Forall (fun p => length p = 3%nat) conf.
Proof.
  intros [Hs Hwf]. unfold wf3 in Hwf. rewrite Hs in Hwf.
  destruct Hwf as [Hn Hall]. split; [exact Hn |].
  intros conf Hin. rewrite Forall_forall in Hall. exact (Hall conf Hin).
Qed.

Lemma as_V3_len3 (p : list R) :
  length p = 3%nat -> exists v, as_V3 p = Some v /\ p = tolist v.
Proof.
  destruct p as [| x [| y [| z [| t p]]]]; simpl; try discriminate.
  intros _. exists (x, y, z). split; reflexivity.
Qed.

Lemma as_V3_tolist (v : V3) : as_V3 (tolist v) = Some v.
Proof. destruct v as [[x y] z]. reflexivity. Qed.

Lemma as_V3s_tolist (ps : list V3) : as_V3s (map tolist ps) = Some ps.
Proof.
  induction ps as [| v ps IH]; simpl; [reflexivity |].
  rewrite as_V3_tolist, IH. reflexivity.
Qed.

Lemma as_V3s_len3 (conf : list (list R)) :
  Forall (fun p => length p = 3%nat) conf ->
  as_V3s conf = Some (map to_V3 conf).
Proof.
  induction 1 as [| p conf Hp _ IH]; simpl; [reflexivity |].
  rewrite IH. unfold to_V3.
  destruct (as_V3_len3 p Hp) as [v [-> _]]. reflexivity.
Qed.

Lemma dist_i_len3 (d : Distance) (refs : list V3) (p : list R) :
  length p = 3%nat ->
  dist_i d (map tolist refs) p = inr (dist_i3 d refs (to_V3 p)).
Proof.
  intros Hp. unfold dist_i, to_V3. rewrite as_V3s_tolist.
  destruct (as_V3_len3 p Hp) as [v [-> _]]. reflexivity.
Qed.

Lemma real_space_ei_ok (s : Ewald) (d : Distance) (conf : list (list R)) :
  Forall (fun p => length p = 3%nat) conf ->
  real_space_ei s d conf = inr (ei_real s d conf).
Proof.
  intros H. unfold real_space_ei.
  rewrite (mapE_ok _ (fun p => dist_i3 d (atom_coords s) (to_V3 p))).
  - cbn [bindE]. unfold ei_real. rewrite map_map. reflexivity.
  - intros p Hin. rewrite Forall_forall in H. apply dist_i_len3. auto.
Qed.

Lemma real_space_ee_ok (s : Ewald) (d : Distance) (nelec : nat)
    (conf : list (list R)) :
  Forall (fun p => length p = 3%nat) conf -> (1 < nelec)%nat ->
  real_space_ee s d nelec conf = inr (ee_real s d nelec conf).
Proof.
  intros H Hn. unfold real_space_ee, dist_matrix, ee_real.
  rewrite (as_V3s_len3 conf H). cbn [bindE].
  apply Nat.ltb_lt in Hn. rewrite Hn. reflexivity.
Qed.

Lemma add2_map (f g : list (list R) -> list R) (X : list (list (list R))) :
  add2 (map f X) (map g X) = map (fun conf => map2 Rplus (f conf) (g conf)) X.
Proof. unfold add2. apply map2_map_same. Qed.

(** What [ewald_electron] returns and stores on a batch of 3-vectors. *)
Lemma ewald_electron_ok (cfg : PeriodicConfigs) (s : Ewald) (nconf nelec : nat) :
  batch3 (configs cfg) nconf nelec ->
  ewald_electron cfg s
  = (inr (map (fun conf => sum (ee_sep s (dist cfg) nelec conf)
                           + INR nelec / 2 * sum (gweight s))
              (data3 (configs cfg)),
          map (fun conf => sum (ei_sep s (dist cfg) conf))
              (data3 (configs cfg))),
     after_ewald_electron cfg s).
Proof.
  intros Hb. pose proof (batch3_data _ _ _ Hb) as [Hlen Hconf].
  destruct Hb as [Hs _].
  unfold ewald_electron, after_ewald_electron. rewrite Hs.
  cbn [fst snd]. unfold bind, self, lift, setattr, ret.
  rewrite (mapE_ok _ (ei_real s (dist cfg)))
    by (intros conf Hin; apply real_space_ei_ok; apply Hconf; exact Hin).
  assert (Hee : (if Nat.ltb 1 nelec
                 then mapE (real_space_ee s (dist cfg) nelec)
                        (data3 (configs cfg))
                 else inr (map (fun _ => repeat 0 nelec) (data3 (configs cfg))))
                = inr (map (ee_real s (dist cfg) nelec) (data3 (configs cfg)))).
  { destruct (Nat.ltb 1 nelec) eqn:E.
    - apply mapE_ok. intros conf Hin. apply real_space_ee_ok.
      + apply Hconf; exact Hin.
      + apply Nat.ltb_lt; exact E.
    - f_equal. apply map_ext. intros conf. unfold ee_real. rewrite E.
      reflexivity. }
  rewrite Hee. unfold dot_gpoints. cbn [Nat.eqb].
  cbn [gweight gpoints set_ewalde_separated set_ee_separated set_ei_separated].
  assert (HE : map (map (map exp1j))
                 (map (map (fun p => map (fun g => dot p (tolist g)) (gpoints s)))
                      (data3 (configs cfg)))
               = map (e_exp s) (data3 (configs cfg))).
  { rewrite map_map. apply map_ext. intros conf. unfold e_exp.
    rewrite map_map. reflexivity. }
  rewrite HE. unfold scale2. rewrite !map_map.
  rewrite !add2_map.
  assert (Hei : map (fun conf =>
                       map2 Rplus (ei_real s (dist cfg) conf)
                         (map (Rmult 2) (recip_ei s (e_exp s conf))))
                    (data3 (configs cfg))
                = map (ei_sep s (dist cfg)) (data3 (configs cfg)))
    by reflexivity.
  assert (Hes : map (fun conf =>
                       map2 Rplus (ee_real s (dist cfg) nelec conf)
                         (map (Rmult 1) (recip_ee s (e_exp s conf))))
                    (data3 (configs cfg))
                = map (ee_sep s (dist cfg) nelec) (data3 (configs cfg)))
    by reflexivity.
  rewrite Hei, Hes. rewrite !map_map. reflexivity.
Qed.

(** ** Shapes of the per-configuration arrays *)

Lemma length_set_nth {A : Type} (l : list A) (i : nat) (v : A) :
  length (set_nth l i v) = length l.
Proof.
  revert i. induction l as [| a l IH]; intros [| i]; simpl;
    try reflexivity. rewrite IH. reflexivity.
Qed.

Lemma length_set2 (m : list (list R)) (i j : nat) (v : R) :
  length (set2 m i j v) = length m.
Proof. unfold set2. apply length_set_nth. Qed.

Lemma length_fill_ee_matrix (nelec : nat) (inds : list (nat * nat))
    (cij : list R) :
  length (fill_ee_matrix nelec inds cij) = nelec.
Proof.
  unfold fill_ee_matrix.
  assert (H : forall l m, length
            (fold_left
               (fun ee_matrix (iv : nat * nat * R) =>
                  let '((i, j), val) := iv in
                  set2 (set2 ee_matrix i j val) j i val) l m)
            = length m).
  { induction l as [| [[i j] v] l IH]; intros m; simpl; [reflexivity |].
    rewrite IH, !length_set2. reflexivity. }
  rewrite H. unfold zeros2. apply repeat_length.
Qed.

Lemma length_ee_real (s : Ewald) (d : Distance) (nelec : nat)
    (conf : list (list R)) :
  length (ee_real s d nelec conf) = nelec.
Proof.
  unfold ee_real. destruct (Nat.ltb 1 nelec).
  - rewrite length_map. apply length_fill_ee_matrix.
  - apply repeat_length.
Qed.

Lemma length_ei_real (s : Ewald) (d : Distance) (conf : list (list R)) :
  length (ei_real s d conf) = length conf.
Proof. unfold ei_real. apply length_map. Qed.

Lemma length_recip_ee (s : Ewald) (rows : list (list C)) :
  length (recip_ee s rows) = length rows.
Proof. unfold recip_ee. rewrite !length_map. reflexivity. Qed.

Lemma length_recip_ei (s : Ewald) (rows : list (list C)) :
  length (recip_ei s rows) = length rows.
Proof. unfold recip_ei. rewrite !length_map. reflexivity. Qed.

Lemma length_e_exp (s : Ewald) (conf : list (list R)) :
  length (e_exp s conf) = length conf.
Proof. unfold e_exp. apply length_map. Qed.

Lemma e_exp_rows (s : Ewald) (conf : list (list R)) :
  Forall (fun row => length row = length (gpoints s)) (e_exp s conf).
Proof.
  unfold e_exp. apply Forall_forall. intros row Hin.
  apply in_map_iff in Hin. destruct Hin as [p [<- _]].
  rewrite !length_map. reflexivity.
Qed.

(** The column sums of [e_expGdotR] are the structure factor. *)
Lemma sum_e_exp_structure_factor (s : Ewald) (conf : list (list R)) :
  csum_axis0 (length (gpoints s)) (e_exp s conf) = structure_factor s conf.
Proof.
  unfold e_exp, structure_factor.
  rewrite <- (csum_axis0_map (fun p g => exp1j (dot p (tolist g)))).
  f_equal. apply map_ext. intros p. apply map_map.
Qed.

Lemma sum_map2_plus (a b : list R) :
  length a = length b -> sum (map2 Rplus a b) = sum a + sum b.
Proof.
  unfold map2. revert b.
  induction a as [| x a IH]; intros [| y b] H; simpl in *;
    try discriminate; [lra |].
  rewrite IH by lia. lra.
Qed.

Lemma length_ei_sep (s : Ewald) (d : Distance) (conf : list (list R)) :
  length (ei_sep s d conf) = length conf.
Proof.
  unfold ei_sep. rewrite map2_length; [apply length_ei_real |].
  rewrite length_map, length_recip_ei, length_e_exp, length_ei_real.
  reflexivity.
Qed.

Lemma length_ee_sep (s : Ewald) (d : Distance) (conf : list (list R)) :
  length (ee_sep s d (length conf) conf) = length conf.
Proof.
  unfold ee_sep. rewrite map2_length; [apply length_ee_real |].
  rewrite length_map, length_recip_ee, length_e_exp, length_ee_real.
  reflexivity.
Qed.

Lemma sum_ee_sep (s : Ewald) (d : Distance) (conf : list (list R)) :
  sum (ee_sep s d (length conf) conf)
  = sum (ee_real s d (length conf) conf) + sum (recip_ee s (e_exp s conf)).
Proof.
  unfold ee_sep. rewrite sum_map2_plus.
  - f_equal. rewrite <- (map_id (recip_ee s (e_exp s conf))) at 2.
    f_equal. apply map_ext. intros x. lra.
  - rewrite length_map, length_recip_ee, length_e_exp, length_ee_real.
    reflexivity.
Qed.

(** The mobile-mobile total of one configuration: the real-space shares
    plus the weighted squared modulus of the structure factor. *)
Lemma ee_total (s : Ewald) (d : Distance) (conf : list (list R)) :
  length (gweight s) = length (gpoints s) ->
  sum (ee_sep s d (length conf) conf)
  + INR (length conf) / 2 * sum (gweight s)
  = sum (ee_real s d (length conf) conf)
    + weighted_norm2 s (structure_factor s conf).
Proof.
  intros Hw. rewrite sum_ee_sep.
  pose proof (sum_recip_ee s (e_exp s conf) Hw (e_exp_rows s conf)) as H.
  rewrite length_e_exp, sum_e_exp_structure_factor in H. lra.
Qed.

(** ** What [energy] and [energy_separated] return *)

Lemma energy_ok (cfg : PeriodicConfigs) (s : Ewald) (nconf nelec : nat) :
  batch3 (configs cfg) nconf nelec ->
  energy cfg s
  = (inr (map (fun conf => sum (ee_sep s (dist cfg) nelec conf)
                           + INR nelec / 2 * sum (gweight s)
                           + ee_const s nelec)
              (data3 (configs cfg)),
          map (fun conf => sum (ei_sep s (dist cfg) conf) + ei_const s nelec)
              (data3 (configs cfg)),
          ion_ion s + ii_const s),
     after_ewald_electron cfg s).
Proof.
  intros Hb. unfold energy, bind.
  rewrite (ewald_electron_ok cfg s nconf nelec Hb).
  destruct Hb as [Hs _]. rewrite Hs. cbn [fst snd].
  unfold self, ret. cbn [fst snd]. rewrite !map_map. reflexivity.
Qed.

Lemma energy_separated_after (cfg cfg' : PeriodicConfigs) (s : Ewald) :
  energy_separated cfg' (after_ewald_electron cfg s)
  = (inr (map (fun conf =>
                 map (fun x => e_single s (snd (fst (shape3 (configs cfg')))) + x)
                     (map2 Rplus
                        (ei_sep s (dist cfg) conf)
                        (ee_sep s (dist cfg) (snd (fst (shape3 (configs cfg))))
                                conf)))
              (data3 (configs cfg))),
     after_ewald_electron cfg s).
Proof.
  unfold energy_separated, bind, self, getattr, ret, after_ewald_electron.
  cbn [ewalde_separated set_ewalde_separated e_single].
  rewrite add2_map, map_map. reflexivity.
Qed.

Lemma cubic10_det : det (cell_lattice_vectors cubic10) = 1000.
Proof. cbn. ring. Qed.

Lemma cubic10_inv (recvec : M33) :
  inv (cell_lattice_vectors cubic10) = inr recvec ->
  recvec = ((/ 10, 0, 0), (0, / 10, 0), (0, 0, / 10)).
Proof.
  intros H. apply inv_inr in H. destruct H as [_ ->].
  rewrite cubic10_det. cbn.
  f_equal; [f_equal |]; (f_equal; [f_equal |]); field.
Qed.

Lemma cubic10_smallest_height :
  smallest_height (cell_lattice_vectors cubic10)
    ((/ 10, 0, 0), (0, / 10, 0), (0, 0, / 10)) = 10.
Proof.
  unfold smallest_height. rewrite cubic10_det.
  cbn [cubic10 cell_lattice_vectors transpose mscale vmulr rows map2 map
       combine fst snd vdot hd tl amin fold_left].
  unfold norm, sumsq, vdot.
  replace (/ 10 * 1000 * 10 + 0 * 1000 * 0 + 0 * 1000 * 0) with 1000 by field.
  replace (0 * 1000 * 0 + / 10 * 1000 * 10 + 0 * 1000 * 0) with 1000 by field.
  replace (0 * 1000 * 0 + 0 * 1000 * 0 + / 10 * 1000 * 10) with 1000 by field.
  replace (/ 10 * 1000 * (/ 10 * 1000) + 0 * 1000 * (0 * 1000)
           + 0 * 1000 * (0 * 1000)) with (100 * 100) by field.
  replace (0 * 1000 * (0 * 1000) + / 10 * 1000 * (/ 10 * 1000)
           + 0 * 1000 * (0 * 1000)) with (100 * 100) by field.
  replace (0 * 1000 * (0 * 1000) + 0 * 1000 * (0 * 1000)
           + / 10 * 1000 * (/ 10 * 1000)) with (100 * 100) by field.
  rewrite sqrt_square by lra. rewrite Rabs_right by lra.
  replace (1000 / 100) with 10 by field.
  rewrite (Rmin_left 10 10) by lra. rewrite (Rmin_left 10 10) by lra.
  reflexivity.
Qed.

Lemma exp_minus_one_lower (x : R) : x <= 1 -> / 3 <= exp (- x).
Proof.
  intros Hx. apply Rle_trans with (exp (Ropp 1)).
  - rewrite exp_Ropp. apply Rinv_le_contravar; [apply exp_pos | apply exp_le_3].
  - destruct (Req_dec_T x 1) as [-> | Hne]; [lra |].
    left. apply exp_increasing. lra.
Qed.

(** The weight of the reciprocal vector of the triple (1, 0, 0) in the
    cubic cell passes the filter of line 115. *)
Lemma cubic10_first_weight :
  1e-10 < reciprocal_weight 1000 (5.0 / 10)
            (vmulr (vmulr (vecmat (of_ints (1, 0, 0)%Z)
                             ((/ 10, 0, 0), (0, / 10, 0), (0, 0, / 10))) 2) PI).
Proof.
  unfold reciprocal_weight.
  cbn [of_ints vecmat vscale vadd vmulr].
  unfold sumsq, vdot.
  pose proof PI_RGT_0 as Hpi0. pose proof PI_4 as Hpi4.
  set (gsq := _ + _ + _).
  assert (Hg : gsq = PI * PI / 25) by (unfold gsq; field).
  rewrite Hg.
  replace (5.0 / 10) with (/ 2) by lra.
  replace (- (PI * PI / 25) / (4 * (/ 2) ^ 2)) with (- (PI * PI / 25))
    by field.
  assert (He : / 3 <= exp (- (PI * PI / 25)))
    by (apply exp_minus_one_lower; nra).
  replace (4 * PI * exp (- (PI * PI / 25)) / (1000 * (PI * PI / 25)))
    with (exp (- (PI * PI / 25)) * / (10 * PI)) by (field; lra).
  assert (Hi : / 40 <= / (10 * PI)) by (apply Rinv_le_contravar; lra).
  assert (0 < / 40) by (apply Rinv_0_lt_compat; lra).
  apply Rlt_le_trans with (/ 3 * / 40); [lra |].
  apply Rmult_le_compat; lra.
Qed.

Lemma cubic10_gpoints_nonempty (MID : M33 -> Distance) (nlatvec : Z)
    (s : Ewald) :
  __init__ MID cubic10 1 nlatvec = inr s -> gpoints s <> [].
Proof.
  intros H. destruct (init_reciprocal _ _ _ _ _ H) as [r [Hinv [Ha [_ Hg]]]].
  pose proof (cubic10_inv r Hinv) as ->.
  rewrite cubic10_smallest_height in Ha. rewrite cubic10_det, Ha in Hg.
  assert (Hin : In (vmulr (vmulr (vecmat (of_ints (1, 0, 0)%Z)
                             ((/ 10, 0, 0), (0, / 10, 0), (0, 0, / 10))) 2) PI)
                   (gpoints s)).
  { rewrite Hg. apply filter_In. split.
    - apply in_map_iff. exists (1, 0, 0)%Z. split; [reflexivity |].
      apply filter_In. split.
      + apply in_search_cube. unfold in_cube. lia.
      + apply positive_octant_true. unfold half_space. lra.
    - apply bigweight_true. exact cubic10_first_weight. }
  intros E. rewrite E in Hin. exact Hin.
Qed.

Lemma cubic10_gweight_sum_pos (MID : M33 -> Distance) (nlatvec : Z)
    (s : Ewald) :
  __init__ MID cubic10 1 nlatvec = inr s -> 0 < sum (gweight s).
Proof.
  intros H. apply sum_pos.
  - pose proof (cubic10_gpoints_nonempty _ _ _ H) as Hne.
    destruct (init_lengths _ _ _ _ _ H) as [Hl _].
    intros E. rewrite E in Hl. destruct (gpoints s); [contradiction |].
    discriminate.
  - eapply Forall_impl; [| exact (init_gweight_big _ _ _ _ _ H)].
    intros w Hw. simpl in Hw. lra.
Qed.

Lemma cubic10_constructs (MID : M33 -> Distance) (gmax nlatvec : Z) :
  exists s, __init__ MID cubic10 gmax nlatvec = inr s.
Proof. apply init_regular. rewrite cubic10_det. lra. Qed.

(** ** Constructed objects *)

Lemma same_setup_refl (s : Ewald) : same_setup s s.
Proof. unfold same_setup. repeat split. Qed.

Lemma init_constructed (MID : M33 -> Distance) (cell : Cell) (gmax nlatvec : Z)
    (s : Ewald) :
  __init__ MID cell gmax nlatvec = inr s -> constructed MID cell gmax nlatvec s.
Proof. intros H. exists s. split; [exact H | apply same_setup_refl]. Qed.

Lemma after_ewald_electron_same_setup (cfg : PeriodicConfigs) (s : Ewald) :
  same_setup s (after_ewald_electron cfg s).
Proof. unfold same_setup, after_ewald_electron. cbn. repeat split. Qed.

Lemma constructed_lengths (MID : M33 -> Distance) (cell : Cell)
    (gmax nlatvec : Z) (s : Ewald) :
  constructed MID cell gmax nlatvec s ->
  length (gweight s) = length (gpoints s).
Proof.
  intros [s0 [H0 Hs]]. destruct (init_lengths _ _ _ _ _ H0) as [Hl _].
  unfold same_setup in Hs.
  destruct Hs as (_ & _ & _ & _ & _ & _ & Hg & Hw & _).
  rewrite <- Hg, <- Hw. exact Hl.
Qed.

(** The constants of a constructed object (lines 151-164). *)
Lemma constructed_constants (MID : M33 -> Distance) (cell : Cell)
    (gmax nlatvec : Z) (s : Ewald) :
  constructed MID cell gmax nlatvec s ->
  let C_pair := - PI / (det (cell_lattice_vectors cell) * alpha s ^ 2) in
  let C_self := - alpha s / sqrt PI + C_pair / 2 in
  let Z_sum := sum (cell_atom_charges cell) in
  ijconst s = C_pair /\
  (forall ne, ee_const s ne
              = INR ne * (INR ne - 1) / 2 * C_pair + INR ne * C_self) /\
  (forall ne, ei_const s ne = - INR ne * Z_sum * C_pair) /\
  (forall ne, e_single s ne = (INR ne - 1) * C_pair - Z_sum * C_pair + C_self) /\
  e_single_test s = - Z_sum * C_pair + C_self.
Proof.
  intros [s0 [H0 Hs]]. unfold same_setup in Hs.
  destruct Hs as (_ & _ & _ & _ & _ & Ha & _ & _ & Hij & _ & Hee & Hei & He1
                  & Het & _).
  rewrite <- Ha, <- Hij, <- Hee, <- Hei, <- He1, <- Het.
  unfold __init__, set_up_reciprocal_ewald_sum in H0.
  destruct (inv (cell_lattice_vectors cell)) as [e | recvec];
    [discriminate |].
  cbn [bindE] in H0. injection H0 as <-.
  unfold set_ewald_constants.
  cbn [alpha ijconst ee_const ei_const e_single e_single_test].
  repeat split.
Qed.

Lemma sum_map_shift (c : R) (l : list R) :
  sum (map (fun x => c + x) l) = INR (length l) * c + sum l.
Proof.
  rewrite (sum_map_plus (fun _ => c) (fun x => x)), sum_map_const, map_id.
  reflexivity.
Qed.

(** The sum over the particles of what [energy_separated] returns, against
    the total of [energy]. *)
Lemma energy_separated_accounting (MID : M33 -> Distance) (cell : Cell)
    (gmax nlatvec : Z) (s : Ewald) (cfg : PeriodicConfigs)
    (nconf nelec : nat) :
  constructed MID cell gmax nlatvec s ->
  batch3 (configs cfg) nconf nelec ->
  exists ee ei ii sep,
    energy cfg s = (inr (ee, ei, ii), after_ewald_electron cfg s) /\
    energy_separated cfg (after_ewald_electron cfg s)
    = (inr sep, after_ewald_electron cfg s) /\
    map sum sep
    = map (fun t => t - INR nelec / 2 * sum (gweight s)
                    + INR nelec * (INR nelec - 1) / 2 * ijconst s)
          (map2 Rplus ee ei).
Proof.
  intros Hc Hb. do 4 eexists.
  split; [apply (energy_ok cfg s nconf nelec Hb) |].
  split; [apply energy_separated_after |].
  pose proof (batch3_data _ _ _ Hb) as [_ Hconf]. destruct Hb as [Hs _].
  rewrite Hs. cbn [fst snd].
  rewrite map2_map_same, !map_map. apply map_ext_in. intros conf Hin.
  destruct (Hconf conf Hin) as [Hlen _]. rewrite <- Hlen.
  rewrite sum_map_shift. rewrite map2_length
    by (rewrite length_ei_sep, length_ee_sep; reflexivity).
  rewrite sum_map2_plus
    by (rewrite length_ei_sep, length_ee_sep; reflexivity).
  rewrite length_ei_sep.
  destruct (constructed_constants _ _ _ _ _ Hc) as (Hij & Hee & Hei & He1 & _).
  rewrite Hee, Hei, He1, Hij. lra.
Qed.

Lemma dot_ones {A : Type} (w : list R) (l : list A) :
  length w = length l -> dot w (map (fun _ => 1) l) = sum w.
Proof.
  unfold dot, map2. revert l.
  induction w as [| x w IH]; intros [| a l] H; simpl in *;
    try discriminate; [reflexivity |].
  rewrite IH by lia. lra.
Qed.

(** One particle: the structure factor has modulus 1 at every G. *)
Lemma one_particle_norm2 (s : Ewald) (p : list R) :
  length (gweight s) = length (gpoints s) ->
  weighted_norm2 s (structure_factor s [p]) = sum (gweight s).
Proof.
  intros Hw. unfold weighted_norm2, structure_factor. rewrite map_map.
  rewrite (map_ext _ (fun _ => 1)); [apply dot_ones; exact Hw |].
  intros g. rewrite abs_sq. cbn [map csum fold_right cadd exp1j fst snd].
  pose proof (sin2_cos2 (dot p (tolist g))) as H. unfold Rsqr in H. lra.
Qed.

Lemma one_electron_batch : batch3 (configs one_electron) 1 1.
Proof.
  split; [reflexivity |]. unfold wf3. cbn. split; [reflexivity |].
  repeat constructor.
Qed.

(** ** Frame lemmas *)

Ltac run_method :=
  unfold bind, self, lift, setattr, getattr, ret; cbn [fst snd];
  repeat match goal with
         | |- context [match ?r with inl _ => _ | inr _ => _ end] =>
             destruct r; cbn [fst snd]
         | |- context [match ?r with Some _ => _ | None => _ end] =>
             destruct r; cbn [fst snd]
         end.

Lemma ewald_electron_frame (cfg : PeriodicConfigs) (s : Ewald) :
  same_setup s (snd (ewald_electron cfg s)) /\
  (forall e, fst (ewald_electron cfg s) = inl e ->
             snd (ewald_electron cfg s) = s).
Proof.
  unfold ewald_electron.
  destruct (shape3 (configs cfg)) as [[nconf nelec] ndim].
  run_method; split; try apply same_setup_refl; try reflexivity;
    try (intros e He; discriminate He).
  unfold same_setup. cbn. repeat split.
Qed.

Lemma energy_frame (cfg : PeriodicConfigs) (s : Ewald) :
  same_setup s (snd (energy cfg s)) /\
  (forall e, fst (energy cfg s) = inl e -> snd (energy cfg s) = s).
Proof.
  destruct (ewald_electron_frame cfg s) as [Hsame Herr].
  unfold energy, bind.
  destruct (ewald_electron cfg s) as [[e | r] s'] eqn:E; cbn [fst snd] in *.
  - split; [exact Hsame | intros _ _; exact (Herr e eq_refl)].
  - unfold self, ret. cbn [fst snd].
    split; [exact Hsame | intros e He; discriminate He].
Qed.

Lemma energy_separated_frame (cfg : PeriodicConfigs) (s : Ewald) :
  snd (energy_separated cfg s) = s.
Proof. unfold energy_separated. run_method; reflexivity. Qed.

Lemma energy_with_test_pos_frame (cfg : PeriodicConfigs) (epos : ndarray2)
    (s : Ewald) :
  snd (energy_with_test_pos cfg epos s) = s.
Proof.
  unfold energy_with_test_pos.
  destruct (shape3 (configs cfg)) as [[nconf nelec] ndim].
  run_method; reflexivity.
Qed.

(** ** Batches whose last axis is not 3 *)

Lemma dot_gpoints_mismatch {A : Type} (ndim : nat) (g : list V3)
    (rowmap : (list R -> list R) -> A) :
  ndim <> 3%nat -> dot_gpoints ndim g rowmap = inl ValueError.
Proof.
  intros H. unfold dot_gpoints. apply Nat.eqb_neq in H. rewrite H.
  reflexivity.
Qed.

Lemma ewald_electron_mismatch (cfg : PeriodicConfigs) (s : Ewald)
    (nconf nelec ndim : nat) :
  shape3 (configs cfg) = (nconf, nelec, ndim) -> ndim <> 3%nat ->
  exists e, ewald_electron cfg s = (inl e, s).
Proof.
  intros Hs Hd. unfold ewald_electron. rewrite Hs.
  unfold bind, self, lift. rewrite (dot_gpoints_mismatch ndim _ _ Hd).
  destruct (mapE (real_space_ei s (dist cfg)) (data3 (configs cfg)));
    [eexists; reflexivity |].
  destruct (if Nat.ltb 1 nelec then _ else _); eexists; reflexivity.
Qed.

Lemma energy_mismatch (cfg : PeriodicConfigs) (s : Ewald)
    (nconf nelec ndim : nat) :
  shape3 (configs cfg) = (nconf, nelec, ndim) -> ndim <> 3%nat ->
  exists e, energy cfg s = (inl e, s).
Proof.
  intros Hs Hd. destruct (ewald_electron_mismatch cfg s _ _ _ Hs Hd) as [e He].
  exists e. unfold energy, bind. rewrite He. reflexivity.
Qed.

Lemma energy_with_test_pos_mismatch (cfg : PeriodicConfigs) (epos : ndarray2)
    (s : Ewald) (nconf nelec ndim : nat) :
  shape3 (configs cfg) = (nconf, nelec, ndim) -> ndim <> 3%nat ->
  exists e, energy_with_test_pos cfg epos s = (inl e, s).
Proof.
  intros Hs Hd. unfold energy_with_test_pos. rewrite Hs.
  unfold bind, self, lift. rewrite (dot_gpoints_mismatch ndim _ _ Hd).
  destruct (mapE (dist_i (dist cfg) (map tolist (atom_coords s))) (data2 epos));
    [eexists; reflexivity |].
  destruct (mapE _ (combine (data3 (configs cfg)) (data2 epos)));
    eexists; reflexivity.
Qed.

(** ** The broadcast of line 366 *)

Lemma dist_i_ok (d : Distance) (refs : list (list R)) (p : list R) :
  Forall (fun r => length r = 3%nat) refs -> length p = 3%nat ->
  dist_i d refs p = inr (dist_i3 d (map to_V3 refs) (to_V3 p)).
Proof.
  intros Hr Hp. unfold dist_i, to_V3 at 2. rewrite (as_V3s_len3 refs Hr).
  destruct (as_V3_len3 p Hp) as [v [-> _]]. reflexivity.
Qed.

Lemma wf2_data (epos : ndarray2) (nconf : nat) :
  shape2 epos = (nconf, 3%nat) -> wf2 epos ->
  length (data2 epos) = nconf /\
  forall p, In p (data2 epos) -> length p = 3%nat.
Proof.
  intros Hs Hwf. unfold wf2 in Hwf. rewrite Hs in Hwf.
  destruct Hwf as [Hn Hall]. split; [exact Hn |].
  rewrite Forall_forall in Hall. exact Hall.
Qed.

(** On well-shaped arguments [energy_with_test_pos] raises [ValueError]
    unless there is one configuration or as many configurations as mobile
    particles: the product on line 366 pairs the configuration axis of
    [test_exp] with the particle axis of [e_expGdotR]. *)
Lemma energy_with_test_pos_broadcast_error (cfg : PeriodicConfigs)
    (epos : ndarray2) (s : Ewald) (nconf nelec : nat) :
  batch3 (configs cfg) nconf nelec ->
  shape2 epos = (nconf, 3%nat) -> wf2 epos ->
  nconf <> 1%nat -> nconf <> nelec ->
  energy_with_test_pos cfg epos s = (inl ValueError, s).
Proof.
  intros Hb Hs2 Hwf2 Hn1 Hne.
  pose proof (batch3_data _ _ _ Hb) as [Hlen Hconf]. destruct Hb as [Hs _].
  pose proof (wf2_data _ _ Hs2 Hwf2) as [Hlen2 Hp].
  unfold energy_with_test_pos. rewrite Hs, Hs2. cbn [fst snd].
  unfold bind, self, lift.
  rewrite (mapE_ok _ (fun p => dist_i3 (dist cfg) (atom_coords s) (to_V3 p)))
    by (intros p Hin; apply dist_i_len3; apply Hp; exact Hin).
  rewrite (mapE_ok _ (fun ce => dist_i3 (dist cfg) (map to_V3 (fst ce))
                                        (to_V3 (snd ce)))).
  2:{ intros [conf p] Hin. cbn [fst snd]. apply dist_i_ok.
      - apply Hconf. eapply in_combine_l. exact Hin.
      - apply Hp. eapply in_combine_r. exact Hin. }
  unfold dot_gpoints. cbn [Nat.eqb]. unfold mul_2d_3d, iadd_columns.
  apply Nat.eqb_neq in Hn1, Hne. rewrite Hn1, Hne. cbn [orb].
  destruct (Nat.eqb nelec 1) eqn:E1; [| reflexivity].
  apply Nat.eqb_eq in E1. subst nelec.
  rewrite Hn1. reflexivity.
Qed.

(** ** Stored reciprocal vectors *)

Lemma combine_map_r {A B : Type} (f : A -> B) (l : list A) :
  combine l (map f l) = map (fun a => (a, f a)) l.
Proof. induction l as [| a l IH]; simpl; [| rewrite IH]; reflexivity. Qed.

Lemma reciprocal_vector_nonzero (m recvec : M33) (n : Z * Z * Z) :
  inv m = inr recvec -> half_space n ->
  vmulr (vmulr (vecmat (of_ints n) recvec) 2) PI <> (0, 0, 0).
Proof.
  intros Hinv Hh E.
  pose proof (vecmat_inv_cancel (of_ints n) m recvec Hinv) as Hc.
  assert (Hz : vecmat (of_ints n) recvec = (0, 0, 0)).
  { destruct (vecmat (of_ints n) recvec) as [[a b] c]. cbn in E.
    injection E as Ea Eb Ec. pose proof PI_RGT_0.
    f_equal; [f_equal |]; nra. }
  rewrite Hz, vecmat_zero in Hc.
  destruct n as [[x y] z]. cbn in Hc. injection Hc as Hx Hy Hz'.
  unfold half_space in Hh. rewrite <- Hx, <- Hy, <- Hz' in Hh. lra.
Qed.

Lemma reciprocal_weight_formula (V a : R) (g : V3) :
  reciprocal_weight V a g
  = 4 * PI / (V * sumsq g) * exp (- sumsq g / (4 * a ^ 2)).
Proof. unfold reciprocal_weight, Rdiv. ring. Qed.

(** ** Symmetry of the lattice images *)

Lemma sum_perm (l m : list R) : Permutation l m -> sum l = sum m.
Proof.
  induction 1 as [| x l m _ IH | x y l | l m k _ IH1 _ IH2]; simpl;
    [reflexivity | rewrite IH; reflexivity | lra | congruence].
Qed.

Lemma map_flat_map {A B D : Type} (g : B -> D) (f : A -> list B) (l : list A) :
  map g (flat_map f l) = flat_map (fun x => map g (f x)) l.
Proof.
  induction l as [| a l IH]; simpl; [reflexivity |].
  rewrite map_app, IH. reflexivity.
Qed.

Lemma flat_map_map {A B D : Type} (f : B -> list D) (h : A -> B) (l : list A) :
  flat_map f (map h l) = flat_map (fun x => f (h x)) l.
Proof.
  induction l as [| a l IH]; simpl; [reflexivity |].
  rewrite IH. reflexivity.
Qed.

Lemma Permutation_flat_map_pointwise {A B : Type} (f g : A -> list B)
    (l : list A) :
  (forall a, Permutation (f a) (g a)) ->
  Permutation (flat_map f l) (flat_map g l).
Proof.
  intros H. induction l as [| a l IH]; simpl; [constructor |].
  apply Permutation_app; [apply H | exact IH].
Qed.

Lemma meshgrid3_perm (r r' : list Z) :
  Permutation r r' -> Permutation (meshgrid3 r) (meshgrid3 r').
Proof.
  intros H. unfold meshgrid3.
  etransitivity; [apply Permutation_flat_map; exact H |].
  apply Permutation_flat_map_pointwise. intros x.
  etransitivity; [apply Permutation_flat_map; exact H |].
  apply Permutation_flat_map_pointwise. intros y.
  apply Permutation_map. exact H.
Qed.

Lemma meshgrid3_opp (r : list Z) :
  map opp3 (meshgrid3 r) = meshgrid3 (map Z.opp r).
Proof.
  unfold meshgrid3. rewrite map_flat_map, flat_map_map.
  apply flat_map_ext. intros x.
  rewrite map_flat_map, flat_map_map. apply flat_map_ext. intros y.
  rewrite !map_map. reflexivity.
Qed.

Lemma arange_symmetric (k : Z) :
  Permutation (map Z.opp (arange (- k) (k + 1))) (arange (- k) (k + 1)).
Proof.
  apply Permutation_map_same_l.
  - apply Injective_map_NoDup.
    + intros x y Hxy. lia.
    + unfold arange. apply Injective_map_NoDup; [| apply seq_NoDup].
      intros x y Hxy. lia.
  - intros x Hin. apply in_map_iff in Hin. destruct Hin as [y [<- Hy]].
    apply in_arange in Hy. apply in_arange. lia.
Qed.

Lemma vecmat_opp (n : Z * Z * Z) (m : M33) :
  vopp (vecmat (of_ints n) m) = vecmat (of_ints (opp3 n)) m.
Proof.
  destruct n as [[x y] z].
  destruct m as [[[[a00 a01] a02] [[a10 a11] a12]] [[a20 a21] a22]].
  cbn. rewrite !opp_IZR. f_equal; [f_equal |]; ring.
Qed.

(** The real-space images are symmetric about the origin. *)
Lemma lattice_displacements_symmetric (latvec : M33) (nlatvec : Z) :
  Permutation (map vopp (set_lattice_displacements latvec nlatvec))
              (set_lattice_displacements latvec nlatvec).
Proof.
  unfold set_lattice_displacements. rewrite map_map.
  rewrite (map_ext _ (fun n => vecmat (of_ints (opp3 n)) latvec))
    by (intros n; apply vecmat_opp).
  rewrite <- (map_map opp3 (fun n => vecmat (of_ints n) latvec)).
  apply Permutation_map. rewrite meshgrid3_opp.
  apply meshgrid3_perm, arange_symmetric.
Qed.

Lemma norm_vadd_opp (v n : V3) :
  norm (vadd (vopp v) n) = norm (vadd v (vopp n)).
Proof.
  destruct v as [[v0 v1] v2], n as [[n0 n1] n2].
  unfold norm, sumsq, vdot, vadd, vopp. f_equal. ring.
Qed.

Lemma image_sum_opp (a : R) (L : list V3) (v : V3) :
  Permutation (map vopp L) L ->
  image_sum a L (vopp v) = image_sum a L v.
Proof.
  intros H. unfold image_sum.
  rewrite (map_ext _ (fun n => erfc_over_r a (norm (vadd v (vopp n)))))
    by (intros n; rewrite norm_vadd_opp; reflexivity).
  rewrite <- (map_map vopp (fun m => erfc_over_r a (norm (vadd v m)))).
  apply sum_perm. apply Permutation_map. exact H.
Qed.

Lemma constructed_displacements_symmetric (MID : M33 -> Distance)
    (cell : Cell) (gmax nlatvec : Z) (s : Ewald) :
  constructed MID cell gmax nlatvec s ->
  Permutation (map vopp (lattice_displacements s)) (lattice_displacements s).
Proof.
  intros [s0 [H0 Hs]]. unfold same_setup in Hs.
  destruct Hs as (_ & _ & _ & _ & HL & _). rewrite <- HL.
  unfold __init__, set_up_reciprocal_ewald_sum in H0.
  destruct (inv (cell_lattice_vectors cell)); [discriminate |].
  cbn [bindE] in H0. injection H0 as <-.
  unfold set_ewald_constants. cbn [lattice_displacements].
  apply lattice_displacements_symmetric.
Qed.

(** ** The matrix of pair energies *)

Lemma set_nth_map_seq {A : Type} (g : nat -> A) (st n i : nat) (v : A) :
  set_nth (map g (seq st n)) i v
  = map (fun a => if Nat.eqb a (st + i) then v else g a) (seq st n).
Proof.
  revert st i. induction n as [| n IH]; intros st i; [reflexivity |].
  cbn [seq map]. destruct i as [| i]; cbn [set_nth].
  - rewrite Nat.add_0_r, Nat.eqb_refl. f_equal.
    apply map_ext_in. intros a Ha. apply in_seq in Ha.
    destruct (Nat.eqb_spec a st); [lia | reflexivity].
  - destruct (Nat.eqb_spec st (st + S i)); [lia |]. f_equal.
    rewrite IH. apply map_ext. intros a.
    replace (S st + i)%nat with (st + S i)%nat by lia. reflexivity.
Qed.

Lemma nth_map_seq {A : Type} (g : nat -> A) (n i : nat) (d : A) :
  (i < n)%nat -> nth i (map g (seq 0 n)) d = g i.
Proof.
  intros H. rewrite (nth_indep _ d (g 0%nat))
    by (rewrite length_map, length_seq; exact H).
  rewrite map_nth, seq_nth by exact H. reflexivity.
Qed.

Lemma set2_mat_of (n : nat) (F : nat -> nat -> R) (i j : nat) (v : R) :
  set2 (mat_of n F) i j v = mat_of n (upd F i j v).
Proof.
  unfold set2, mat_of. rewrite set_nth_map_seq.
  apply map_ext_in. intros a Ha. apply in_seq in Ha. cbn [Nat.add].
  unfold upd. destruct (Nat.eqb_spec a i) as [-> | Hne]; cbn [andb].
  - rewrite nth_map_seq by lia. rewrite set_nth_map_seq. reflexivity.
  - reflexivity.
Qed.

Lemma repeat_map_seq {A : Type} (c : A) (st n : nat) :
  repeat c n = map (fun _ => c) (seq st n).
Proof.
  revert st. induction n as [| n IH]; intros st; cbn; [reflexivity |].
  rewrite <- IH. reflexivity.
Qed.

Lemma zeros2_mat_of (n : nat) : zeros2 n n = mat_of n (fun _ _ => 0).
Proof.
  unfold zeros2, mat_of. rewrite (repeat_map_seq (repeat 0 n) 0 n).
  apply map_ext. intros _. apply repeat_map_seq.
Qed.

Lemma fill_ee_matrix_entries (n : nat) (f : nat * nat -> R)
    (inds : list (nat * nat)) :
  fill_ee_matrix n inds (map f inds)
  = mat_of n (fill_entries f inds (fun _ _ => 0)).
Proof.
  unfold fill_ee_matrix, fill_entries. rewrite zeros2_mat_of, combine_map_r.
  generalize (fun _ _ : nat => 0) as F0.
  induction inds as [| [i j] inds IH]; intros F0; cbn [map fold_left fst snd];
    [reflexivity |].
  rewrite !set2_mat_of. apply IH.
Qed.

Lemma pair_eq_dec (p q : nat * nat) : {p = q} + {p <> q}.
Proof. decide equality; apply Nat.eq_dec. Qed.

Lemma fill_entries_other (f : nat * nat -> R) (inds : list (nat * nat))
    (F0 : nat -> nat -> R) (a b : nat) :
  ~ In (a, b) inds -> ~ In (b, a) inds ->
  fill_entries f inds F0 a b = F0 a b.
Proof.
  unfold fill_entries. revert F0.
  induction inds as [| [i j] inds IH]; intros F0 H1 H2; cbn [fold_left fst snd];
    [reflexivity |].
  rewrite IH;
    [| intros H; apply H1; right; exact H | intros H; apply H2; right; exact H].
  unfold upd.
  destruct (Nat.eqb_spec a j), (Nat.eqb_spec b i), (Nat.eqb_spec a i),
    (Nat.eqb_spec b j); cbn [andb]; subst; try reflexivity;
    exfalso; first [apply H1; left; reflexivity | apply H2; left; reflexivity].
Qed.

Lemma fill_entries_pair (f : nat * nat -> R) (inds : list (nat * nat))
    (F0 : nat -> nat -> R) (a b : nat) :
  In (a, b) inds -> ~ In (b, a) inds ->
  fill_entries f inds F0 a b = f (a, b) /\
  fill_entries f inds F0 b a = f (a, b).
Proof.
  revert F0.
  induction inds as [| [i j] inds IH]; intros F0 H1 H2; [contradiction |].
  assert (H2' : ~ In (b, a) inds) by (intros H; apply H2; right; exact H).
  destruct (in_dec pair_eq_dec (a, b) inds) as [Hin | Hnin].
  - exact (IH _ Hin H2').
  - destruct H1 as [Heq | Hin]; [| contradiction].
    injection Heq as -> ->.
    change (fill_entries f ((a, b) :: inds) F0)
      with (fill_entries f inds (upd (upd F0 a b (f (a, b))) b a (f (a, b)))).
    rewrite !fill_entries_other by assumption.
    unfold upd. rewrite !Nat.eqb_refl. cbn [andb].
    split; [| reflexivity].
    destruct (Nat.eqb a b && Nat.eqb b a); reflexivity.
Qed.

Lemma in_pair_indices (n a b : nat) :
  In (a, b) (pair_indices n) <-> (a < b < n)%nat.
Proof.
  unfold pair_indices. rewrite in_flat_map. split.
  - intros [i [Hi Hin]]. apply in_map_iff in Hin.
    destruct Hin as [j [Heq Hj]]. injection Heq as -> ->.
    apply in_seq in Hi, Hj. lia.
  - intros H. exists a. split; [apply in_seq; lia |].
    apply in_map_iff. exists b. split; [reflexivity | apply in_seq; lia].
Qed.

Lemma pair_indices_range (n i j : nat) :
  In (i, j) (pair_indices n) -> (i < n)%nat /\ (j < n)%nat.
Proof. intros H. apply in_pair_indices in H. lia. Qed.

Lemma fill_entries_pair_indices (f : nat * nat -> R) (n a b : nat) :
  (a < n)%nat -> (b < n)%nat ->
  fill_entries f (pair_indices n) (fun _ _ => 0) a b = pair_entry f a b.
Proof.
  intros Ha Hb. unfold pair_entry.
  destruct (Nat.ltb_spec a b) as [Hab | Hab].
  - apply fill_entries_pair; rewrite in_pair_indices; lia.
  - destruct (Nat.ltb_spec b a) as [Hba | Hba].
    + apply fill_entries_pair; rewrite in_pair_indices; lia.
    + apply fill_entries_other; rewrite in_pair_indices; lia.
Qed.

Lemma ee_real_rows (s : Ewald) (d : Distance) (conf : list (list R)) :
  ee_real s d (length conf) conf
  = map (fun a =>
           sum (map (pair_entry (pair_energy s d (map to_V3 conf)) a)
                    (seq 0 (length conf))) / 2)
        (seq 0 (length conf)).
Proof.
  unfold ee_real. destruct (Nat.ltb 1 (length conf)) eqn:E.
  - unfold dist_matrix3. rewrite length_map, map_map.
    change (map (fun x => image_sum (alpha s) (lattice_displacements s)
                            (disp d (nth (snd x) (map to_V3 conf) (0, 0, 0))
                                    (nth (fst x) (map to_V3 conf) (0, 0, 0))))
                (pair_indices (length conf)))
      with (map (pair_energy s d (map to_V3 conf)) (pair_indices (length conf))).
    rewrite fill_ee_matrix_entries. unfold mat_of. rewrite map_map.
    apply map_ext_in. intros a Ha. apply in_seq in Ha.
    f_equal. f_equal. apply map_ext_in. intros b Hb. apply in_seq in Hb.
    apply fill_entries_pair_indices; lia.
  - apply Nat.ltb_ge in E.
    destruct conf as [| p [| q conf]]; cbn in E; [reflexivity | | lia].
    cbn. f_equal. lra.
Qed.

Lemma map_nth_seq {A B : Type} (h : A -> B) (l : list A) (d : A) :
  map (fun a => h (nth a l d)) (seq 0 (length l)) = map h l.
Proof.
  induction l as [| x l IH]; [reflexivity |].
  cbn [length seq map nth]. f_equal.
  rewrite <- seq_shift, map_map. exact IH.
Qed.

Lemma sum_map_half {A : Type} (f : A -> R) (l : list A) :
  sum (map (fun a => f a / 2) l) = sum (map f l) / 2.
Proof. induction l as [| a l IH]; simpl; [lra | rewrite IH; lra]. Qed.

(** Adding one particle adds its lattice sums with the particles that
    were there, once each, to the total of the real-space shares. *)
Lemma sum_ee_real_append (s : Ewald) (d : Distance) (conf : list (list R))
    (t : list R) :
  odd_displacement d ->
  Permutation (map vopp (lattice_displacements s)) (lattice_displacements s) ->
  sum (ee_real s d (S (length conf)) (conf ++ [t]))
  = sum (ee_real s d (length conf) conf)
    + sum (map (image_sum (alpha s) (lattice_displacements s))
               (dist_i3 d (map to_V3 conf) (to_V3 t))).
Proof.
  intros Hodd Hperm.
  set (N := length conf). set (pts := map to_V3 conf).
  assert (HN : length pts = N) by apply length_map.
  replace (S N) with (length (conf ++ [t]))
    by (rewrite length_app; cbn; unfold N; lia).
  rewrite !ee_real_rows. rewrite map_app. fold pts. cbn [map].
  replace (length (conf ++ [t])) with (S N)
    by (rewrite length_app; cbn; unfold N; lia).
  fold N. rewrite !sum_map_half.
  set (f' := pair_energy s d (pts ++ [to_V3 t])).
  set (f := pair_energy s d pts).
  set (g := fun a : nat => f' (a, N)).
  assert (Hrow : forall a, In a (seq 0 N) ->
            sum (map (pair_entry f' a) (seq 0 (S N)))
            = sum (map (pair_entry f a) (seq 0 N)) + g a).
  { intros a Ha. apply in_seq in Ha. rewrite seq_S, map_app, sum_app.
    cbn [map sum fold_right Nat.add]. f_equal.
    - apply sum_map_ext. intros b Hb. apply in_seq in Hb.
      unfold pair_entry, f', f, pair_energy. cbn [fst snd].
      rewrite !app_nth1 by lia. reflexivity.
    - unfold pair_entry, g.
      destruct (Nat.ltb_spec a N); [lra | lia]. }
  assert (Hlast : sum (map (pair_entry f' N) (seq 0 (S N)))
                  = sum (map g (seq 0 N))).
  { rewrite seq_S, map_app, sum_app. cbn [map sum fold_right Nat.add].
    unfold pair_entry at 2. rewrite Nat.ltb_irrefl.
    rewrite (sum_map_ext _ g); [lra |].
    intros b Hb. apply in_seq in Hb. unfold pair_entry, g.
    destruct (Nat.ltb_spec N b); [lia |].
    destruct (Nat.ltb_spec b N); [reflexivity | lia]. }
  rewrite (seq_S N 0) at 1. rewrite map_app, sum_app.
  cbn [map sum fold_right Nat.add].
  rewrite Hlast.
  rewrite (sum_map_ext _ (fun a => sum (map (pair_entry f a) (seq 0 N)) + g a)
             (seq 0 N) Hrow).
  rewrite sum_map_plus.
  assert (Hg : sum (map g (seq 0 N))
               = sum (map (image_sum (alpha s) (lattice_displacements s))
                          (dist_i3 d pts (to_V3 t)))).
  { unfold dist_i3. rewrite map_map.
    rewrite <- (map_nth_seq
                  (fun r => image_sum (alpha s) (lattice_displacements s)
                              (disp d r (to_V3 t))) pts (0, 0, 0)).
    rewrite HN. apply sum_map_ext. intros a Ha. apply in_seq in Ha.
    unfold g, f', pair_energy. cbn [fst snd].
    rewrite (@app_nth1 V3 pts _ _ a) by lia.
    rewrite (@app_nth2 V3 pts _ _ N) by lia.
    rewrite HN, Nat.sub_diag. cbn [nth].
    rewrite (Hodd (to_V3 t) (nth a pts (0, 0, 0))).
    apply image_sum_opp. exact Hperm. }
  rewrite Hg.
  pose proof (ee_real_rows s d conf) as HR. fold N pts f in HR.
  rewrite HR, sum_map_half. lra.
Qed.

(** ** One configuration and one test position *)

Lemma set_last_repeat (c v : R) (n : nat) :
  set_last (repeat c (n + 1)) v = repeat c n ++ [v].
Proof.
  unfold set_last. rewrite repeat_app. cbn [repeat].
  rewrite removelast_last. reflexivity.
Qed.

Lemma iadd_last_app (r : list R) (v x : R) :
  iadd_last (r ++ [v]) x = r ++ [v + x].
Proof. unfold iadd_last. rewrite removelast_last, last_last. reflexivity. Qed.

Lemma iadd_init_app (r : list R) (v : R) (vs : list R) :
  iadd_init (r ++ [v]) vs = map2 Rplus r vs ++ [v].
Proof. unfold iadd_init. rewrite removelast_last, last_last. reflexivity. Qed.

Lemma single_batch_conf (a : ndarray3) (nelec : nat) :
  batch3 a 1 nelec ->
  exists conf, data3 a = [conf] /\ length conf = nelec /\
               Forall (fun p => length p = 3%nat) conf.
Proof.
  intros Hb. destruct (batch3_data _ _ _ Hb) as [Hlen Hconf].
  destruct (data3 a) as [| conf [| c l]]; try discriminate.
  exists conf. split; [reflexivity |]. apply Hconf. left. reflexivity.
Qed.

Lemma single_test_position (epos : ndarray2) :
  shape2 epos = (1%nat, 3%nat) -> wf2 epos ->
  exists t, data2 epos = [t] /\ length t = 3%nat.
Proof.
  intros Hs Hwf. destruct (wf2_data _ _ Hs Hwf) as [Hlen Hp].
  destruct (data2 epos) as [| t [| c l]]; try discriminate.
  exists t. split; [reflexivity |]. apply Hp. left. reflexivity.
Qed.

(** What [energy_with_test_pos] returns for one configuration. *)
Lemma energy_with_test_pos_single (cfg : PeriodicConfigs) (epos : ndarray2)
    (s : Ewald) (nelec : nat) (conf : list (list R)) (t : list R) :
  shape3 (configs cfg) = (1%nat, nelec, 3%nat) ->
  data3 (configs cfg) = [conf] -> length conf = nelec ->
  Forall (fun p => length p = 3%nat) conf ->
  shape2 epos = (1%nat, 3%nat) -> data2 epos = [t] -> length t = 3%nat ->
  energy_with_test_pos cfg epos s = (inr [test_row s (dist cfg) conf t], s).
Proof.
  intros Hs Hd Hlen Hconf Hs2 Hd2 Ht.
  unfold energy_with_test_pos. rewrite Hs, Hs2, Hd, Hd2. cbn [fst snd].
  unfold bind, self, lift.
  cbn [mapE combine fst snd].
  rewrite (dist_i_len3 _ _ t Ht). rewrite (dist_i_ok _ conf t Hconf Ht).
  cbn [bindE]. unfold dot_gpoints. cbn [Nat.eqb].
  unfold mul_2d_3d, iadd_columns. cbn [Nat.eqb orb].
  rewrite orb_true_r. cbn [orb]. rewrite Nat.eqb_refl. cbn [orb].
  unfold ret, scale2. cbn [repeat map nth].
  rewrite !map2_singleton.
  rewrite set_last_repeat, iadd_last_app, iadd_init_app, iadd_init_app,
    iadd_last_app.
  unfold test_row. rewrite Hlen. do 4 f_equal.
  rewrite !map_map.
  assert (HE : map (fun p => map exp1j
                               (map (fun g => dot p (tolist g)) (gpoints s)))
                   conf
               = e_exp s conf) by reflexivity.
  rewrite HE. rewrite <- (length_e_exp s conf) in Hlen. rewrite <- Hlen.
  f_equal. symmetry.
  rewrite <- (map_nth_seq _ (e_exp s conf) []).
  apply map_ext_in. intros k Hk. apply in_seq in Hk.
  destruct (Nat.eqb_spec (length (e_exp s conf)) 1) as [E1 | _];
    [| reflexivity].
  replace k with 0%nat by lia. reflexivity.
Qed.

(** ** One more particle *)

Lemma map2_app {A B D : Type} (f : A -> B -> D) (a a' : list A)
    (b b' : list B) :
  length a = length b ->
  map2 f (a ++ a') (b ++ b') = map2 f a b ++ map2 f a' b'.
Proof.
  unfold map2. revert b.
  induction a as [| x a IH]; intros [| y b] H; simpl in *; try discriminate;
    [reflexivity |].
  rewrite IH by lia. reflexivity.
Qed.

Lemma e_exp_app (s : Ewald) (conf : list (list R)) (t : list R) :
  e_exp s (conf ++ [t])
  = e_exp s conf
    ++ [map exp1j (map (fun g => dot t (tolist g)) (gpoints s))].
Proof. unfold e_exp. rewrite map_app. reflexivity. Qed.

Lemma ei_sep_app (s : Ewald) (d : Distance) (conf : list (list R))
    (t : list R) :
  ei_sep s d (conf ++ [t]) = ei_sep s d conf ++ [ei_one s d t].
Proof.
  unfold ei_sep, ei_real, recip_ei. rewrite e_exp_app, !map_app.
  rewrite map2_app
    by (rewrite !length_map, length_e_exp; reflexivity).
  reflexivity.
Qed.

Lemma csum_app_last (l : list C) (x : C) :
  fst (csum (l ++ [x])) = fst (csum l) + fst x /\
  snd (csum (l ++ [x])) = snd (csum l) + snd x.
Proof.
  induction l as [| a l [IH1 IH2]]; cbn [app csum fold_right cadd fst snd].
  - split; lra.
  - unfold csum in IH1, IH2. rewrite IH1, IH2. split; lra.
Qed.

Lemma dot_map_affine {A : Type} (F1 F0 F2 : A -> R) (w : list R)
    (gs : list A) :
  length w = length gs ->
  (forall g, F1 g = F0 g + 1 + 2 * F2 g) ->
  dot w (map F1 gs) = dot w (map F0 gs) + sum w + 2 * dot w (map F2 gs).
Proof.
  intros Hlen HF. unfold dot, map2. revert gs Hlen.
  induction w as [| x w IH]; intros [| g gs] Hlen; simpl in *;
    try discriminate; [lra |].
  rewrite (IH gs) by lia. rewrite HF. lra.
Qed.

Lemma re_mul_add (t a b : C) : re_mul t (cadd a b) = re_mul t a + re_mul t b.
Proof. destruct t, a, b. unfold re_mul, real, cmul, cadd. simpl. ring. Qed.

Lemma re_mul_zero (t : C) : re_mul t (0, 0) = 0.
Proof. destruct t. unfold re_mul, real, cmul. simpl. ring. Qed.

(** The weighted squared modulus of the structure factor with one more
    particle. *)
Lemma weighted_norm2_append (s : Ewald) (conf : list (list R)) (t : list R) :
  length (gweight s) = length (gpoints s) ->
  weighted_norm2 s (structure_factor s (conf ++ [t]))
  = weighted_norm2 s (structure_factor s conf) + sum (gweight s)
    + 2 * sum (map (fun row =>
                      dot (map real
                             (map2 cmul
                                (map conj
                                   (map exp1j
                                      (map (fun g => dot t (tolist g))
                                           (gpoints s))))
                                row))
                          (gweight s))
                   (e_exp s conf)).
Proof.
  intros Hw.
  rewrite (sum_map_ext _
             (fun row => dot (map2 re_mul
                                (map conj
                                   (map exp1j
                                      (map (fun g => dot t (tolist g))
                                           (gpoints s))))
                                row) (gweight s)))
    by (intros row _; unfold map2; rewrite map_map; reflexivity).
  rewrite (sum_dot_pairing re_mul re_mul_add re_mul_zero
             (length (gpoints s)) _ (e_exp s conf) (gweight s))
    by (rewrite ?length_map; try reflexivity; apply e_exp_rows).
  rewrite sum_e_exp_structure_factor.
  unfold weighted_norm2, structure_factor.
  rewrite !map_map. rewrite map2_map_same. rewrite (dot_comm _ (gweight s)).
  apply dot_map_affine; [exact Hw |].
  intros g. rewrite !abs_sq.
  destruct (csum_app_last
              (map (fun p => exp1j (dot p (tolist g))) conf)
              (exp1j (dot t (tolist g)))) as [H1 H2].
  rewrite map_app. cbn [map]. rewrite H1, H2.
  unfold re_mul, real, cmul, conj, exp1j. cbn [fst snd].
  pose proof (sin2_cos2 (dot t (tolist g))) as Hsc. unfold Rsqr in Hsc.
  nra.
Qed.

Lemma constructed_ion_exp_length (MID : M33 -> Distance) (cell : Cell)
    (gmax nlatvec : Z) (s : Ewald) :
  constructed MID cell gmax nlatvec s ->
  length (ion_exp s) = length (gpoints s).
Proof.
  intros [s0 [H0 Hs]]. destruct (init_lengths _ _ _ _ _ H0) as [_ Hl].
  unfold same_setup in Hs.
  destruct Hs as (_ & _ & _ & _ & _ & _ & Hg & _ & _ & _ & _ & _ & _ & _
                  & Hi & _).
  rewrite <- Hg, <- Hi. exact Hl.
Qed.

Lemma sum_repeat (c : R) (n : nat) : sum (repeat c n) = INR n * c.
Proof.
  induction n as [| n IH]; [simpl; lra |].
  rewrite S_INR. cbn [repeat sum fold_right]. unfold sum in IH. rewrite IH.
  lra.
Qed.

Lemma append_test_single (cfg : PeriodicConfigs) (epos : ndarray2)
    (nelec : nat) (conf : list (list R)) (t : list R) :
  shape3 (configs cfg) = (1%nat, nelec, 3%nat) ->
  data3 (configs cfg) = [conf] -> length conf = nelec ->
  Forall (fun p => length p = 3%nat) conf ->
  data2 epos = [t] -> length t = 3%nat ->
  batch3 (configs (append_test cfg epos)) 1 (S nelec) /\
  data3 (configs (append_test cfg epos)) = [conf ++ [t]] /\
  dist (append_test cfg epos) = dist cfg.
Proof.
  intros Hs Hd Hlen Hconf Hd2 Ht. unfold append_test. rewrite Hs, Hd, Hd2.
  cbn [configs data3 dist shape3]. rewrite map2_singleton.
  split; [| split; reflexivity].
  split; [reflexivity |]. unfold wf3. cbn [shape3 data3 length].
  split; [reflexivity |]. constructor; [| constructor].
  split.
  - rewrite length_app, Hlen. cbn. lia.
  - apply Forall_app. split; [exact Hconf |]. constructor; [exact Ht |].
    constructor.
Qed.

(** For one configuration, the row that [energy_with_test_pos] returns
    adds up to the change of ee + ei that [energy] reports when the test
    position is appended as a particle.  Its first Ne entries add up to
    the change of ee, and its last entry is the change of ei, up to the
    constant [e_single_test - ei_const 1 + sum gweight]. *)
Lemma test_position_increment (MID : M33 -> Distance) (cell : Cell)
    (gmax nlatvec : Z) (s : Ewald) (cfg : PeriodicConfigs) (epos : ndarray2)
    (nelec : nat) :
  constructed MID cell gmax nlatvec s ->
  batch3 (configs cfg) 1 nelec ->
  shape2 epos = (1%nat, 3%nat) -> wf2 epos ->
  odd_displacement (dist cfg) ->
  exists ee ei ii ee' ei' ii' row s1 s2,
    energy cfg s = (inr ([ee], [ei], ii), s1) /\
    energy (append_test cfg epos) s = (inr ([ee'], [ei'], ii'), s2) /\
    energy_with_test_pos cfg epos s = (inr [row], s) /\
    length row = S nelec /\
    sum row = (ee' + ei') - (ee + ei) /\
    sum (removelast row)
    = ee' - ee - (e_single_test s - ei_const s 1 + sum (gweight s)) /\
    last row 0
    = ei' - ei + (e_single_test s - ei_const s 1 + sum (gweight s)).
Proof.
  intros Hc Hb Hs2 Hwf2 Hodd.
  destruct (single_batch_conf _ _ Hb) as [conf [Hd [Hlen Hconf]]].
  destruct (single_test_position _ Hs2 Hwf2) as [t [Hd2 Ht]].
  pose proof Hb as [Hs _].
  destruct (append_test_single cfg epos nelec conf t Hs Hd Hlen Hconf Hd2 Ht)
    as [Hb' [Hd' Hdist']].
  pose proof (constructed_lengths _ _ _ _ _ Hc) as Hw.
  pose proof (constructed_ion_exp_length _ _ _ _ _ Hc) as Hion.
  pose proof (constructed_displacements_symmetric _ _ _ _ _ Hc) as Hperm.
  destruct (constructed_constants _ _ _ _ _ Hc) as (Hij & Hee & Hei & _ & Het).
  do 9 eexists.
  split; [rewrite (energy_ok cfg s 1 nelec Hb), Hd; cbn [map]; reflexivity |].
  split; [rewrite (energy_ok _ s 1 (S nelec) Hb'), Hd', Hdist'; cbn [map];
          reflexivity |].
  split; [exact (energy_with_test_pos_single cfg epos s nelec conf t
                   Hs Hd Hlen Hconf Hs2 Hd2 Ht) |].
  (* the pieces *)
  pose proof (ee_total s (dist cfg) conf Hw) as T0.
  pose proof (ee_total s (dist cfg) (conf ++ [t]) Hw) as T1.
  rewrite length_app in T1. cbn [length] in T1.
  replace (length conf + 1)%nat with (S nelec) in T1 by lia.
  rewrite Hlen in T0.
  pose proof (sum_ee_real_append s (dist cfg) conf t Hodd Hperm) as R1.
  rewrite Hlen in R1.
  pose proof (weighted_norm2_append s conf t Hw) as W1.
  pose proof (ei_sep_app s (dist cfg) conf t) as E1.
  assert (E1' : sum (ei_sep s (dist cfg) (conf ++ [t]))
                = sum (ei_sep s (dist cfg) conf) + ei_one s (dist cfg) t)
    by (rewrite E1, sum_app; cbn; lra).
  set (K := map (image_sum (alpha s) (lattice_displacements s))
                (dist_i3 (dist cfg) (map to_V3 conf) (to_V3 t))) in *.
  set (Rc := map (fun row =>
                    dot (map real
                           (map2 cmul
                              (map conj
                                 (map exp1j
                                    (map (fun g => dot t (tolist g))
                                         (gpoints s))))
                              row)) (gweight s)) (e_exp s conf)) in *.
  assert (HK : length K = nelec)
    by (unfold K, dist_i3; rewrite !length_map; exact Hlen).
  assert (HRc : length Rc = nelec)
    by (unfold Rc; rewrite length_map, length_e_exp; exact Hlen).
  assert (HA : length (map2 Rplus (repeat (0 + ijconst s) nelec) K) = nelec)
    by (rewrite map2_length; rewrite repeat_length; lia).
  assert (Hinit : sum (map2 Rplus (map2 Rplus (repeat (0 + ijconst s) nelec) K)
                            (map (Rmult 2) Rc))
                  = INR nelec * ijconst s + sum K + 2 * sum Rc).
  { rewrite sum_map2_plus by (rewrite HA, length_map; lia).
    rewrite sum_map2_plus by (rewrite repeat_length; lia).
    rewrite sum_repeat.
    rewrite <- (map_id Rc) at 2. rewrite (sum_map_scal 2 (fun x => x)).
    lra. }
  assert (Hlast_dot :
            dot (map (fun x => x + 0.5)
                     (map2 (fun a b => real (cmul (cneg (conj a)) b))
                           (ion_exp s)
                           (map exp1j
                              (map (fun g => dot t (tolist g)) (gpoints s)))))
                (gweight s)
            = dot (map2 (fun a b => real (cmul (cneg (conj a)) b))
                        (ion_exp s)
                        (map exp1j
                           (map (fun g => dot t (tolist g)) (gpoints s))))
                  (gweight s)
              + 0.5 * sum (gweight s)).
  { apply dot_map_plus_const.
    rewrite map2_length by (rewrite !length_map; exact Hion).
    rewrite Hion, Hw. reflexivity. }
  unfold test_row. rewrite Hlen. fold K Rc.
  rewrite removelast_last, last_last, sum_app, length_app.
  rewrite Hinit, Hlast_dot.
  rewrite map2_length by (rewrite HA, length_map; lia).
  rewrite HA.
  unfold ei_one in E1'. rewrite !Hee, !Hei, Het, !Hij.
  rewrite !S_INR. rewrite S_INR in T1. cbn [length sum fold_right INR].
  split; [lia |].
  repeat split; lra.
Qed.

Lemma raw_distance_odd : odd_displacement raw_distance.
Proof.
  intros [[a0 a1] a2] [[b0 b1] b2]. cbn. f_equal; [f_equal |]; ring.
Qed.

(** The increment identity at the cubic cell, for the particle at
    (1, 2, 3) and the test position (2, 2, 2). *)
Lemma test_position_increment_cubic10 :
  exists s ee ei ii ee' ei' ii' row s1 s2,
    __init__ (fun _ => raw_distance) cubic10 1 1 = inr s /\
    energy one_electron s = (inr ([ee], [ei], ii), s1) /\
    energy (append_test one_electron one_test_position) s
    = (inr ([ee'], [ei'], ii'), s2) /\
    energy_with_test_pos one_electron one_test_position s = (inr [row], s) /\
    length row = 2%nat /\
    sum row = (ee' + ei') - (ee + ei).
Proof.
  destruct (cubic10_constructs (fun _ => raw_distance) 1 1) as [s Hs].
  assert (Hwf : wf2 one_test_position)
    by (unfold wf2; cbn; split; [reflexivity | repeat constructor]).
  destruct (test_position_increment _ _ _ _ s one_electron one_test_position 1
              (init_constructed _ _ _ _ _ Hs) one_electron_batch eq_refl Hwf
              raw_distance_odd)
    as (ee & ei & ii & ee' & ei' & ii' & row & s1 & s2 & H1 & H2 & H3 & H4
        & H5 & _).
  exists s, ee, ei, ii, ee', ei', ii', row, s1, s2. repeat split; assumption.
Qed.


(** * The claims *)

(** C1 (as amended).  After [ewald_electron] on a batch of 3-vectors, the
    cached per-particle decomposition [ewalde_separated], summed over the
    particles of a configuration and with Ne/2 times the sum of the
    reciprocal weights added, equals ee + ei as returned by
    [ewald_electron] for that configuration. *)
Theorem separated_sum_plus_half_weights (cfg : PeriodicConfigs) (s : Ewald)
    (nconf nelec : nat) :
  batch3 (configs cfg) nconf nelec ->
  exists ee ei s' sep,
    ewald_electron cfg s = (inr (ee, ei), s') /\
    ewalde_separated s' = Some sep /\
    length sep = nconf /\
    map (fun row => sum row + INR nelec / 2 * sum (gweight s)) sep
    = map2 Rplus ee ei.
Proof.
  intros Hb. do 4 eexists.
  split; [apply (ewald_electron_ok cfg s nconf nelec Hb) |].
  pose proof (batch3_data _ _ _ Hb) as [Hn Hconf]. destruct Hb as [Hs _].
  unfold after_ewald_electron. rewrite Hs.
  cbn [ewalde_separated set_ewalde_separated fst snd].
  split; [reflexivity |]. rewrite add2_map.
  split; [rewrite length_map; exact Hn |].
  rewrite map2_map_same, map_map. apply map_ext_in. intros conf Hin.
  destruct (Hconf conf Hin) as [Hlen _]. rewrite <- Hlen.
  rewrite sum_map2_plus
    by (rewrite length_ei_sep, length_ee_sep; reflexivity).
  lra.
Qed.

Lemma separated_sum_plus_half_weights_witness :
  exists s,
    __init__ (fun _ => raw_distance) cubic10 1 1 = inr s /\
    batch3 (configs one_electron) 1 1 /\
    exists ee ei s' sep,
      ewald_electron one_electron s = (inr (ee, ei), s') /\
      ewalde_separated s' = Some sep /\
      length sep = 1%nat /\
      map (fun row => sum row + INR 1 / 2 * sum (gweight s)) sep
      = map2 Rplus ee ei.
Proof.
  destruct (cubic10_constructs (fun _ => raw_distance) 1 1) as [s Hs].
  exists s. split; [exact Hs |]. split; [exact one_electron_batch |].
  exact (separated_sum_plus_half_weights one_electron s 1 1 one_electron_batch).
Defined.

(** The claim C1 as stated fails: for one mobile particle in the cubic
    cell, the per-particle energies of [energy_separated] do not add up to
    ee + ei of [energy]; they fall short by half the sum of the reciprocal
    weights. *)
Lemma separated_sum_differs_from_total :
  exists s ee ei ii s' sep s'',
    __init__ (fun _ => raw_distance) cubic10 1 1 = inr s /\
    energy one_electron s = (inr (ee, ei, ii), s') /\
    energy_separated one_electron s' = (inr sep, s'') /\
    map sum sep <> map2 Rplus ee ei.
Proof.
  destruct (cubic10_constructs (fun _ => raw_distance) 1 1) as [s Hs].
  destruct (energy_separated_accounting _ _ _ _ s one_electron 1 1
              (init_constructed _ _ _ _ _ Hs) one_electron_batch)
    as (ee & ei & ii & sep & He & Hsep & Hmap).
  exists s, ee, ei, ii, (after_ewald_electron one_electron s), sep,
    (after_ewald_electron one_electron s).
  repeat split; try assumption.
  intros Heq. rewrite Heq in Hmap.
  rewrite (energy_ok one_electron s 1 1 one_electron_batch) in He.
  injection He as Hee Hei _. subst ee ei.
  cbn [one_electron configs data3 map map2 combine fst snd] in Hmap.
  injection Hmap as Hmap.
  pose proof (cubic10_gweight_sum_pos _ _ _ Hs) as Hpos.
  cbn [INR] in Hmap. lra.
Qed.

(** C2.  For every batch of 3-vectors, the per-particle reciprocal terms
    Sum_G weight(G) (Re(conj(S_e(G)) exp(i G.x_i)) - 0.5), summed over the
    particles of a configuration, plus the compensating
    Ne/2 Sum_G weight(G), equal Sum_G weight(G) |S_e(G)|^2; and this is
    the reciprocal part of the ee that [ewald_electron] returns, next to
    the sum of the real-space shares. *)
Theorem reciprocal_total_is_weighted_structure_factor
    (MID : M33 -> Distance) (cell : Cell) (gmax nlatvec : Z) (s : Ewald)
    (cfg : PeriodicConfigs) (nconf nelec : nat) :
  constructed MID cell gmax nlatvec s ->
  batch3 (configs cfg) nconf nelec ->
  Forall (fun conf =>
            sum (recip_ee s (e_exp s conf)) + INR nelec / 2 * sum (gweight s)
            = weighted_norm2 s (structure_factor s conf))
         (data3 (configs cfg)) /\
  exists ei s',
    ewald_electron cfg s
    = (inr (map (fun conf =>
                   sum (ee_real s (dist cfg) nelec conf)
                   + weighted_norm2 s (structure_factor s conf))
                (data3 (configs cfg)), ei), s').
Proof.
  intros Hc Hb. pose proof (constructed_lengths _ _ _ _ _ Hc) as Hw.
  pose proof (batch3_data _ _ _ Hb) as [_ Hconf]. split.
  - apply Forall_forall. intros conf Hin.
    destruct (Hconf conf Hin) as [Hlen _]. rewrite <- Hlen.
    pose proof (sum_recip_ee s (e_exp s conf) Hw (e_exp_rows s conf)) as H.
    rewrite length_e_exp, sum_e_exp_structure_factor in H. exact H.
  - rewrite (ewald_electron_ok cfg s nconf nelec Hb).
    rewrite (map_ext_in _
               (fun conf => sum (ee_real s (dist cfg) nelec conf)
                            + weighted_norm2 s (structure_factor s conf))).
    + do 2 eexists. reflexivity.
    + intros conf Hin. destruct (Hconf conf Hin) as [Hlen _].
      rewrite <- Hlen. apply ee_total. exact Hw.
Qed.

Lemma reciprocal_total_is_weighted_structure_factor_witness :
  exists s,
    __init__ (fun _ => raw_distance) cubic10 1 1 = inr s /\
    batch3 (configs one_electron) 1 1 /\
    Forall (fun conf =>
              sum (recip_ee s (e_exp s conf)) + INR 1 / 2 * sum (gweight s)
              = weighted_norm2 s (structure_factor s conf))
           (data3 (configs one_electron)) /\
    exists ei s',
      ewald_electron one_electron s
      = (inr (map (fun conf =>
                     sum (ee_real s (dist one_electron) 1 conf)
                     + weighted_norm2 s (structure_factor s conf))
                  (data3 (configs one_electron)), ei), s').
Proof.
  destruct (cubic10_constructs (fun _ => raw_distance) 1 1) as [s Hs].
  exists s. split; [exact Hs |]. split; [exact one_electron_batch |].
  exact (reciprocal_total_is_weighted_structure_factor
           _ _ _ _ s one_electron 1 1
           (init_constructed _ _ _ _ _ Hs) one_electron_batch).
Defined.

(** C3 (the code at a failing input).  With two configurations of one
    mobile particle and one test position per configuration,
    [energy_with_test_pos] raises [ValueError] instead of returning the
    (2, 2) array of incremental energies: on line 366 the (2, ng) array
    [test_exp] is multiplied with the (2, 1, ng) array [e_expGdotR] without
    a new axis, and the (2, 2) result cannot be added to the (2, 1) slice
    of [Vtest]. *)
Theorem energy_with_test_pos_two_configurations (s : Ewald) :
  energy_with_test_pos two_configurations two_test_positions s
  = (inl ValueError, s).
Proof.
  apply (energy_with_test_pos_broadcast_error _ _ s 2 1).
  - split; [reflexivity |]. unfold wf3. cbn. split; [reflexivity |].
    repeat constructor.
  - reflexivity.
  - unfold wf2. cbn. split; [reflexivity |]. repeat constructor.
  - discriminate.
  - discriminate.
Qed.

(** C4 (as amended).  For a batch with one mobile particle per
    configuration, the real-space mobile-mobile share is exactly 0, and
    the ee that [ewald_electron] returns is, for every configuration, the
    sum of the reciprocal weights: the structure factor of one particle
    has modulus 1 at every stored G. *)
Theorem single_particle_ee (MID : M33 -> Distance) (cell : Cell)
    (gmax nlatvec : Z) (s : Ewald) (cfg : PeriodicConfigs) (nconf : nat) :
  constructed MID cell gmax nlatvec s ->
  batch3 (configs cfg) nconf 1 ->
  Forall (fun conf => ee_real s (dist cfg) 1 conf = [0]) (data3 (configs cfg)) /\
  exists ei s',
    ewald_electron cfg s
    = (inr (map (fun _ => sum (gweight s)) (data3 (configs cfg)), ei), s').
Proof.
  intros Hc Hb. pose proof (constructed_lengths _ _ _ _ _ Hc) as Hw.
  pose proof (batch3_data _ _ _ Hb) as [_ Hconf]. split.
  - apply Forall_forall. intros conf _. reflexivity.
  - rewrite (ewald_electron_ok cfg s nconf 1 Hb).
    rewrite (map_ext_in _ (fun _ => sum (gweight s))).
    + do 2 eexists. reflexivity.
    + intros conf Hin. destruct (Hconf conf Hin) as [Hlen _].
      destruct conf as [| p [| q conf]]; try discriminate.
      pose proof (ee_total s (dist cfg) [p] Hw) as H.
      rewrite (one_particle_norm2 s p Hw) in H.
      cbn [length] in H.
      replace (sum (ee_real s (dist cfg) 1 [p])) with 0 in H
        by (cbn; lra).
      cbn [INR] in *. lra.
Qed.

Lemma single_particle_ee_witness :
  exists s,
    __init__ (fun _ => raw_distance) cubic10 1 1 = inr s /\
    batch3 (configs one_electron) 1 1 /\
    Forall (fun conf => ee_real s (dist one_electron) 1 conf = [0])
           (data3 (configs one_electron)) /\
    exists ei s',
      ewald_electron one_electron s
      = (inr (map (fun _ => sum (gweight s)) (data3 (configs one_electron)),
              ei), s').
Proof.
  destruct (cubic10_constructs (fun _ => raw_distance) 1 1) as [s Hs].
  exists s. split; [exact Hs |]. split; [exact one_electron_batch |].
  exact (single_particle_ee _ _ _ _ s one_electron 1
           (init_constructed _ _ _ _ _ Hs) one_electron_batch).
Defined.

(** The claim C4 as stated fails: for one mobile particle in the cubic
    cell, the mobile-mobile energy that [ewald_electron] returns is not 0. *)
Lemma single_particle_ee_nonzero :
  exists s ee ei s',
    __init__ (fun _ => raw_distance) cubic10 1 1 = inr s /\
    ewald_electron one_electron s = (inr (ee, ei), s') /\
    nth 0 ee 0 <> 0.
Proof.
  destruct (cubic10_constructs (fun _ => raw_distance) 1 1) as [s Hs].
  pose proof (constructed_lengths _ _ _ _ _ (init_constructed _ _ _ _ _ Hs))
    as Hw.
  exists s. do 3 eexists. split; [exact Hs |].
  split; [apply (ewald_electron_ok one_electron s 1 1 one_electron_batch) |].
  cbn [one_electron configs data3 dist map nth].
  pose proof (ee_total s raw_distance [[1; 2; 3]] Hw) as H.
  rewrite (one_particle_norm2 s _ Hw) in H. cbn [length] in H.
  replace (sum (ee_real s raw_distance 1 [[1; 2; 3]])) with 0 in H
    by (cbn; lra).
  pose proof (cubic10_gweight_sum_pos _ _ _ Hs) as Hpos. lra.
Qed.

(** C5 (as amended).  The constructor makes no degeneracy check of its
    own and never raises a [GeometryError].  Take a cell with at least
    one fixed charge and as many coordinates as charges, and let the
    matrix inversion of line 96 do what it does on the lattice matrix
    (it raises nothing but [LinAlgError]).  If the inversion raises, the
    constructor fails with that exception, and it fails in no other
    way; if the inversion returns a matrix, the constructor returns an
    object, and every object it returns has for alpha 5.0 divided by the
    smallest cell height computed from the returned matrix, with no test
    on the height or on the quotient. *)
Theorem constructor_has_no_degeneracy_check
    (linalg_inv : M33 -> result M33) (MID : M33 -> Distance)
    (cell : Cell) (gmax nlatvec : Z) :
  (forall m e, linalg_inv m = inl e -> e = LinAlgError) ->
  cell_atom_charges cell <> [] ->
  length (cell_atom_coords cell) = length (cell_atom_charges cell) ->
  init_with linalg_inv MID cell gmax nlatvec <> inl (Raise "GeometryError") /\
  (forall e, init_with linalg_inv MID cell gmax nlatvec = inl e <->
             linalg_inv (cell_lattice_vectors cell) = inl e) /\
  (forall recvec,
     linalg_inv (cell_lattice_vectors cell) = inr recvec ->
     exists s,
       init_with linalg_inv MID cell gmax nlatvec = inr s /\
       alpha s = 5.0 / smallest_height (cell_lattice_vectors cell) recvec) /\
  (forall s, init_with linalg_inv MID cell gmax nlatvec = inr s ->
     exists recvec,
       linalg_inv (cell_lattice_vectors cell) = inr recvec /\
       alpha s = 5.0 / smallest_height (cell_lattice_vectors cell) recvec).
Proof.
  intros Hraise _ _. unfold init_with, set_up_reciprocal_ewald_sum_with.
  destruct (linalg_inv (cell_lattice_vectors cell)) as [e0 | r] eqn:E;
    cbn [bindE].
  - rewrite (Hraise _ _ E). split; [discriminate |]. split; [| split].
    + intros e. split; intros H; injection H as <-; reflexivity.
    + intros recvec H. discriminate.
    + intros s H. discriminate.
  - split; [discriminate |]. split; [| split].
    + intros e. split; intros H; discriminate.
    + intros recvec H. injection H as <-. eexists. split; reflexivity.
    + intros s H. injection H as <-. exists r. split; reflexivity.
Qed.

Lemma constructor_has_no_degeneracy_check_witness :
  (forall m e, inv m = inl e -> e = LinAlgError) /\
  cell_atom_charges thin_cell <> [] /\
  length (cell_atom_coords thin_cell) = length (cell_atom_charges thin_cell) /\
  init_with inv (fun _ => raw_distance) thin_cell 1 1
  <> inl (Raise "GeometryError") /\
  (forall e, init_with inv (fun _ => raw_distance) thin_cell 1 1 = inl e <->
             inv (cell_lattice_vectors thin_cell) = inl e) /\
  (forall recvec,
     inv (cell_lattice_vectors thin_cell) = inr recvec ->
     exists s,
       init_with inv (fun _ => raw_distance) thin_cell 1 1 = inr s /\
       alpha s = 5.0 / smallest_height (cell_lattice_vectors thin_cell) recvec) /\
  (forall s, init_with inv (fun _ => raw_distance) thin_cell 1 1 = inr s ->
     exists recvec,
       inv (cell_lattice_vectors thin_cell) = inr recvec /\
       alpha s = 5.0 / smallest_height (cell_lattice_vectors thin_cell) recvec).
Proof.
  assert (Hne : cell_atom_charges thin_cell <> []) by discriminate.
  split; [exact inv_raises_LinAlgError |].
  split; [exact Hne |]. split; [reflexivity |].
  exact (constructor_has_no_degeneracy_check inv (fun _ => raw_distance)
           thin_cell 1 1 inv_raises_LinAlgError Hne eq_refl).
Defined.

(** The claim C5 as stated fails: for the cell of zero height the
    constructor raises [LinAlgError], not a [GeometryError], and the cell
    of height 1e-9 is accepted. *)
Lemma degenerate_lattice_no_GeometryError :
  det (cell_lattice_vectors flat_cell) = 0 /\
  __init__ (fun _ => raw_distance) flat_cell 1 1 = inl (Raise "LinAlgError") /\
  __init__ (fun _ => raw_distance) flat_cell 1 1 <> inl (Raise "GeometryError") /\
  exists s, __init__ (fun _ => raw_distance) thin_cell 1 1 = inr s.
Proof.
  assert (Hd : det (cell_lattice_vectors flat_cell) = 0) by (cbn; ring).
  split; [exact Hd |].
  rewrite (init_singular _ flat_cell 1 1 Hd).
  split; [reflexivity |]. split; [discriminate |].
  apply init_regular. cbn. lra.
Qed.

(** C6 (as amended).  [ewald_electron], [energy] and
    [energy_with_test_pos] on a batch whose last axis is not 3 end in an
    exception, return nothing and leave the object as it was.  The
    exception comes from numpy's shape check in the product with the
    reciprocal vectors (line 284, line 364) at the latest; the methods
    have no check of their own. *)
Theorem mismatched_batch_raises (cfg : PeriodicConfigs) (epos : ndarray2)
    (s : Ewald) (nconf nelec ndim : nat) :
  shape3 (configs cfg) = (nconf, nelec, ndim) -> ndim <> 3%nat ->
  (exists e, ewald_electron cfg s = (inl e, s)) /\
  (exists e, energy cfg s = (inl e, s)) /\
  (exists e, energy_with_test_pos cfg epos s = (inl e, s)).
Proof.
  intros Hs Hd. split; [| split].
  - exact (ewald_electron_mismatch cfg s _ _ _ Hs Hd).
  - exact (energy_mismatch cfg s _ _ _ Hs Hd).
  - exact (energy_with_test_pos_mismatch cfg epos s _ _ _ Hs Hd).
Qed.

Lemma mismatched_batch_raises_witness :
  exists s,
    __init__ (fun _ => raw_distance) cubic10 1 1 = inr s /\
    shape3 (configs planar_batch) = (1%nat, 1%nat, 2%nat) /\
    2%nat <> 3%nat /\
    (exists e, ewald_electron planar_batch s = (inl e, s)) /\
    (exists e, energy planar_batch s = (inl e, s)) /\
    (exists e, energy_with_test_pos planar_batch one_test_position s
               = (inl e, s)).
Proof.
  destruct (cubic10_constructs (fun _ => raw_distance) 1 1) as [s Hs].
  exists s. split; [exact Hs |]. split; [reflexivity |].
  split; [discriminate |].
  apply (mismatched_batch_raises planar_batch one_test_position s 1 1 2).
  - reflexivity.
  - discriminate.
Defined.

(** The claim C6 as stated fails: after an evaluation, [energy_separated]
    accepts a batch whose last axis has length 2 and returns per-particle
    energies. *)
Lemma energy_separated_accepts_mismatched_batch :
  exists s r s' sep,
    __init__ (fun _ => raw_distance) cubic10 1 1 = inr s /\
    energy one_electron s = (inr r, s') /\
    shape3 (configs planar_batch) = (1%nat, 1%nat, 2%nat) /\
    energy_separated planar_batch s' = (inr sep, s').
Proof.
  destruct (cubic10_constructs (fun _ => raw_distance) 1 1) as [s Hs].
  exists s. do 3 eexists. split; [exact Hs |].
  split; [apply (energy_ok one_electron s 1 1 one_electron_batch) |].
  split; [reflexivity |].
  apply energy_separated_after.
Qed.

(** C7.  Every reciprocal vector stored by the constructor is a nonzero
    vector that comes from an integer triple of [-gmax, gmax]^3 passing
    the half-space test x + 1e-6 y + 1e-12 z > 0; its stored weight is
    (4 pi / (V |G|^2)) exp(-|G|^2 / (4 alpha^2)), is strictly positive and
    is greater than 1e-10.  (Over the reals every weight is finite.) *)
Theorem stored_reciprocal_vectors (MID : M33 -> Distance) (cell : Cell)
    (gmax nlatvec : Z) (s : Ewald) :
  __init__ MID cell gmax nlatvec = inr s ->
  length (gpoints s) = length (gweight s) /\
  exists recvec,
    inv (cell_lattice_vectors cell) = inr recvec /\
    Forall (fun gw =>
              (exists n, in_cube gmax n /\ half_space n /\
                         fst gw = vmulr (vmulr (vecmat (of_ints n) recvec) 2) PI) /\
              fst gw <> (0, 0, 0) /\
              snd gw = 4 * PI / (det (cell_lattice_vectors cell) * sumsq (fst gw))
                       * exp (- sumsq (fst gw) / (4 * alpha s ^ 2)) /\
              0 < snd gw /\ 1e-10 < snd gw)
           (combine (gpoints s) (gweight s)).
Proof.
  intros H. destruct (init_lengths _ _ _ _ _ H) as [Hl _].
  split; [symmetry; exact Hl |].
  destruct (init_reciprocal _ _ _ _ _ H) as [r [Hinv [_ [Hw Hg]]]].
  exists r. split; [exact Hinv |].
  rewrite Hw, combine_map_r. apply Forall_forall. intros [g w] Hin.
  apply in_map_iff in Hin. destruct Hin as [g' [Heq Hin]].
  injection Heq as -> <-. cbn [fst snd].
  rewrite Hg in Hin. apply filter_In in Hin. destruct Hin as [Hin Hbig].
  apply bigweight_true in Hbig.
  apply in_map_iff in Hin. destruct Hin as [n [<- Hn]].
  apply filter_In in Hn. destruct Hn as [Hcube Hhalf].
  apply in_search_cube in Hcube. apply positive_octant_true in Hhalf.
  repeat split.
  - exists n. repeat split; assumption.
  - apply (reciprocal_vector_nonzero _ _ _ Hinv Hhalf).
  - apply reciprocal_weight_formula.
  - lra.
  - exact Hbig.
Qed.

Lemma stored_reciprocal_vectors_witness :
  exists s,
    __init__ (fun _ => raw_distance) cubic10 1 1 = inr s /\
    length (gpoints s) = length (gweight s) /\
    exists recvec,
      inv (cell_lattice_vectors cubic10) = inr recvec /\
      Forall (fun gw =>
                (exists n, in_cube 1 n /\ half_space n /\
                           fst gw
                           = vmulr (vmulr (vecmat (of_ints n) recvec) 2) PI) /\
                fst gw <> (0, 0, 0) /\
                snd gw
                = 4 * PI / (det (cell_lattice_vectors cubic10) * sumsq (fst gw))
                  * exp (- sumsq (fst gw) / (4 * alpha s ^ 2)) /\
                0 < snd gw /\ 1e-10 < snd gw)
             (combine (gpoints s) (gweight s)).
Proof.
  destruct (cubic10_constructs (fun _ => raw_distance) 1 1) as [s Hs].
  exists s. split; [exact Hs |].
  exact (stored_reciprocal_vectors _ _ _ _ s Hs).
Defined.

(** C8.  The constants of a constructed object equal their closed forms.
    The cell volume V = det(latvec) is not zero and alpha is
    5 / (smallest cell height), a positive number; with
    C_pair = -pi/(V alpha^2) and C_self = -alpha/sqrt(pi) + C_pair/2,
    ijconst is C_pair, the mobile-mobile constant is
    Ne(Ne-1)/2 C_pair + Ne C_self, the mobile-fixed constant is
    -Ne (sum of fixed charges) C_pair, the per-particle constant is
    (Ne-1) C_pair - (sum of fixed charges) C_pair + C_self, the constant
    of a test particle is -(sum of fixed charges) C_pair + C_self, and the
    constant of the fixed charges is
    ((sum Z)^2 - sum Z^2)/2 C_pair + (sum Z^2) C_self. *)
Theorem ewald_constants_closed_forms (MID : M33 -> Distance) (cell : Cell)
    (gmax nlatvec : Z) (s : Ewald) (ne : nat) :
  constructed MID cell gmax nlatvec s ->
  let V := det (cell_lattice_vectors cell) in
  let C_pair := - PI / (V * alpha s ^ 2) in
  let C_self := - alpha s / sqrt PI + C_pair / 2 in
  let Z_sum := sum (cell_atom_charges cell) in
  let Z2_sum := sum (map (fun z => z ^ 2) (cell_atom_charges cell)) in
  V <> 0 /\
  (exists recvec,
     inv (cell_lattice_vectors cell) = inr recvec /\
     alpha s = 5.0 / smallest_height (cell_lattice_vectors cell) recvec) /\
  0 < alpha s /\
  ijconst s = C_pair /\
  ee_const s ne = INR ne * (INR ne - 1) / 2 * C_pair + INR ne * C_self /\
  ei_const s ne = - INR ne * Z_sum * C_pair /\
  e_single s ne = (INR ne - 1) * C_pair - Z_sum * C_pair + C_self /\
  e_single_test s = - Z_sum * C_pair + C_self /\
  ii_const s = (Z_sum ^ 2 - Z2_sum) / 2 * C_pair + Z2_sum * C_self.
Proof.
  intros Hc.
  destruct (constructed_constants _ _ _ _ _ Hc) as (Hij & Hee & Hei & He1 & Het).
  destruct Hc as [s0 [H0 Hs]].
  destruct (init_reciprocal _ _ _ _ _ H0) as [r [Hinv [Ha _]]].
  destruct (init_ion _ _ _ _ _ H0) as (_ & _ & _ & Hii).
  destruct (constructed_constants _ _ _ _ _ (init_constructed _ _ _ _ _ H0))
    as (Hij0 & _ & _ & _ & Het0).
  unfold same_setup in Hs.
  destruct Hs as (_ & _ & _ & _ & _ & Hal & _ & _ & _ & Hiic & _).
  cbv zeta. rewrite <- Hal.
  split; [exact (proj1 (inv_inr _ _ Hinv)) |].
  split; [exists r; split; [exact Hinv | exact Ha] |].
  split.
  { rewrite Ha. apply Rdiv_lt_0_compat; [lra |].
    apply smallest_height_pos. exact Hinv. }
  rewrite Hal. split; [exact Hij |]. split; [apply Hee |].
  split; [apply Hei |]. split; [apply He1 |]. split; [exact Het |].
  rewrite <- Hiic, Hii, Het0, Hij0, Hal. ring.
Qed.

Lemma ewald_constants_closed_forms_witness :
  exists s,
    __init__ (fun _ => raw_distance) cubic10 1 1 = inr s /\
    let V := det (cell_lattice_vectors cubic10) in
    let C_pair := - PI / (V * alpha s ^ 2) in
    let C_self := - alpha s / sqrt PI + C_pair / 2 in
    let Z_sum := sum (cell_atom_charges cubic10) in
    let Z2_sum := sum (map (fun z => z ^ 2) (cell_atom_charges cubic10)) in
    V <> 0 /\
    (exists recvec,
       inv (cell_lattice_vectors cubic10) = inr recvec /\
       alpha s = 5.0 / smallest_height (cell_lattice_vectors cubic10) recvec) /\
    0 < alpha s /\
    ijconst s = C_pair /\
    ee_const s 2 = INR 2 * (INR 2 - 1) / 2 * C_pair + INR 2 * C_self /\
    ei_const s 2 = - INR 2 * Z_sum * C_pair /\
    e_single s 2 = (INR 2 - 1) * C_pair - Z_sum * C_pair + C_self /\
    e_single_test s = - Z_sum * C_pair + C_self /\
    ii_const s = (Z_sum ^ 2 - Z2_sum) / 2 * C_pair + Z2_sum * C_self.
Proof.
  destruct (cubic10_constructs (fun _ => raw_distance) 1 1) as [s Hs].
  exists s. split; [exact Hs |].
  exact (ewald_constants_closed_forms _ _ _ _ s 2
           (init_constructed _ _ _ _ _ Hs)).
Defined.

(** C9.  [ewald_electron] and [energy] change no attribute other than
    the three [*_separated] attributes, and leave the object untouched
    when they raise; [energy_separated] and [energy_with_test_pos] change
    nothing at all. *)
Theorem evaluations_preserve_setup (cfg : PeriodicConfigs) (epos : ndarray2)
    (s : Ewald) :
  same_setup s (snd (ewald_electron cfg s)) /\
  same_setup s (snd (energy cfg s)) /\
  snd (energy_separated cfg s) = s /\
  snd (energy_with_test_pos cfg epos s) = s.
Proof.
  split; [apply ewald_electron_frame |].
  split; [apply energy_frame |].
  split; [apply energy_separated_frame | apply energy_with_test_pos_frame].
Qed.

(** C10.  [energy_separated] gives the same result for two batches of
    the same shape: it is the cached decomposition with the per-particle
    constant of the electron count added, whatever the positions are. *)
Theorem energy_separated_ignores_positions (cfg1 cfg2 : PeriodicConfigs)
    (s : Ewald) :
  shape3 (configs cfg1) = shape3 (configs cfg2) ->
  energy_separated cfg1 s = energy_separated cfg2 s /\
  forall sep, ewalde_separated s = Some sep ->
    energy_separated cfg1 s
    = (inr (map (map (fun x => e_single s (snd (fst (shape3 (configs cfg1)))) + x))
                sep), s).
Proof.
  intros H. unfold energy_separated. rewrite H. split; [reflexivity |].
  intros sep Hsep. unfold bind, self, getattr, ret. rewrite Hsep.
  reflexivity.
Qed.

Lemma energy_separated_ignores_positions_witness :
  exists s,
    __init__ (fun _ => raw_distance) cubic10 1 1 = inr s /\
    shape3 (configs one_electron) = shape3 (configs other_electron) /\
    energy_separated one_electron (after_ewald_electron one_electron s)
    = energy_separated other_electron (after_ewald_electron one_electron s).
Proof.
  destruct (cubic10_constructs (fun _ => raw_distance) 1 1) as [s Hs].
  exists s. split; [exact Hs |]. split; [reflexivity |].
  exact (proj1 (energy_separated_ignores_positions one_electron other_electron
                  (after_ewald_electron one_electron s) eq_refl)).
Defined.

(** * Further properties of the code *)

(** ** The cache of the per-particle energies *)

(** X1 (energy_separated before any evaluation).  On an object that comes
    straight from the constructor, [energy_separated] raises
    [AttributeError], whatever the batch, and leaves the object as it
    was: the attribute [ewalde_separated] does not exist before
    [ewald_electron] has run (the NOTE in its docstring). *)
Theorem energy_separated_needs_evaluation (MID : M33 -> Distance)
    (cell : Cell) (gmax nlatvec : Z) (s : Ewald) (cfg : PeriodicConfigs) :
  __init__ MID cell gmax nlatvec = inr s ->
  energy_separated cfg s = (inl AttributeError, s).
Proof.
  unfold __init__, set_up_reciprocal_ewald_sum. intros H.
  destruct (inv (cell_lattice_vectors cell)); [discriminate |].
  cbn [bindE] in H. injection H as <-.
  unfold energy_separated, bind, self, getattr, set_ewald_constants.
  cbn [ewalde_separated]. reflexivity.
Qed.

Lemma energy_separated_needs_evaluation_witness :
  exists s,
    __init__ (fun _ => raw_distance) cubic10 1 1 = inr s /\
    energy_separated one_electron s = (inl AttributeError, s).
Proof.
  destruct (cubic10_constructs (fun _ => raw_distance) 1 1) as [s Hs].
  exists s. split; [exact Hs |].
  exact (energy_separated_needs_evaluation _ _ _ _ s one_electron Hs).
Defined.

Lemma two_electrons_batch : batch3 (configs two_electrons) 1 2.
Proof.
  split; [reflexivity |]. unfold wf3. cbn. split; [reflexivity |].
  repeat constructor.
Qed.

Lemma two_electrons_swapped_batch : batch3 (configs two_electrons_swapped) 1 2.
Proof.
  split; [reflexivity |]. unfold wf3. cbn. split; [reflexivity |].
  repeat constructor.
Qed.

(** X2 (shapes, and the cache is the one of the last evaluation).  After
    [energy] on a batch of shape (nconf, nelec, 3), ee and ei have nconf
    entries, and [energy_separated], called with any batch at all, returns
    nconf rows of nelec entries: the decomposition of the batch that was
    evaluated, not of its argument. *)
Theorem energy_separated_shape_of_last_evaluation (cfg cfg' : PeriodicConfigs)
    (s : Ewald) (nconf nelec : nat) :
  batch3 (configs cfg) nconf nelec ->
  exists ee ei ii s' sep,
    energy cfg s = (inr (ee, ei, ii), s') /\
    length ee = nconf /\ length ei = nconf /\
    energy_separated cfg' s' = (inr sep, s') /\
    length sep = nconf /\
    Forall (fun row => length row = nelec) sep.
Proof.
  intros Hb. pose proof (batch3_data _ _ _ Hb) as [Hn Hconf].
  do 5 eexists.
  split; [apply (energy_ok cfg s nconf nelec Hb) |].
  split; [rewrite length_map; exact Hn |].
  split; [rewrite length_map; exact Hn |].
  split; [apply energy_separated_after |].
  split; [rewrite length_map; exact Hn |].
  apply Forall_forall. intros row Hin.
  apply in_map_iff in Hin. destruct Hin as [conf [<- Hin]].
  destruct (Hconf conf Hin) as [Hlen _]. destruct Hb as [Hs _].
  rewrite Hs. cbn [fst snd]. rewrite <- Hlen.
  rewrite length_map, map2_length; rewrite length_ei_sep;
    [reflexivity | rewrite length_ee_sep; reflexivity].
Qed.

Lemma energy_separated_shape_of_last_evaluation_witness :
  exists s,
    __init__ (fun _ => raw_distance) cubic10 1 1 = inr s /\
    batch3 (configs two_electrons) 1 2 /\
    exists ee ei ii s' sep,
      energy two_electrons s = (inr (ee, ei, ii), s') /\
      length ee = 1%nat /\ length ei = 1%nat /\
      energy_separated two_configurations s' = (inr sep, s') /\
      length sep = 1%nat /\
      Forall (fun row => length row = 2%nat) sep.
Proof.
  destruct (cubic10_constructs (fun _ => raw_distance) 1 1) as [s Hs].
  exists s. split; [exact Hs |]. split; [exact two_electrons_batch |].
  exact (energy_separated_shape_of_last_evaluation
           two_electrons two_configurations s 1 2 two_electrons_batch).
Defined.

(** ** The mobile-fixed energy particle by particle *)

Lemma ei_sep_per_particle (s : Ewald) (d : Distance) (conf : list (list R)) :
  ei_sep s d conf = map (ei_one s d) conf.
Proof.
  unfold ei_sep, ei_real, recip_ei, e_exp, ei_one.
  rewrite !map_map. apply map2_map_same.
Qed.

(** X3 (the mobile-fixed share of a particle).  The entry of
    [ei_separated] for a particle depends on the position of that particle
    alone: it is its real-space sum over the fixed charges and lattice
    images plus twice its reciprocal term, and the ei of a configuration
    is the sum of these entries. *)
Theorem ei_separated_particle_by_particle (cfg : PeriodicConfigs) (s : Ewald)
    (nconf nelec : nat) :
  batch3 (configs cfg) nconf nelec ->
  exists ee s',
    ewald_electron cfg s
    = (inr (ee, map (fun conf => sum (map (ei_one s (dist cfg)) conf))
                    (data3 (configs cfg))), s') /\
    ei_separated s'
    = Some (map (map (ei_one s (dist cfg))) (data3 (configs cfg))).
Proof.
  intros Hb. do 2 eexists.
  rewrite (ewald_electron_ok cfg s nconf nelec Hb).
  unfold after_ewald_electron.
  cbn [ei_separated set_ewalde_separated set_ee_separated set_ei_separated].
  rewrite (map_ext (ei_sep s (dist cfg)) (map (ei_one s (dist cfg))))
    by (intros conf; apply ei_sep_per_particle).
  rewrite (map_ext (fun conf => sum (ei_sep s (dist cfg) conf))
                   (fun conf => sum (map (ei_one s (dist cfg)) conf)))
    by (intros conf; rewrite ei_sep_per_particle; reflexivity).
  split; reflexivity.
Qed.

Lemma ei_separated_particle_by_particle_witness :
  exists s,
    __init__ (fun _ => raw_distance) cubic10 1 1 = inr s /\
    batch3 (configs two_electrons) 1 2 /\
    exists ee s',
      ewald_electron two_electrons s
      = (inr (ee, map (fun conf => sum (map (ei_one s (dist two_electrons)) conf))
                      (data3 (configs two_electrons))), s') /\
      ei_separated s'
      = Some (map (map (ei_one s (dist two_electrons)))
                  (data3 (configs two_electrons))).
Proof.
  destruct (cubic10_constructs (fun _ => raw_distance) 1 1) as [s Hs].
  exists s. split; [exact Hs |]. split; [exact two_electrons_batch |].
  exact (ei_separated_particle_by_particle two_electrons s 1 2
           two_electrons_batch).
Defined.

(** X4 (order of the particles).  Reordering the particles inside the
    configurations of a batch does not change the ei that
    [ewald_electron] returns. *)
Theorem ei_invariant_under_reordering (cfg cfg' : PeriodicConfigs) (s : Ewald)
    (nconf nelec : nat) :
  batch3 (configs cfg) nconf nelec ->
  batch3 (configs cfg') nconf nelec ->
  dist cfg' = dist cfg ->
  Forall2 (@Permutation (list R)) (data3 (configs cfg)) (data3 (configs cfg')) ->
  exists ee ee' ei s1 s2,
    ewald_electron cfg s = (inr (ee, ei), s1) /\
    ewald_electron cfg' s = (inr (ee', ei), s2).
Proof.
  intros Hb Hb' Hd Hperm.
  assert (Hmap : map (fun conf => sum (ei_sep s (dist cfg) conf))
                     (data3 (configs cfg'))
                 = map (fun conf => sum (ei_sep s (dist cfg) conf))
                       (data3 (configs cfg))).
  { induction Hperm as [| conf conf' X X' Hp _ IH]; [reflexivity |].
    cbn [map]. rewrite IH. f_equal.
    rewrite !ei_sep_per_particle. apply sum_perm. apply Permutation_map.
    apply Permutation_sym. exact Hp. }
  rewrite (ewald_electron_ok cfg s nconf nelec Hb).
  rewrite (ewald_electron_ok cfg' s nconf nelec Hb'). rewrite Hd, Hmap.
  do 5 eexists. split; reflexivity.
Qed.

Lemma ei_invariant_under_reordering_witness :
  exists s,
    __init__ (fun _ => raw_distance) cubic10 1 1 = inr s /\
    batch3 (configs two_electrons) 1 2 /\
    batch3 (configs two_electrons_swapped) 1 2 /\
    dist two_electrons_swapped = dist two_electrons /\
    Forall2 (@Permutation (list R)) (data3 (configs two_electrons))
            (data3 (configs two_electrons_swapped)) /\
    exists ee ee' ei s1 s2,
      ewald_electron two_electrons s = (inr (ee, ei), s1) /\
      ewald_electron two_electrons_swapped s = (inr (ee', ei), s2).
Proof.
  destruct (cubic10_constructs (fun _ => raw_distance) 1 1) as [s Hs].
  assert (Hp : Forall2 (@Permutation (list R)) (data3 (configs two_electrons))
                       (data3 (configs two_electrons_swapped)))
    by (cbn; constructor; [apply perm_swap | constructor]).
  exists s. split; [exact Hs |]. split; [exact two_electrons_batch |].
  split; [exact two_electrons_swapped_batch |]. split; [reflexivity |].
  split; [exact Hp |].
  exact (ei_invariant_under_reordering two_electrons two_electrons_swapped s
           1 2 two_electrons_batch two_electrons_swapped_batch eq_refl Hp).
Defined.

(** ** Evaluations do not depend on earlier evaluations *)

Lemma same_setup_cache (s t : Ewald) :
  same_setup s t ->
  t = with_cache (ei_separated t) (ee_separated t) (ewalde_separated t) s.
Proof.
  destruct s, t. unfold same_setup, with_cache. cbn.
  intros (? & ? & ? & ? & ? & ? & ? & ? & ? & ? & ? & ? & ? & ? & ? & ?).
  subst. reflexivity.
Qed.

Ltac read_through_cache :=
  unfold real_space_ei, real_space_ee, recip_ee, recip_ei, with_cache;
  cbn [nelec atom_coords atom_charges latvec lattice_displacements alpha
       gpoints gweight ijconst ii_const ee_const ei_const e_single
       e_single_test ion_exp ion_ion].

Lemma ewald_electron_with_cache (cfg : PeriodicConfigs)
    (a b c : option (list (list R))) (s : Ewald) :
  fst (ewald_electron cfg (with_cache a b c s)) = fst (ewald_electron cfg s) /\
  (forall r, fst (ewald_electron cfg s) = inr r ->
             snd (ewald_electron cfg (with_cache a b c s))
             = snd (ewald_electron cfg s)).
Proof.
  unfold ewald_electron.
  destruct (shape3 (configs cfg)) as [[nconf nelec'] ndim].
  unfold bind, self, lift, setattr, ret. read_through_cache.
  repeat match goal with
         | |- context [match ?r with inl _ => _ | inr _ => _ end] =>
             destruct r; cbn [fst snd]
         end;
    split; try reflexivity; intros r Hr; discriminate Hr.
Qed.

Lemma energy_with_test_pos_with_cache (cfg : PeriodicConfigs) (epos : ndarray2)
    (a b c : option (list (list R))) (s : Ewald) :
  fst (energy_with_test_pos cfg epos (with_cache a b c s))
  = fst (energy_with_test_pos cfg epos s).
Proof.
  unfold energy_with_test_pos.
  destruct (shape3 (configs cfg)) as [[nconf nelec'] ndim].
  unfold bind, self, lift, ret. read_through_cache.
  repeat match goal with
         | |- context [match ?r with inl _ => _ | inr _ => _ end] =>
             destruct r; cbn [fst snd]
         end; reflexivity.
Qed.

(** X5 (no dependence on the cache).  Two objects with the same set-up
    attributes give the same result in [ewald_electron], [energy] and
    [energy_with_test_pos], whatever their caches hold; and after a
    successful [ewald_electron] the two objects are equal. *)
Theorem evaluation_ignores_cache (cfg : PeriodicConfigs) (epos : ndarray2)
    (s t : Ewald) :
  same_setup s t ->
  fst (ewald_electron cfg t) = fst (ewald_electron cfg s) /\
  fst (energy cfg t) = fst (energy cfg s) /\
  fst (energy_with_test_pos cfg epos t) = fst (energy_with_test_pos cfg epos s) /\
  (forall r, fst (ewald_electron cfg s) = inr r ->
             snd (ewald_electron cfg t) = snd (ewald_electron cfg s)).
Proof.
  intros H. rewrite (same_setup_cache s t H).
  set (u := with_cache _ _ _ s).
  destruct (ewald_electron_with_cache cfg (ei_separated t) (ee_separated t)
              (ewalde_separated t) s) as [He1 He2].
  fold u in He1, He2.
  split; [exact He1 |]. split; [| split; [| exact He2]].
  - unfold energy, bind.
    destruct (ewald_electron cfg u) as [[e1 | r1] s1];
      destruct (ewald_electron cfg s) as [[e2 | r2] s2];
      cbn [fst snd] in *; try discriminate He1;
      [injection He1 as ->; reflexivity |].
    injection He1 as ->. rewrite (He2 r2 eq_refl).
    unfold self, ret. reflexivity.
  - apply energy_with_test_pos_with_cache.
Qed.

Lemma evaluation_ignores_cache_witness :
  exists s,
    __init__ (fun _ => raw_distance) cubic10 1 1 = inr s /\
    same_setup s (after_ewald_electron two_electrons s) /\
    fst (ewald_electron one_electron (after_ewald_electron two_electrons s))
    = fst (ewald_electron one_electron s) /\
    fst (energy one_electron (after_ewald_electron two_electrons s))
    = fst (energy one_electron s).
Proof.
  destruct (cubic10_constructs (fun _ => raw_distance) 1 1) as [s Hs].
  exists s. split; [exact Hs |].
  split; [apply after_ewald_electron_same_setup |].
  destruct (evaluation_ignores_cache one_electron one_test_position s
              (after_ewald_electron two_electrons s)
              (after_ewald_electron_same_setup two_electrons s))
    as (H1 & H2 & _).
  split; [exact H1 | exact H2].
Defined.


(** ** The constants *)

(** X6 (constants of one more particle).  For a constructed object the
    test-particle constant is the per-particle constant of a one-particle
    system, and going from Ne to Ne + 1 particles changes
    ee_const + ei_const by Ne ijconst + e_single_test; Ne times the
    per-particle constant exceeds ee_const + ei_const by
    Ne (Ne - 1)/2 ijconst. *)
Theorem constants_of_one_more_particle (MID : M33 -> Distance) (cell : Cell)
    (gmax nlatvec : Z) (s : Ewald) (ne : nat) :
  constructed MID cell gmax nlatvec s ->
  e_single_test s = e_single s 1 /\
  ee_const s (S ne) + ei_const s (S ne) - (ee_const s ne + ei_const s ne)
  = INR ne * ijconst s + e_single_test s /\
  INR ne * e_single s ne
  = ee_const s ne + ei_const s ne + INR ne * (INR ne - 1) / 2 * ijconst s.
Proof.
  intros Hc.
  destruct (constructed_constants _ _ _ _ _ Hc) as (Hij & Hee & Hei & He1 & Het).
  rewrite !Hee, !Hei, !He1, Het, Hij. rewrite !S_INR.
  change (INR 0) with 0.
  generalize (- PI / (det (cell_lattice_vectors cell) * alpha s ^ 2)).
  generalize (- alpha s / sqrt PI). intros a c.
  split; [| split]; field.
Qed.

Lemma constants_of_one_more_particle_witness :
  exists s,
    __init__ (fun _ => raw_distance) cubic10 1 1 = inr s /\
    e_single_test s = e_single s 1 /\
    ee_const s 3 + ei_const s 3 - (ee_const s 2 + ei_const s 2)
    = INR 2 * ijconst s + e_single_test s /\
    INR 2 * e_single s 2
    = ee_const s 2 + ei_const s 2 + INR 2 * (INR 2 - 1) / 2 * ijconst s.
Proof.
  destruct (cubic10_constructs (fun _ => raw_distance) 1 1) as [s Hs].
  exists s. split; [exact Hs |].
  exact (constants_of_one_more_particle _ _ _ _ s 2
           (init_constructed _ _ _ _ _ Hs)).
Defined.

(** ** The fixed charges *)

Lemma dot_const {A : Type} (c : R) (w : list R) (l : list A) :
  length w = length l -> dot w (map (fun _ => c) l) = c * sum w.
Proof.
  unfold dot, map2. revert l.
  induction w as [| x w IH]; intros [| a l] H; simpl in *;
    try discriminate; [lra |].
  rewrite IH by lia. lra.
Qed.

(** X7 (one fixed charge).  For a cell with a single fixed charge Z, the
    ion-ion energy stored by the constructor has no real-space part: it
    is Z^2 times the sum of the reciprocal weights, wherever the charge
    sits. *)
Theorem single_ion_energy (MID : M33 -> Distance) (cell : Cell)
    (gmax nlatvec : Z) (s : Ewald) (x : V3) (Z0 : R) :
  cell_atom_coords cell = [x] ->
  cell_atom_charges cell = [Z0] ->
  __init__ MID cell gmax nlatvec = inr s ->
  ion_ion s = Z0 ^ 2 * sum (gweight s).
Proof.
  intros Hx Hz H. destruct (init_ion _ _ _ _ _ H) as (_ & _ & Hion & _).
  destruct (init_lengths _ _ _ _ _ H) as [Hw _].
  rewrite Hx, Hz in Hion. unfold ewald_ion in Hion.
  cbn [length Nat.eqb] in Hion. injection Hion as _ ->.
  rewrite !map_map.
  rewrite (map_ext _ (fun _ => Z0 ^ 2)).
  - rewrite dot_const by exact Hw. lra.
  - intros g. cbv beta. set (z := cdot _ _).
    change (abs z * (abs z * 1)) with (abs z ^ 2). rewrite abs_sq. subst z. unfold cdot.
    cbn [map map2 combine csum fold_right cadd cscale exp1j fst snd].
    pose proof (sin2_cos2 (vdot g x)) as Hsc. unfold Rsqr in Hsc. nra.
Qed.

Lemma single_ion_energy_witness :
  exists s,
    cell_atom_coords one_ion_cell = [(1, 1, 1)] /\
    cell_atom_charges one_ion_cell = [2] /\
    __init__ (fun _ => raw_distance) one_ion_cell 1 1 = inr s /\
    ion_ion s = 2 ^ 2 * sum (gweight s).
Proof.
  destruct (init_regular (fun _ => raw_distance) one_ion_cell 1 1) as [s Hs].
  { cbn. lra. }
  exists s. split; [reflexivity |]. split; [reflexivity |].
  split; [exact Hs |].
  exact (single_ion_energy _ one_ion_cell 1 1 s (1, 1, 1) 2
           eq_refl eq_refl Hs).
Defined.

(** ** The lattice images *)

Lemma init_displacements (MID : M33 -> Distance) (cell : Cell)
    (gmax nlatvec : Z) (s : Ewald) :
  __init__ MID cell gmax nlatvec = inr s ->
  latvec s = cell_lattice_vectors cell /\
  lattice_displacements s
  = set_lattice_displacements (cell_lattice_vectors cell) nlatvec.
Proof.
  unfold __init__, set_up_reciprocal_ewald_sum. intros H.
  destruct (inv (cell_lattice_vectors cell)); [discriminate |].
  cbn [bindE] in H. injection H as <-. split; reflexivity.
Qed.

Lemma length_arange (lo hi : Z) : length (arange lo hi) = Z.to_nat (hi - lo).
Proof. unfold arange. rewrite length_map, length_seq. reflexivity. Qed.

Lemma length_meshgrid3 (r : list Z) :
  length (meshgrid3 r) = (length r * (length r * length r))%nat.
Proof.
  unfold meshgrid3. apply flat_map_constant_length. intros x _.
  apply flat_map_constant_length. intros y _. apply length_map.
Qed.

(** X8 (the lattice images).  For nlatvec >= 0 the constructor stores
    (2 nlatvec + 1)^3 real-space displacements: exactly the integer
    combinations n . latvec with every entry of n in [-nlatvec, nlatvec].
    The set is symmetric about the origin, so the sum over the images of
    erfc(alpha r)/r is the same for a displacement and for its
    opposite. *)
Theorem lattice_images_grid (MID : M33 -> Distance) (cell : Cell)
    (gmax nlatvec : Z) (s : Ewald) :
  (0 <= nlatvec)%Z ->
  __init__ MID cell gmax nlatvec = inr s ->
  length (lattice_displacements s) = Z.to_nat ((2 * nlatvec + 1) ^ 3) /\
  (forall L, In L (lattice_displacements s) <->
             exists n, in_cube nlatvec n /\
                       L = vecmat (of_ints n) (latvec s)) /\
  (forall v, image_sum (alpha s) (lattice_displacements s) (vopp v)
             = image_sum (alpha s) (lattice_displacements s) v).
Proof.
  intros Hn H. destruct (init_displacements _ _ _ _ _ H) as [Hl HL].
  rewrite HL, Hl. split; [| split].
  - unfold set_lattice_displacements.
    rewrite length_map, length_meshgrid3, length_arange.
    replace (nlatvec + 1 - - nlatvec)%Z with (2 * nlatvec + 1)%Z by lia.
    apply Nat2Z.inj. rewrite (Z2Nat.id (_ ^ 3)) by (apply Z.pow_nonneg; lia).
    rewrite !Nat2Z.inj_mul, (Z2Nat.id (2 * nlatvec + 1)) by lia. ring.
  - intros L. unfold set_lattice_displacements. rewrite in_map_iff. split.
    + intros [n [<- Hin]]. exists n. split; [| reflexivity].
      apply in_search_cube. exact Hin.
    + intros [n [Hc ->]]. exists n. split; [reflexivity |].
      apply in_search_cube. exact Hc.
  - intros v. apply image_sum_opp, lattice_displacements_symmetric.
Qed.

Lemma lattice_images_grid_witness :
  exists s,
    (0 <= 1)%Z /\
    __init__ (fun _ => raw_distance) cubic10 1 1 = inr s /\
    length (lattice_displacements s) = 27%nat.
Proof.
  destruct (cubic10_constructs (fun _ => raw_distance) 1 1) as [s Hs].
  exists s. split; [lia |]. split; [exact Hs |].
  exact (proj1 (lattice_images_grid (fun _ => raw_distance) cubic10 1 1 s
                  ltac:(lia) Hs)).
Defined.

(** ** The stored reciprocal vectors *)

Lemma NoDup_flat_map {A B : Type} (f : A -> list B) (l : list A) :
  NoDup l -> (forall x, In x l -> NoDup (f x)) ->
  (forall x y b, In x l -> In y l -> In b (f x) -> In b (f y) -> x = y) ->
  NoDup (flat_map f l).
Proof.
  induction 1 as [| a l Ha Hl IH]; intros Hf Hd; cbn [flat_map];
    [constructor |].
  apply NoDup_app.
  - apply Hf. left. reflexivity.
  - apply IH.
    + intros x Hx. apply Hf. right. exact Hx.
    + intros x y b Hx Hy. apply Hd; right; assumption.
  - intros b Hb Hin. apply in_flat_map in Hin. destruct Hin as [y [Hy Hby]].
    apply Ha. rewrite (Hd a y b); [exact Hy | left; reflexivity
                                  | right; exact Hy | exact Hb | exact Hby].
Qed.

Lemma NoDup_arange (lo hi : Z) : NoDup (arange lo hi).
Proof.
  unfold arange. apply Injective_map_NoDup; [| apply seq_NoDup].
  intros x y E. lia.
Qed.

Lemma NoDup_meshgrid3 (r : list Z) : NoDup r -> NoDup (meshgrid3 r).
Proof.
  intros Hr. unfold meshgrid3. apply NoDup_flat_map; [exact Hr | |].
  - intros x _. apply NoDup_flat_map; [exact Hr | |].
    + intros y _. apply Injective_map_NoDup; [| exact Hr].
      intros z z' E. congruence.
    + intros y y' b _ _ Hb Hb'. apply in_map_iff in Hb, Hb'.
      destruct Hb as [z [<- _]]. destruct Hb' as [z' [E _]]. congruence.
  - intros x x' b _ _ Hb Hb'. apply in_flat_map in Hb, Hb'.
    destruct Hb as [y [_ Hb]], Hb' as [y' [_ Hb']].
    apply in_map_iff in Hb, Hb'.
    destruct Hb as [z [<- _]], Hb' as [z' [E _]]. congruence.
Qed.

Lemma of_ints_inj (n m : Z * Z * Z) : of_ints n = of_ints m -> n = m.
Proof.
  destruct n as [[a b] c], m as [[x y] z]. cbn. intros E.
  injection E as E1 E2 E3. apply eq_IZR in E1, E2, E3. subst. reflexivity.
Qed.

Lemma vmulr_2PI_inj (u v : V3) :
  vmulr (vmulr u 2) PI = vmulr (vmulr v 2) PI -> u = v.
Proof.
  destruct u as [[a b] c], v as [[x y] z]. unfold vmulr. intros E.
  injection E as E1 E2 E3. pose proof PI_RGT_0 as HPI.
  f_equal; [f_equal |]; apply (Rmult_eq_reg_r (2 * PI)); lra.
Qed.

(** Distinct integer triples give distinct reciprocal vectors. *)
Lemma reciprocal_vector_inj (m r : M33) (n n' : Z * Z * Z) :
  inv m = inr r ->
  vmulr (vmulr (vecmat (of_ints n) r) 2) PI
  = vmulr (vmulr (vecmat (of_ints n') r) 2) PI ->
  n = n'.
Proof.
  intros Hinv E. apply vmulr_2PI_inj in E. apply of_ints_inj.
  rewrite <- (vecmat_inv_cancel (of_ints n) m r Hinv).
  rewrite <- (vecmat_inv_cancel (of_ints n') m r Hinv).
  rewrite E. reflexivity.
Qed.

Lemma reciprocal_vector_opp (r : M33) (n : Z * Z * Z) :
  vopp (vmulr (vmulr (vecmat (of_ints n) r) 2) PI)
  = vmulr (vmulr (vecmat (of_ints (opp3 n)) r) 2) PI.
Proof.
  rewrite <- vecmat_opp.
  destruct (vecmat (of_ints n) r) as [[a b] c]. unfold vopp, vmulr.
  f_equal; [f_equal |]; ring.
Qed.

Lemma half_space_opp (n : Z * Z * Z) : half_space n -> ~ half_space (opp3 n).
Proof.
  destruct n as [[x y] z]. unfold half_space, opp3. rewrite !opp_IZR. lra.
Qed.

(** X9 (each reciprocal vector once, never with its opposite).  The
    constructor stores no reciprocal vector twice, and never stores both
    G and -G: the sums over G run over one half of the reciprocal
    lattice. *)
Theorem reciprocal_vectors_stored_once (MID : M33 -> Distance) (cell : Cell)
    (gmax nlatvec : Z) (s : Ewald) :
  __init__ MID cell gmax nlatvec = inr s ->
  NoDup (gpoints s) /\
  forall g, In g (gpoints s) -> ~ In (vopp g) (gpoints s).
Proof.
  intros H. destruct (init_reciprocal _ _ _ _ _ H) as [r [Hinv [_ [_ Hg]]]].
  rewrite Hg. split.
  - apply NoDup_filter. apply Injective_map_NoDup.
    + intros n n' E. apply (reciprocal_vector_inj _ _ _ _ Hinv E).
    + apply NoDup_filter, NoDup_meshgrid3, NoDup_arange.
  - intros g Hin Hopp.
    apply filter_In in Hin. destruct Hin as [Hin _].
    apply filter_In in Hopp. destruct Hopp as [Hopp _].
    apply in_map_iff in Hin. destruct Hin as [n [<- Hn]].
    apply in_map_iff in Hopp. destruct Hopp as [n' [E Hn']].
    rewrite reciprocal_vector_opp in E.
    apply (reciprocal_vector_inj _ _ _ _ Hinv) in E. subst n'.
    apply filter_In in Hn, Hn'. destruct Hn as [_ Hn], Hn' as [_ Hn'].
    apply positive_octant_true in Hn, Hn'.
    apply (half_space_opp _ Hn'). 
    replace (opp3 (opp3 n)) with n; [exact Hn |].
    destruct n as [[x y] z]. unfold opp3. f_equal; [f_equal |]; lia.
Qed.

Lemma reciprocal_vectors_stored_once_witness :
  exists s,
    __init__ (fun _ => raw_distance) cubic10 1 1 = inr s /\
    NoDup (gpoints s) /\
    forall g, In g (gpoints s) -> ~ In (vopp g) (gpoints s).
Proof.
  destruct (cubic10_constructs (fun _ => raw_distance) 1 1) as [s Hs].
  exists s. split; [exact Hs |].
  exact (reciprocal_vectors_stored_once _ _ _ _ s Hs).
Defined.

Lemma half_space_lex (gmax : Z) (n : Z * Z * Z) :
  (gmax < 100000)%Z -> in_cube gmax n -> (half_space n <-> lex_positive n).
Proof.
  destruct n as [[x y] z]. unfold in_cube, half_space, lex_positive.
  intros Hg ([Hx1 Hx2] & [Hy1 Hy2] & [Hz1 Hz2]).
  assert (Ry1 : IZR (- 99999) <= IZR y) by (apply IZR_le; lia).
  assert (Ry2 : IZR y <= IZR 99999) by (apply IZR_le; lia).
  assert (Rz1 : IZR (- 99999) <= IZR z) by (apply IZR_le; lia).
  assert (Rz2 : IZR z <= IZR 99999) by (apply IZR_le; lia).
  split.
  - intros H.
    destruct (Z_lt_le_dec 0 x) as [Px | Nx]; [left; exact Px | right].
    assert (Rx : IZR x <= IZR 0) by (apply IZR_le; exact Nx).
    destruct (Z_lt_le_dec x 0) as [Lx | Gx].
    { assert (Rx' : IZR x <= IZR (- 1)) by (apply IZR_le; lia). lra. }
    assert (Ex : x = 0%Z) by lia. subst x. split; [reflexivity |].
    destruct (Z_lt_le_dec 0 y) as [Py | Ny]; [left; exact Py | right].
    destruct (Z_lt_le_dec y 0) as [Ly | Gy].
    { assert (Ry' : IZR y <= IZR (- 1)) by (apply IZR_le; lia). lra. }
    assert (Ey : y = 0%Z) by lia. subst y. split; [reflexivity |].
    destruct (Z_lt_le_dec 0 z) as [Pz | Nz]; [exact Pz |].
    assert (Rz : IZR z <= IZR 0) by (apply IZR_le; exact Nz). lra.
  - intros [Px | [-> [Py | [-> Pz]]]].
    + assert (Rx : IZR 1 <= IZR x) by (apply IZR_le; lia). lra.
    + assert (Ry : IZR 1 <= IZR y) by (apply IZR_le; lia). lra.
    + assert (Rz : IZR 1 <= IZR z) by (apply IZR_le; lia). lra.
Qed.

(** X10 (the half-space test).  For gmax < 10^5, as the comment of line 109
    assumes, an integer triple of the search cube passes the test
    x + 1e-6 y + 1e-12 z > 0 exactly when its first nonzero entry is
    positive; so of a nonzero triple and its opposite exactly one
    passes. *)
Theorem half_space_test_is_lexicographic (gmax : Z) (n : Z * Z * Z) :
  (gmax < 100000)%Z -> in_cube gmax n ->
  (positive_octant n = true <-> lex_positive n) /\
  (n <> (0, 0, 0)%Z -> positive_octant (opp3 n) = negb (positive_octant n)).
Proof.
  intros Hg Hc.
  assert (Hc' : in_cube gmax (opp3 n)).
  { destruct n as [[x y] z]. unfold in_cube, opp3 in *. lia. }
  pose proof (half_space_lex gmax n Hg Hc) as H1.
  pose proof (half_space_lex gmax (opp3 n) Hg Hc') as H2.
  rewrite <- positive_octant_true in H1, H2.
  split; [exact H1 |]. intros Hn.
  assert (Hlex : lex_positive (opp3 n) <-> ~ lex_positive n).
  { destruct n as [[x y] z]. unfold lex_positive, opp3.
    assert (x <> 0 \/ y <> 0 \/ z <> 0)%Z.
    { destruct (Z.eq_dec x 0) as [-> |]; [| lia].
      destruct (Z.eq_dec y 0) as [-> |]; [| lia].
      destruct (Z.eq_dec z 0) as [-> |]; [| lia].
      exfalso. apply Hn. reflexivity. }
    lia. }
  destruct (positive_octant n) eqn:E1, (positive_octant (opp3 n)) eqn:E2;
    cbn [negb]; try reflexivity; exfalso.
  - apply Hlex; [apply H2 | apply H1]; reflexivity.
  - assert (Hno : ~ lex_positive n).
    { intros Hl. apply H1 in Hl. discriminate. }
    apply Hlex in Hno. apply H2 in Hno. discriminate.
Qed.

Lemma half_space_test_is_lexicographic_witness :
  (1 < 100000)%Z /\ in_cube 1 (0, 1, - 1)%Z /\
  (positive_octant (0, 1, - 1)%Z = true <-> lex_positive (0, 1, - 1)%Z) /\
  ((0, 1, - 1)%Z <> (0, 0, 0)%Z ->
   positive_octant (opp3 (0, 1, - 1)%Z) = negb (positive_octant (0, 1, - 1)%Z)).
Proof.
  assert (Hc : in_cube 1 (0, 1, - 1)%Z) by (unfold in_cube; lia).
  split; [lia |]. split; [exact Hc |].
  exact (half_space_test_is_lexicographic 1 (0, 1, - 1)%Z ltac:(lia) Hc).
Defined.

(** ** Reciprocal vectors and lattice translations *)

Lemma reciprocal_dual (m r : M33) (n k : Z * Z * Z) :
  inv m = inr r ->
  vdot (vmulr (vmulr (vecmat (of_ints n) r) 2) PI)
       (vecmat (of_ints k) (transpose m))
  = 2 * PI * IZR (zdot n k).
Proof.
  intros H. apply inv_inr in H. destruct H as [Hd ->].
  destruct m as [[[[a00 a01] a02] [[a10 a11] a12]] [[a20 a21] a22]].
  destruct n as [[n0 n1] n2], k as [[k0 k1] k2].
  unfold det in Hd. cbn in *. rewrite !plus_IZR, !mult_IZR.
  field. exact Hd.
Qed.

Lemma exp1j_period (x : R) (k : Z) : exp1j (x + 2 * PI * IZR k) = exp1j x.
Proof.
  unfold exp1j. destruct (Z_le_gt_dec 0 k) as [Hk | Hk].
  - replace (x + 2 * PI * IZR k) with (x + 2 * INR (Z.to_nat k) * PI)
      by (rewrite INR_IZR_INZ, Z2Nat.id by lia; ring).
    rewrite cos_period, sin_period. reflexivity.
  - set (y := x + 2 * PI * IZR k).
    replace x with (y + 2 * INR (Z.to_nat (- k)) * PI)
      by (unfold y; rewrite INR_IZR_INZ, Z2Nat.id by lia;
          rewrite opp_IZR; ring).
    rewrite cos_period, sin_period. reflexivity.
Qed.

Lemma vdot_vadd_r (g p L : V3) : vdot g (vadd p L) = vdot g p + vdot g L.
Proof.
  destruct g as [[g0 g1] g2], p as [[p0 p1] p2], L as [[l0 l1] l2].
  unfold vdot, vadd. ring.
Qed.

(** X11 (the stored vectors are dual to the columns of the lattice
    matrix).  Every stored reciprocal vector G comes from an integer
    triple n with G . (latvec^T-combination of an integer triple k)
    = 2 pi (n . k): the product of line 111 with the inverse of latvec,
    not with its transpose, pairs G with the columns of latvec. *)
Theorem reciprocal_vectors_dual_to_columns (MID : M33 -> Distance)
    (cell : Cell) (gmax nlatvec : Z) (s : Ewald) (g : V3) :
  __init__ MID cell gmax nlatvec = inr s ->
  In g (gpoints s) ->
  exists n, in_cube gmax n /\ half_space n /\
    forall k, vdot g (vecmat (of_ints k) (transpose (latvec s)))
              = 2 * PI * IZR (zdot n k).
Proof.
  intros H Hin. destruct (init_reciprocal _ _ _ _ _ H) as [r [Hinv [_ [_ Hg]]]].
  destruct (init_displacements _ _ _ _ _ H) as [Hl _].
  rewrite Hg in Hin. apply filter_In in Hin. destruct Hin as [Hin _].
  apply in_map_iff in Hin. destruct Hin as [n [<- Hn]].
  apply filter_In in Hn. destruct Hn as [Hc Hh].
  exists n. split; [apply in_search_cube; exact Hc |].
  split; [apply positive_octant_true; exact Hh |].
  intros k. rewrite Hl. apply reciprocal_dual. exact Hinv.
Qed.

Lemma reciprocal_vectors_dual_to_columns_witness :
  exists s g,
    __init__ (fun _ => raw_distance) cubic10 1 1 = inr s /\
    In g (gpoints s) /\
    exists n, in_cube 1 n /\ half_space n /\
      forall k, vdot g (vecmat (of_ints k) (transpose (latvec s)))
                = 2 * PI * IZR (zdot n k).
Proof.
  destruct (cubic10_constructs (fun _ => raw_distance) 1 1) as [s Hs].
  pose proof (cubic10_gpoints_nonempty _ _ _ Hs) as Hne.
  destruct (gpoints s) as [| g gs] eqn:E; [contradiction |].
  assert (Hin : In g (gpoints s)) by (rewrite E; left; reflexivity).
  exists s, g. split; [exact Hs |]. split; [exact Hin |].
  exact (reciprocal_vectors_dual_to_columns _ _ _ _ s g Hs Hin).
Defined.

(** X12 (plane waves of a symmetric lattice matrix are periodic).  When
    the lattice matrix equals its transpose, the phase exp(i G.x) of
    every stored reciprocal vector is unchanged when x moves by an
    integer combination of the lattice vectors. *)
Theorem plane_waves_periodic_for_symmetric_lattice (MID : M33 -> Distance)
    (cell : Cell) (gmax nlatvec : Z) (s : Ewald) (g x : V3)
    (k : Z * Z * Z) :
  transpose (cell_lattice_vectors cell) = cell_lattice_vectors cell ->
  __init__ MID cell gmax nlatvec = inr s ->
  In g (gpoints s) ->
  exp1j (vdot g (vadd x (vecmat (of_ints k) (latvec s))))
  = exp1j (vdot g x).
Proof.
  intros Hsym H Hin. destruct (init_reciprocal _ _ _ _ _ H) as [r [Hinv [_ [_ Hg]]]].
  destruct (init_displacements _ _ _ _ _ H) as [Hl _].
  rewrite Hg in Hin. apply filter_In in Hin. destruct Hin as [Hin _].
  apply in_map_iff in Hin. destruct Hin as [n [<- _]].
  rewrite vdot_vadd_r, Hl. rewrite <- Hsym.
  rewrite (reciprocal_dual _ _ _ _ Hinv). apply exp1j_period.
Qed.

Lemma plane_waves_periodic_for_symmetric_lattice_witness :
  exists s g,
    transpose (cell_lattice_vectors cubic10) = cell_lattice_vectors cubic10 /\
    __init__ (fun _ => raw_distance) cubic10 1 1 = inr s /\
    In g (gpoints s) /\
    exp1j (vdot g (vadd (1, 2, 3) (vecmat (of_ints (1, 0, - 2)%Z) (latvec s))))
    = exp1j (vdot g (1, 2, 3)).
Proof.
  destruct (cubic10_constructs (fun _ => raw_distance) 1 1) as [s Hs].
  pose proof (cubic10_gpoints_nonempty _ _ _ Hs) as Hne.
  destruct (gpoints s) as [| g gs] eqn:E; [contradiction |].
  assert (Hin : In g (gpoints s)) by (rewrite E; left; reflexivity).
  exists s, g. split; [reflexivity |]. split; [exact Hs |].
  split; [exact Hin |].
  exact (plane_waves_periodic_for_symmetric_lattice
           _ cubic10 1 1 s g (1, 2, 3) (1, 0, - 2)%Z eq_refl Hs Hin).
Defined.

(** *** A lattice matrix that is not symmetric *)

Lemma sheared_det : det (cell_lattice_vectors sheared_cell) = 2.
Proof. cbn. ring. Qed.

Lemma sheared_inv (recvec : M33) :
  inv (cell_lattice_vectors sheared_cell) = inr recvec ->
  recvec = ((/ 2, - / 2, 0), (0, 1, 0), (0, 0, 1)).
Proof.
  intros H. apply inv_inr in H. destruct H as [_ ->].
  rewrite sheared_det. cbn.
  f_equal; [f_equal |]; (f_equal; [f_equal |]); field.
Qed.

Lemma sheared_smallest_height :
  smallest_height (cell_lattice_vectors sheared_cell)
    ((/ 2, - / 2, 0), (0, 1, 0), (0, 0, 1)) <= 1.
Proof.
  unfold smallest_height. rewrite sheared_det.
  cbn [sheared_cell cell_lattice_vectors transpose mscale vmulr rows map2 map
       combine fst snd vdot hd tl amin fold_left].
  eapply Rle_trans; [apply Rmin_r |].
  unfold norm, sumsq, vdot.
  replace (0 * 2 * 0 + 0 * 2 * 0 + 1 * 2 * 1) with 2 by ring.
  replace (0 * 2 * (0 * 2) + 0 * 2 * (0 * 2) + 1 * 2 * (1 * 2)) with (2 * 2)
    by ring.
  rewrite sqrt_square by lra. rewrite Rabs_right by lra. lra.
Qed.

(** The weight of the reciprocal vector of the triple (1, 0, 0) in the
    sheared cell passes the filter of line 115. *)
Lemma sheared_first_weight (a : R) :
  5 <= a ->
  1e-10 < reciprocal_weight 2 a
            (vmulr (vmulr (vecmat (of_ints (1, 0, 0)%Z)
                             ((/ 2, - / 2, 0), (0, 1, 0), (0, 0, 1))) 2) PI).
Proof.
  intros Ha. unfold reciprocal_weight.
  cbn [of_ints vecmat vscale vadd vmulr].
  unfold sumsq, vdot.
  pose proof PI_RGT_0 as Hpi0. pose proof PI_4 as Hpi4.
  set (gsq := _ + _ + _).
  assert (Hg : gsq = 2 * (PI * PI)) by (unfold gsq; field).
  rewrite Hg.
  assert (Ha2 : 100 <= 4 * a ^ 2) by nra.
  assert (Hi : 0 < / (4 * a ^ 2) <= / 100).
  { split; [apply Rinv_0_lt_compat; lra |].
    apply Rinv_le_contravar; lra. }
  replace (- (2 * (PI * PI)) / (4 * a ^ 2))
    with (- (2 * (PI * PI) * / (4 * a ^ 2))) by (field; lra).
  assert (He : / 3 <= exp (- (2 * (PI * PI) * / (4 * a ^ 2))))
    by (apply exp_minus_one_lower; nra).
  replace (4 * PI * exp (- (2 * (PI * PI) * / (4 * a ^ 2)))
           / (2 * (2 * (PI * PI))))
    with (exp (- (2 * (PI * PI) * / (4 * a ^ 2))) * / PI) by (field; lra).
  assert (Hp : / 4 <= / PI) by (apply Rinv_le_contravar; lra).
  apply Rlt_le_trans with (/ 3 * / 4); [lra |].
  apply Rmult_le_compat; lra.
Qed.

(** X13 (a lattice matrix that is not symmetric).  For the cell with
    lattice vectors (2, 1, 0), (0, 1, 0), (0, 0, 1) the constructor
    stores a vector G and a real-space displacement L, the second
    lattice vector, such that moving a position by L changes the sign of
    the phase exp(i G.x): the stored vectors are not reciprocal to the
    lattice vectors of this cell. *)
Theorem sheared_cell_phase_changes_sign (MID : M33 -> Distance) :
  exists s g L,
    __init__ MID sheared_cell 1 1 = inr s /\
    In g (gpoints s) /\ In L (lattice_displacements s) /\
    L = (0, 1, 0) /\
    forall x, exp1j (vdot g (vadd x L)) = cneg (exp1j (vdot g x)).
Proof.
  destruct (init_regular MID sheared_cell 1 1) as [s H].
  { rewrite sheared_det. lra. }
  destruct (init_reciprocal _ _ _ _ _ H) as [r [Hinv [Ha [_ Hg]]]].
  destruct (init_displacements _ _ _ _ _ H) as [_ HL].
  pose proof (smallest_height_pos _ _ Hinv) as Hpos.
  pose proof (sheared_inv r Hinv) as ->.
  pose proof sheared_smallest_height as Hle.
  assert (H5 : 5 <= alpha s).
  { rewrite Ha. replace 5.0 with 5 by lra.
    apply Rmult_le_reg_r with (smallest_height (cell_lattice_vectors sheared_cell)
                                 ((/ 2, - / 2, 0), (0, 1, 0), (0, 0, 1)));
      [exact Hpos |].
    unfold Rdiv. rewrite Rmult_assoc, Rinv_l by lra. lra. }
  rewrite sheared_det in Hg.
  exists s, (vmulr (vmulr (vecmat (of_ints (1, 0, 0)%Z)
                             ((/ 2, - / 2, 0), (0, 1, 0), (0, 0, 1))) 2) PI),
    (0, 1, 0).
  split; [exact H |]. split; [| split; [| split; [reflexivity |]]].
  - rewrite Hg. apply filter_In. split.
    + apply in_map_iff. exists (1, 0, 0)%Z. split; [reflexivity |].
      apply filter_In. split.
      * apply in_search_cube. unfold in_cube. lia.
      * apply positive_octant_true. unfold half_space. lra.
    + apply bigweight_true. apply sheared_first_weight. exact H5.
  - rewrite HL. unfold set_lattice_displacements. apply in_map_iff.
    exists (0, 1, 0)%Z. split.
    + cbn. f_equal; [f_equal |]; ring.
    + apply in_search_cube. unfold in_cube. lia.
  - intros x. rewrite vdot_vadd_r. set (t := vdot _ x).
    replace (vdot _ (0, 1, 0)) with (- PI) by (cbn; field).
    unfold exp1j, cneg. cbn [fst snd].
    replace (t + - PI) with (t - PI) by ring.
    rewrite cos_minus, sin_minus, cos_PI, sin_PI. f_equal; ring.
Qed.

(** ** The mobile-mobile energy in closed form *)

Lemma sum_flat_map {A B : Type} (f : B -> R) (g : A -> list B) (l : list A) :
  sum (map f (flat_map g l)) = sum (map (fun x => sum (map f (g x))) l).
Proof.
  induction l as [| a l IH]; [reflexivity |].
  cbn [flat_map map]. rewrite map_app, sum_app, IH. reflexivity.
Qed.

Lemma sum_pair_indices_S (f : nat * nat -> R) (N : nat) :
  sum (map f (pair_indices (S N)))
  = sum (map f (pair_indices N)) + sum (map (fun a => f (a, N)) (seq 0 N)).
Proof.
  unfold pair_indices. rewrite !sum_flat_map.
  rewrite (seq_S N 0), map_app, sum_app. cbn [Nat.add map].
  rewrite Nat.sub_diag. cbn [seq map sum fold_right].
  rewrite <- sum_map_plus.
  rewrite (sum_map_ext _ (fun a => sum (map f (map (pair a) (seq (S a) (N - S a))))
                                   + f (a, N)) (seq 0 N)); [lra |].
  intros a Ha. apply in_seq in Ha.
  replace (S N - S a)%nat with (S (N - S a)) by lia.
  rewrite seq_S, !map_app, sum_app. cbn [map sum fold_right].
  replace (S a + (N - S a))%nat with N by lia. lra.
Qed.

(** The matrix of lines 274-278 holds every pair energy twice. *)
Lemma sum_pair_entry (f : nat * nat -> R) (N : nat) :
  sum (map (fun a => sum (map (pair_entry f a) (seq 0 N))) (seq 0 N))
  = 2 * sum (map f (pair_indices N)).
Proof.
  induction N as [| N IH]; [cbn; lra |].
  rewrite sum_pair_indices_S.
  rewrite (seq_S N 0) at 1. rewrite map_app, sum_app.
  cbn [Nat.add map sum fold_right].
  rewrite (sum_map_ext _ (fun a => sum (map (pair_entry f a) (seq 0 N))
                                   + f (a, N)) (seq 0 N)).
  - rewrite sum_map_plus, IH.
    rewrite seq_S, map_app, sum_app. cbn [Nat.add map sum fold_right].
    unfold pair_entry at 2. rewrite Nat.ltb_irrefl.
    rewrite (sum_map_ext (pair_entry f N) (fun a => f (a, N)) (seq 0 N));
      [lra |].
    intros b Hb. apply in_seq in Hb. unfold pair_entry.
    destruct (Nat.ltb_spec N b); [lia |].
    destruct (Nat.ltb_spec b N); [reflexivity | lia].
  - intros a Ha. apply in_seq in Ha.
    rewrite seq_S, map_app, sum_app. cbn [Nat.add map sum fold_right].
    unfold pair_entry at 2. destruct (Nat.ltb_spec a N); [lra | lia].
Qed.

Lemma sum_ee_real_pairs (s : Ewald) (d : Distance) (conf : list (list R)) :
  sum (ee_real s d (length conf) conf)
  = sum (map (pair_energy s d (map to_V3 conf)) (pair_indices (length conf))).
Proof.
  rewrite ee_real_rows, sum_map_half, sum_pair_entry. lra.
Qed.

(** X14 (the mobile-mobile energy in closed form).  For a constructed
    object and a batch of 3-vectors, the ee that [energy] returns for a
    configuration is the sum over the pairs i < j of the lattice sum of
    erfc(alpha r)/r, each pair counted once, plus
    Sum_G weight(G) |S_e(G)|^2, plus the constant ee_const of the
    particle count. *)
Theorem energy_ee_closed_form (MID : M33 -> Distance) (cell : Cell)
    (gmax nlatvec : Z) (s : Ewald) (cfg : PeriodicConfigs)
    (nconf nelec : nat) :
  constructed MID cell gmax nlatvec s ->
  batch3 (configs cfg) nconf nelec ->
  exists ei ii s',
    energy cfg s
    = (inr (map (fun conf =>
                   sum (map (pair_energy s (dist cfg) (map to_V3 conf))
                            (pair_indices nelec))
                   + weighted_norm2 s (structure_factor s conf)
                   + ee_const s nelec)
                (data3 (configs cfg)), ei, ii), s').
Proof.
  intros Hc Hb. pose proof (constructed_lengths _ _ _ _ _ Hc) as Hw.
  pose proof (batch3_data _ _ _ Hb) as [_ Hconf].
  rewrite (energy_ok cfg s nconf nelec Hb).
  rewrite (map_ext_in _
             (fun conf =>
                sum (map (pair_energy s (dist cfg) (map to_V3 conf))
                         (pair_indices nelec))
                + weighted_norm2 s (structure_factor s conf)
                + ee_const s nelec)).
  - do 3 eexists. reflexivity.
  - intros conf Hin. destruct (Hconf conf Hin) as [Hlen _]. rewrite <- Hlen.
    rewrite (ee_total s (dist cfg) conf Hw), sum_ee_real_pairs. reflexivity.
Qed.

Lemma energy_ee_closed_form_witness :
  exists s ei ii s',
    __init__ (fun _ => raw_distance) cubic10 1 1 = inr s /\
    batch3 (configs two_electrons) 1 2 /\
    energy two_electrons s
    = (inr (map (fun conf =>
                   sum (map (pair_energy s (dist two_electrons)
                               (map to_V3 conf))
                            (pair_indices 2))
                   + weighted_norm2 s (structure_factor s conf)
                   + ee_const s 2)
                (data3 (configs two_electrons)), ei, ii), s').
Proof.
  destruct (cubic10_constructs (fun _ => raw_distance) 1 1) as [s Hs].
  destruct (energy_ee_closed_form _ _ _ _ s two_electrons 1 2
              (init_constructed _ _ _ _ _ Hs) two_electrons_batch)
    as (ei & ii & s' & He).
  exists s, ei, ii, s'. split; [exact Hs |].
  split; [exact two_electrons_batch | exact He].
Defined.

(** ** Test positions for several configurations *)

Lemma map_fst_combine_eq {A B : Type} (l : list A) (m : list B) :
  length l = length m -> map fst (combine l m) = l.
Proof.
  revert m. induction l as [| a l IH]; intros [| b m] H; simpl in *;
    try discriminate; [reflexivity |].
  rewrite IH by lia. reflexivity.
Qed.

Lemma map_snd_combine_eq {A B : Type} (l : list A) (m : list B) :
  length l = length m -> map snd (combine l m) = m.
Proof.
  revert m. induction l as [| a l IH]; intros [| b m] H; simpl in *;
    try discriminate; [reflexivity |].
  rewrite IH by lia. reflexivity.
Qed.

Lemma nth_map_lt {A B : Type} (F : A -> B) (l : list A) (k : nat) (d : A)
    (d' : B) :
  (k < length l)%nat -> nth k (map F l) d' = F (nth k l d).
Proof.
  intros H. rewrite (nth_indep _ d' (F d)) by (rewrite length_map; exact H).
  apply map_nth.
Qed.

Lemma energy_with_test_pos_square (cfg : PeriodicConfigs) (epos : ndarray2)
    (s : Ewald) (n : nat) :
  batch3 (configs cfg) n n ->
  shape2 epos = (n, 3%nat) -> wf2 epos ->
  energy_with_test_pos cfg epos s
  = (inr (map2 (test_row_square s (dist cfg) (data2 epos))
               (data3 (configs cfg)) (data2 epos)), s).
Proof.
  intros Hb Hs2 Hwf2.
  pose proof (batch3_data _ _ _ Hb) as [Hlen Hconf]. destruct Hb as [Hs _].
  pose proof (wf2_data _ _ Hs2 Hwf2) as [Hlen2 Hp].
  unfold energy_with_test_pos. rewrite Hs, Hs2. cbn [fst snd].
  unfold bind, self, lift.
  rewrite (mapE_ok _ (fun p => dist_i3 (dist cfg) (atom_coords s) (to_V3 p)))
    by (intros p Hin; apply dist_i_len3; apply Hp; exact Hin).
  rewrite (mapE_ok _ (fun ce => dist_i3 (dist cfg) (map to_V3 (fst ce))
                                        (to_V3 (snd ce)))).
  2:{ intros [conf p] Hin. cbn [fst snd]. apply dist_i_ok.
      - apply Hconf. eapply in_combine_l. exact Hin.
      - apply Hp. eapply in_combine_r. exact Hin. }
  unfold dot_gpoints. cbn [Nat.eqb]. unfold mul_2d_3d, iadd_columns.
  rewrite Nat.eqb_refl. cbn [orb].
  replace (if Nat.eqb n 1 then n else n) with n
    by (destruct (Nat.eqb n 1); reflexivity).
  rewrite Nat.eqb_refl. cbn [orb]. unfold ret, scale2.
  f_equal. f_equal.
  remember (data3 (configs cfg)) as X eqn:HeqX.
  remember (data2 epos) as E eqn:HeqE.
  remember (combine X E) as P eqn:HeqP.
  assert (HX : X = map fst P)
    by (rewrite HeqP; symmetry; apply map_fst_combine_eq; lia).
  assert (HE : E = map snd P)
    by (rewrite HeqP; symmetry; apply map_snd_combine_eq; lia).
  assert (HPn : length P = n)
    by (rewrite HeqP, length_combine; lia).
  assert (HPin : forall p, In p P ->
            length (fst p) = n /\
            Forall (fun q => length q = 3%nat) (fst p) /\
            length (snd p) = 3%nat).
  { intros [conf t] Hin. rewrite HeqP in Hin. cbn [fst snd].
    destruct (Hconf conf (in_combine_l _ _ _ _ Hin)) as [H1 H2].
    repeat split; [exact H1 | exact H2 |].
    apply Hp. exact (in_combine_r _ _ _ _ Hin). }
  rewrite HX, HE. rewrite <- HPn at 2. rewrite repeat_as_map.
  repeat (rewrite !map_map || rewrite !map2_map_same).
  apply map_ext_in. intros [conf t] Hin. cbn [fst snd].
  destruct (HPin _ Hin) as (Hc1 & Hc2 & Hc3). cbn [fst snd] in Hc1, Hc2, Hc3.
  rewrite set_last_repeat, iadd_last_app, iadd_init_app, iadd_init_app,
    iadd_last_app.
  unfold test_row_square. rewrite Hc1. f_equal. f_equal.
  rewrite !map_map. apply map_ext_in. intros k Hk.
  apply in_seq in Hk.
  assert (Hidx : (if Nat.eqb n 1 then 0%nat else k) = k).
  { destruct (Nat.eqb_spec n 1) as [E1 | _]; [lia | reflexivity]. }
  rewrite Hidx.
  rewrite (nth_map_lt _ P k ([], [])) by lia.
  rewrite (nth_map_lt snd P k ([], [])) by lia.
  reflexivity.
Qed.

Lemma nth_map2 {A B D : Type} (f : A -> B -> D) (l : list A) (m : list B)
    (k : nat) (da : A) (db : B) (dd : D) :
  (k < length l)%nat -> (k < length m)%nat ->
  nth k (map2 f l m) dd = f (nth k l da) (nth k m db).
Proof.
  unfold map2. revert m k.
  induction l as [| a l IH]; intros [| b m] [| k] Hl Hm; simpl in *;
    try lia; [reflexivity |].
  apply IH; lia.
Qed.

Lemma length_test_row (s : Ewald) (d : Distance) (conf : list (list R))
    (t : list R) :
  length (test_row s d conf t) = S (length conf).
Proof.
  unfold test_row. rewrite length_app. cbn [length].
  rewrite !map2_length.
  - rewrite repeat_length. lia.
  - rewrite repeat_length. unfold dist_i3. rewrite !length_map. reflexivity.
  - rewrite map2_length.
    + rewrite repeat_length, !length_map, length_e_exp. reflexivity.
    + rewrite repeat_length. unfold dist_i3. rewrite !length_map. reflexivity.
Qed.

Lemma length_test_row_square (s : Ewald) (d : Distance) (E : list (list R))
    (conf : list (list R)) (t : list R) :
  length (test_row_square s d E conf t) = S (length conf).
Proof.
  unfold test_row_square. rewrite length_app. cbn [length].
  rewrite !map2_length.
  - rewrite repeat_length. lia.
  - rewrite repeat_length. unfold dist_i3. rewrite !length_map. reflexivity.
  - rewrite map2_length.
    + rewrite repeat_length, !length_map, length_seq. reflexivity.
    + rewrite repeat_length. unfold dist_i3. rewrite !length_map. reflexivity.
Qed.

(** X15 (when [energy_with_test_pos] returns).  On a batch of 3-vectors
    with one test position per configuration, [energy_with_test_pos]
    returns an array of shape (nconf, nelec + 1) when there is one
    configuration or as many configurations as mobile particles, and
    raises [ValueError] in every other case; the object is unchanged. *)
Theorem energy_with_test_pos_returns_or_raises (cfg : PeriodicConfigs)
    (epos : ndarray2) (s : Ewald) (nconf nelec : nat) :
  batch3 (configs cfg) nconf nelec ->
  shape2 epos = (nconf, 3%nat) -> wf2 epos ->
  (nconf = 1%nat \/ nconf = nelec ->
   exists rows,
     energy_with_test_pos cfg epos s = (inr rows, s) /\
     length rows = nconf /\
     Forall (fun row => length row = S nelec) rows) /\
  (nconf <> 1%nat /\ nconf <> nelec ->
   energy_with_test_pos cfg epos s = (inl ValueError, s)).
Proof.
  intros Hb Hs2 Hwf2. split.
  - intros [-> | ->].
    + destruct (single_batch_conf _ _ Hb) as [conf [Hd [Hlen Hconf]]].
      destruct (single_test_position _ Hs2 Hwf2) as [t [Hd2 Ht]].
      exists [test_row s (dist cfg) conf t].
      split; [| split; [reflexivity |]].
      * apply (energy_with_test_pos_single cfg epos s nelec conf t);
          try assumption. apply Hb.
      * constructor; [| constructor]. rewrite length_test_row, Hlen.
        reflexivity.
    + pose proof (batch3_data _ _ _ Hb) as [Hlen Hconf].
      pose proof (wf2_data _ _ Hs2 Hwf2) as [Hlen2 _].
      eexists. split; [apply (energy_with_test_pos_square cfg epos s nelec);
                       assumption |].
      split; [rewrite map2_length; lia |].
      apply Forall_forall. intros row Hin. unfold map2 in Hin.
      apply in_map_iff in Hin. destruct Hin as [[conf t] [<- Hin]].
      cbn [fst snd]. rewrite length_test_row_square.
      f_equal. apply Hconf. exact (in_combine_l _ _ _ _ Hin).
  - intros [Hn1 Hne].
    apply (energy_with_test_pos_broadcast_error cfg epos s nconf nelec);
      assumption.
Qed.

Lemma two_by_two_batch : batch3 (configs two_by_two) 2 2.
Proof.
  split; [reflexivity |]. unfold wf3. cbn. split; [reflexivity |].
  repeat constructor.
Qed.

Lemma two_test_positions_wf : wf2 two_test_positions.
Proof. unfold wf2. cbn. split; [reflexivity |]. repeat constructor. Qed.

Lemma energy_with_test_pos_returns_or_raises_witness :
  exists s,
    __init__ (fun _ => raw_distance) cubic10 1 1 = inr s /\
    batch3 (configs two_by_two) 2 2 /\
    shape2 two_test_positions = (2%nat, 3%nat) /\ wf2 two_test_positions /\
    exists rows,
      energy_with_test_pos two_by_two two_test_positions s = (inr rows, s) /\
      length rows = 2%nat /\
      Forall (fun row => length row = 3%nat) rows.
Proof.
  destruct (cubic10_constructs (fun _ => raw_distance) 1 1) as [s Hs].
  exists s. split; [exact Hs |]. split; [exact two_by_two_batch |].
  split; [reflexivity |]. split; [exact two_test_positions_wf |].
  exact (proj1 (energy_with_test_pos_returns_or_raises
                  two_by_two two_test_positions s 2 2
                  two_by_two_batch eq_refl two_test_positions_wf)
               (or_intror eq_refl)).
Defined.

(** X16 (with as many configurations as particles the test positions are
    mixed up).  When nconf = nelec = n, [energy_with_test_pos] returns,
    and the entry for configuration c and particle k is
    ijconst + the lattice sum between particle k of configuration c and
    the test position of configuration c, as documented, plus twice
    Sum_G weight(G) Re(conj(exp(i G.t_k)) exp(i G.x_ck)) where t_k is the
    test position of configuration k, not of configuration c. *)
Theorem test_positions_mixed_between_configurations (cfg : PeriodicConfigs)
    (epos : ndarray2) (s : Ewald) (n c k : nat) :
  batch3 (configs cfg) n n ->
  shape2 epos = (n, 3%nat) -> wf2 epos ->
  (c < n)%nat -> (k < n)%nat ->
  let x_ck := nth k (nth c (data3 (configs cfg)) []) [] in
  let t_c := nth c (data2 epos) [] in
  let t_k := nth k (data2 epos) [] in
  let phases :=
    fun u => map exp1j (map (fun g => dot u (tolist g)) (gpoints s)) in
  exists rows,
    energy_with_test_pos cfg epos s = (inr rows, s) /\
    nth k (nth c rows []) 0
    = ijconst s
      + image_sum (alpha s) (lattice_displacements s)
          (disp (dist cfg) (to_V3 x_ck) (to_V3 t_c))
      + 2 * dot (map real (map2 cmul (map conj (phases t_k)) (phases x_ck)))
                (gweight s).
Proof.
  intros Hb Hs2 Hwf2 Hc Hk x_ck t_c t_k phases.
  pose proof (batch3_data _ _ _ Hb) as [Hlen Hconf].
  pose proof (wf2_data _ _ Hs2 Hwf2) as [Hlen2 _].
  eexists. split; [apply (energy_with_test_pos_square cfg epos s n);
                   assumption |].
  rewrite (nth_map2 _ _ _ c [] [] []) by lia.
  assert (Hcl : length (nth c (data3 (configs cfg)) []) = n).
  { apply Hconf. apply nth_In. lia. }
  unfold test_row_square. rewrite Hcl.
  assert (HA : length (map2 Rplus (repeat (0 + ijconst s) n)
                         (map (image_sum (alpha s) (lattice_displacements s))
                              (dist_i3 (dist cfg)
                                 (map to_V3 (nth c (data3 (configs cfg)) []))
                                 (to_V3 (nth c (data2 epos) []))))) = n).
  { rewrite map2_length; rewrite repeat_length; [reflexivity |].
    unfold dist_i3. rewrite !length_map, Hcl. reflexivity. }
  rewrite app_nth1
    by (rewrite map2_length; rewrite HA; [lia |];
        rewrite !length_map, length_seq; reflexivity).
  rewrite (nth_map2 _ _ _ k 0 0 0)
    by (rewrite ?HA, ?length_map, ?length_seq; lia).
  rewrite (nth_map2 _ _ _ k 0 0 0)
    by (rewrite ?repeat_length; unfold dist_i3;
        rewrite ?length_map, ?Hcl; lia).
  rewrite nth_repeat_lt by lia.
  unfold dist_i3.
  rewrite (nth_map_lt _ _ k (0, 0, 0)) by (rewrite !length_map, Hcl; lia).
  rewrite (nth_map_lt _ _ k (0, 0, 0)) by (rewrite length_map, Hcl; lia).
  rewrite (nth_map_lt to_V3 _ k []) by (rewrite Hcl; lia).
  rewrite (nth_map_lt _ _ k 0) by (rewrite length_map, length_seq; lia).
  rewrite (nth_map_lt _ _ k 0%nat) by (rewrite length_seq; lia).
  rewrite seq_nth by lia. cbn [Nat.add].
  unfold e_exp. rewrite (nth_map_lt _ _ k []) by (rewrite Hcl; lia).
  fold x_ck t_c t_k. unfold phases. lra.
Qed.

Lemma test_positions_mixed_between_configurations_witness :
  exists s rows,
    __init__ (fun _ => raw_distance) cubic10 1 1 = inr s /\
    energy_with_test_pos two_by_two two_test_positions s = (inr rows, s) /\
    nth 1 (nth 0 rows []) 0
    = ijconst s
      + image_sum (alpha s) (lattice_displacements s)
          (disp raw_distance (4, 5, 6) (2, 2, 2))
      + 2 * dot (map real
                   (map2 cmul
                      (map conj
                         (map exp1j (map (fun g => dot [3; 3; 3] (tolist g))
                                         (gpoints s))))
                      (map exp1j (map (fun g => dot [4; 5; 6] (tolist g))
                                      (gpoints s)))))
                (gweight s).
Proof.
  destruct (cubic10_constructs (fun _ => raw_distance) 1 1) as [s Hs].
  destruct (test_positions_mixed_between_configurations
              two_by_two two_test_positions s 2 0 1
              two_by_two_batch eq_refl two_test_positions_wf
              ltac:(lia) ltac:(lia))
    as [rows [Hr He]].
  exists s, rows. split; [exact Hs |]. split; [exact Hr |]. exact He.
Defined.

(** ** One test position and one configuration *)

(** X17 (the row of one configuration is the energy increment).  For a
    constructed object, one configuration of 3-vectors, one test position
    and an odd displacement primitive, the row that
    [energy_with_test_pos] returns has nelec + 1 entries and adds up to
    the change of ee + ei that [energy] reports when the test position
    is appended as one more particle. *)
Theorem test_row_is_energy_increment (MID : M33 -> Distance) (cell : Cell)
    (gmax nlatvec : Z) (s : Ewald) (cfg : PeriodicConfigs) (epos : ndarray2)
    (nelec : nat) :
  constructed MID cell gmax nlatvec s ->
  batch3 (configs cfg) 1 nelec ->
  shape2 epos = (1%nat, 3%nat) -> wf2 epos ->
  odd_displacement (dist cfg) ->
  exists ee ei ii ee' ei' ii' row s1 s2,
    energy cfg s = (inr ([ee], [ei], ii), s1) /\
    energy (append_test cfg epos) s = (inr ([ee'], [ei'], ii'), s2) /\
    energy_with_test_pos cfg epos s = (inr [row], s) /\
    length row = S nelec /\
    sum row = (ee' + ei') - (ee + ei) /\
    ii' = ii.
Proof.
  intros Hc Hb Hs2 Hwf2 Hodd.
  destruct (test_position_increment _ _ _ _ s cfg epos nelec Hc Hb Hs2 Hwf2 Hodd)
    as (ee & ei & ii & ee' & ei' & ii' & row & s1 & s2 & H1 & H2 & H3 & H4
        & H5 & _).
  exists ee, ei, ii, ee', ei', ii', row, s1, s2.
  repeat split; try assumption.
  pose proof (energy_ok cfg s 1 nelec Hb) as E1. rewrite H1 in E1.
  assert (Hb' : batch3 (configs (append_test cfg epos)) 1 (S nelec)).
  { destruct (single_batch_conf _ _ Hb) as [conf [Hd [Hlen Hconf]]].
    destruct (single_test_position _ Hs2 Hwf2) as [t [Hd2 Ht]].
    exact (proj1 (append_test_single cfg epos nelec conf t
                    (proj1 Hb) Hd Hlen Hconf Hd2 Ht)). }
  pose proof (energy_ok _ s 1 (S nelec) Hb') as E2. rewrite H2 in E2.
  injection E1 as _ _ Hii _. injection E2 as _ _ Hii' _. congruence.
Qed.

Lemma test_row_is_energy_increment_witness :
  exists s ee ei ii ee' ei' ii' row s1 s2,
    __init__ (fun _ => raw_distance) cubic10 1 1 = inr s /\
    energy one_electron s = (inr ([ee], [ei], ii), s1) /\
    energy (append_test one_electron one_test_position) s
    = (inr ([ee'], [ei'], ii'), s2) /\
    energy_with_test_pos one_electron one_test_position s = (inr [row], s) /\
    length row = 2%nat /\
    sum row = (ee' + ei') - (ee + ei) /\
    ii' = ii.
Proof.
  destruct (cubic10_constructs (fun _ => raw_distance) 1 1) as [s Hs].
  assert (Hwf : wf2 one_test_position)
    by (unfold wf2; cbn; split; [reflexivity | repeat constructor]).
  destruct (test_row_is_energy_increment
              _ _ _ _ s one_electron one_test_position 1
              (init_constructed _ _ _ _ _ Hs) one_electron_batch eq_refl Hwf
              raw_distance_odd)
    as (ee & ei & ii & ee' & ei' & ii' & row & s1 & s2 & H1 & H2 & H3 & H4
        & H5 & H6).
  exists s, ee, ei, ii, ee', ei', ii', row, s1, s2. repeat split; assumption.
Defined.

(** ** Moving all mobile particles together *)

Lemma translate_batch (t : list R) (cfg : PeriodicConfigs)
    (nconf nelec : nat) :
  length t = 3%nat -> batch3 (configs cfg) nconf nelec ->
  batch3 (configs (translate t cfg)) nconf nelec.
Proof.
  intros Ht Hb. pose proof (batch3_data _ _ _ Hb) as [Hlen Hconf].
  destruct Hb as [Hs _]. split; [exact Hs |].
  unfold wf3, translate. cbn [configs shape3 data3]. rewrite Hs.
  split; [rewrite length_map; exact Hlen |].
  apply Forall_forall. intros conf' Hin. apply in_map_iff in Hin.
  destruct Hin as [conf [<- Hin]]. destruct (Hconf conf Hin) as [H1 H2].
  split; [rewrite length_map; exact H1 |].
  apply Forall_forall. intros p' Hp'. apply in_map_iff in Hp'.
  destruct Hp' as [p [<- Hp]]. rewrite Forall_forall in H2.
  rewrite map2_length; rewrite (H2 p Hp); [reflexivity | symmetry; exact Ht].
Qed.

Lemma dot_shift (p t : list R) (g : V3) :
  length p = 3%nat -> length t = 3%nat ->
  dot (map2 Rplus p t) (tolist g) = dot p (tolist g) + dot t (tolist g).
Proof.
  destruct p as [| p0 [| p1 [| p2 [| ? ?]]]]; try discriminate.
  destruct t as [| t0 [| t1 [| t2 [| ? ?]]]]; try discriminate.
  intros _ _. destruct g as [[g0 g1] g2]. cbn. ring.
Qed.

Lemma to_V3_shift (p t : list R) :
  length p = 3%nat -> length t = 3%nat ->
  to_V3 (map2 Rplus p t) = vadd (to_V3 p) (to_V3 t).
Proof.
  destruct p as [| p0 [| p1 [| p2 [| ? ?]]]]; try discriminate.
  destruct t as [| t0 [| t1 [| t2 [| ? ?]]]]; try discriminate.
  intros _ _. reflexivity.
Qed.

Lemma exp1j_plus (a b : R) : exp1j (a + b) = cmul (exp1j a) (exp1j b).
Proof.
  unfold exp1j, cmul. cbn [fst snd]. rewrite cos_plus, sin_plus.
  f_equal; ring.
Qed.

Lemma csum_cmul_r {A : Type} (F : A -> C) (c : C) (l : list A) :
  csum (map (fun x => cmul (F x) c) l) = cmul (csum (map F l)) c.
Proof.
  induction l as [| x l IH]; cbn [map csum fold_right].
  - unfold cmul. cbn. f_equal; ring.
  - fold (csum (map (fun x => cmul (F x) c) l)). fold (csum (map F l)).
    rewrite IH. unfold cmul, cadd. cbn [fst snd]. f_equal; ring.
Qed.

Lemma abs_sq_phase (a : C) (b : R) : abs (cmul a (exp1j b)) ^ 2 = abs a ^ 2.
Proof.
  rewrite !abs_sq. unfold cmul, exp1j. cbn [fst snd].
  pose proof (sin2_cos2 b) as H. unfold Rsqr in H.
  replace ((fst a * cos b - snd a * sin b) * (fst a * cos b - snd a * sin b)
           + (fst a * sin b + snd a * cos b) * (fst a * sin b + snd a * cos b))
    with ((fst a * fst a + snd a * snd a) * (sin b * sin b + cos b * cos b))
    by ring.
  rewrite H. ring.
Qed.

(** Moving all particles by [t] multiplies the structure factor by a
    phase. *)
Lemma weighted_norm2_shift (s : Ewald) (conf : list (list R)) (t : list R) :
  length t = 3%nat -> Forall (fun p => length p = 3%nat) conf ->
  weighted_norm2 s (structure_factor s (map (fun p => map2 Rplus p t) conf))
  = weighted_norm2 s (structure_factor s conf).
Proof.
  intros Ht Hconf. unfold weighted_norm2, structure_factor.
  f_equal. rewrite !map_map. apply map_ext. intros g.
  rewrite map_map.
  rewrite (map_ext_in _ (fun p => cmul (exp1j (dot p (tolist g)))
                                       (exp1j (dot t (tolist g))))).
  - rewrite csum_cmul_r. apply abs_sq_phase.
  - intros p Hp. rewrite Forall_forall in Hconf.
    rewrite (dot_shift p t g (Hconf p Hp) Ht).
    apply exp1j_plus.
Qed.

Lemma pair_energy_shift (s : Ewald) (d : Distance) (conf : list (list R))
    (t : list R) (i j : nat) :
  translation_invariant d ->
  length t = 3%nat -> Forall (fun p => length p = 3%nat) conf ->
  (i < length conf)%nat -> (j < length conf)%nat ->
  pair_energy s d (map to_V3 (map (fun p => map2 Rplus p t) conf)) (i, j)
  = pair_energy s d (map to_V3 conf) (i, j).
Proof.
  intros Hd Ht Hconf Hi Hj. unfold pair_energy. cbn [fst snd].
  rewrite Forall_forall in Hconf.
  assert (Hn : forall k, (k < length conf)%nat ->
             nth k (map to_V3 (map (fun p => map2 Rplus p t) conf)) (0, 0, 0)
             = vadd (nth k (map to_V3 conf) (0, 0, 0)) (to_V3 t)).
  { intros k Hk. rewrite map_map.
    rewrite (nth_map_lt _ conf k []) by exact Hk.
    rewrite (nth_map_lt to_V3 conf k []) by exact Hk.
    apply to_V3_shift; [| exact Ht]. apply Hconf. apply nth_In. exact Hk. }
  rewrite (Hn i Hi), (Hn j Hj), Hd. reflexivity.
Qed.

(** X18 (moving all mobile particles together).  For a constructed
    object, a batch of 3-vectors and a displacement primitive that sees
    only relative positions, moving every mobile particle by the same
    vector leaves the ee and the ii that [energy] returns unchanged. *)
Theorem ee_translation_invariant (MID : M33 -> Distance) (cell : Cell)
    (gmax nlatvec : Z) (s : Ewald) (cfg : PeriodicConfigs) (t : list R)
    (nconf nelec : nat) :
  constructed MID cell gmax nlatvec s ->
  batch3 (configs cfg) nconf nelec ->
  length t = 3%nat ->
  translation_invariant (dist cfg) ->
  exists ee ei ei' ii s1 s2,
    energy cfg s = (inr (ee, ei, ii), s1) /\
    energy (translate t cfg) s = (inr (ee, ei', ii), s2).
Proof.
  intros Hc Hb Ht Hd. pose proof (constructed_lengths _ _ _ _ _ Hc) as Hw.
  pose proof (batch3_data _ _ _ Hb) as [_ Hconf].
  rewrite (energy_ok cfg s nconf nelec Hb).
  rewrite (energy_ok _ s nconf nelec (translate_batch t cfg _ _ Ht Hb)).
  assert (Hee : map (fun conf =>
                       sum (ee_sep s (dist (translate t cfg)) nelec conf)
                       + INR nelec / 2 * sum (gweight s) + ee_const s nelec)
                    (data3 (configs (translate t cfg)))
                = map (fun conf =>
                         sum (ee_sep s (dist cfg) nelec conf)
                         + INR nelec / 2 * sum (gweight s) + ee_const s nelec)
                      (data3 (configs cfg))).
  { unfold translate. cbn [configs data3 dist]. rewrite map_map.
    apply map_ext_in. intros conf Hin.
    destruct (Hconf conf Hin) as [Hlen H3]. f_equal.
    pose proof (ee_total s (dist cfg) conf Hw) as T1.
    pose proof (ee_total s (dist cfg) (map (fun p => map2 Rplus p t) conf) Hw)
      as T2.
    rewrite sum_ee_real_pairs in T1, T2.
    rewrite weighted_norm2_shift in T2 by assumption.
    rewrite length_map in T2.
    rewrite (sum_map_ext _ (pair_energy s (dist cfg) (map to_V3 conf))) in T2.
    - rewrite Hlen in T1, T2. lra.
    - intros [i j] Hij. apply in_pair_indices in Hij.
      apply pair_energy_shift; try assumption; lia. }
  rewrite Hee. do 6 eexists. split; reflexivity.
Qed.

Lemma raw_distance_translation_invariant : translation_invariant raw_distance.
Proof.
  intros [[a0 a1] a2] [[b0 b1] b2] [[v0 v1] v2]. cbn.
  f_equal; [f_equal |]; ring.
Qed.

Lemma ee_translation_invariant_witness :
  exists s ee ei ei' ii s1 s2,
    __init__ (fun _ => raw_distance) cubic10 1 1 = inr s /\
    batch3 (configs two_electrons) 1 2 /\
    translation_invariant (dist two_electrons) /\
    energy two_electrons s = (inr (ee, ei, ii), s1) /\
    energy (translate [1; 0; 2] two_electrons) s = (inr (ee, ei', ii), s2).
Proof.
  destruct (cubic10_constructs (fun _ => raw_distance) 1 1) as [s Hs].
  destruct (ee_translation_invariant _ _ _ _ s two_electrons [1; 0; 2] 1 2
              (init_constructed _ _ _ _ _ Hs) two_electrons_batch eq_refl
              raw_distance_translation_invariant)
    as (ee & ei & ei' & ii & s1 & s2 & H1 & H2).
  exists s, ee, ei, ei', ii, s1, s2. split; [exact Hs |].
  split; [exact two_electrons_batch |].
  split; [exact raw_distance_translation_invariant |].
  split; [exact H1 | exact H2].
Defined.

(** ** The per-particle energies against the totals *)

(** X19 (the per-particle energies against the totals).  For a
    constructed object and a batch of 3-vectors, after [energy] the rows
    of [energy_separated], each summed over its particles, are ee + ei of
    [energy] minus Ne/2 times the sum of the reciprocal weights plus
    Ne (Ne - 1)/2 times ijconst. *)
Theorem separated_energies_against_totals (MID : M33 -> Distance)
    (cell : Cell) (gmax nlatvec : Z) (s : Ewald) (cfg : PeriodicConfigs)
    (nconf nelec : nat) :
  constructed MID cell gmax nlatvec s ->
  batch3 (configs cfg) nconf nelec ->
  exists ee ei ii sep s',
    energy cfg s = (inr (ee, ei, ii), s') /\
    energy_separated cfg s' = (inr sep, s') /\
    length sep = nconf /\
    map sum sep
    = map (fun t => t - INR nelec / 2 * sum (gweight s)
                    + INR nelec * (INR nelec - 1) / 2 * ijconst s)
          (map2 Rplus ee ei).
Proof.
  intros Hc Hb.
  destruct (energy_separated_accounting _ _ _ _ s cfg nconf nelec Hc Hb)
    as (ee & ei & ii & sep & H1 & H2 & H3).
  exists ee, ei, ii, sep, (after_ewald_electron cfg s).
  split; [exact H1 |]. split; [exact H2 |]. split; [| exact H3].
  rewrite energy_separated_after in H2. injection H2 as <-.
  rewrite length_map. apply (batch3_data _ _ _ Hb).
Qed.

Lemma separated_energies_against_totals_witness :
  exists s ee ei ii sep s',
    __init__ (fun _ => raw_distance) cubic10 1 1 = inr s /\
    batch3 (configs two_electrons) 1 2 /\
    energy two_electrons s = (inr (ee, ei, ii), s') /\
    energy_separated two_electrons s' = (inr sep, s') /\
    length sep = 1%nat /\
    map sum sep
    = map (fun t => t - INR 2 / 2 * sum (gweight s)
                    + INR 2 * (INR 2 - 1) / 2 * ijconst s)
          (map2 Rplus ee ei).
Proof.
  destruct (cubic10_constructs (fun _ => raw_distance) 1 1) as [s Hs].
  destruct (separated_energies_against_totals _ _ _ _ s two_electrons 1 2
              (init_constructed _ _ _ _ _ Hs) two_electrons_batch)
    as (ee & ei & ii & sep & s' & H1 & H2 & H3 & H4).
  exists s, ee, ei, ii, sep, s'. split; [exact Hs |].
  split; [exact two_electrons_batch |].
  split; [exact H1 |]. split; [exact H2 |]. split; [exact H3 | exact H4].
Defined.

(** X20 (the particle count of the argument of [energy_separated]).
    [energy_separated] takes the cached arrays of the last evaluation
    but the particle count of its own argument: after an evaluation, two
    arguments with Ne1 and Ne2 particles give results whose entries
    differ by (Ne1 - Ne2) ijconst. *)
Theorem energy_separated_particle_count (MID : M33 -> Distance)
    (cell : Cell) (gmax nlatvec : Z) (s : Ewald)
    (cfg cfg1 cfg2 : PeriodicConfigs) (nconf nelec : nat) :
  constructed MID cell gmax nlatvec s ->
  batch3 (configs cfg) nconf nelec ->
  exists r s' sep1 sep2,
    ewald_electron cfg s = (inr r, s') /\
    energy_separated cfg1 s' = (inr sep1, s') /\
    energy_separated cfg2 s' = (inr sep2, s') /\
    sep1 = map (map (fun x =>
                       x + (INR (snd (fst (shape3 (configs cfg1))))
                            - INR (snd (fst (shape3 (configs cfg2)))))
                           * ijconst s)) sep2.
Proof.
  intros Hc Hb. do 4 eexists.
  split; [apply (ewald_electron_ok cfg s nconf nelec Hb) |].
  split; [apply energy_separated_after |].
  split; [apply energy_separated_after |].
  rewrite map_map. apply map_ext. intros conf. rewrite map_map.
  apply map_ext. intros x.
  destruct (constructed_constants _ _ _ _ _ Hc) as (Hij & _ & _ & He1 & _).
  rewrite !He1, Hij. ring.
Qed.

Lemma energy_separated_particle_count_witness :
  exists s r s' sep1 sep2,
    __init__ (fun _ => raw_distance) cubic10 1 1 = inr s /\
    batch3 (configs one_electron) 1 1 /\
    ewald_electron one_electron s = (inr r, s') /\
    energy_separated two_electrons s' = (inr sep1, s') /\
    energy_separated one_electron s' = (inr sep2, s') /\
    sep1 = map (map (fun x => x + (INR 2 - INR 1) * ijconst s)) sep2.
Proof.
  destruct (cubic10_constructs (fun _ => raw_distance) 1 1) as [s Hs].
  destruct (energy_separated_particle_count
              _ _ _ _ s one_electron two_electrons one_electron 1 1
              (init_constructed _ _ _ _ _ Hs) one_electron_batch)
    as (r & s' & sep1 & sep2 & H1 & H2 & H3 & H4).
  exists s, r, s', sep1, sep2. split; [exact Hs |].
  split; [exact one_electron_batch |].
  split; [exact H1 |]. split; [exact H2 |]. split; [exact H3 | exact H4].
Defined.

(** ** Orthorhombic cells *)

Lemma diag_det (a b c : R) : det ((a, 0, 0), (0, b, 0), (0, 0, c)) = a * b * c.
Proof. cbn. ring. Qed.

Lemma diag_inv (a b c : R) (r : M33) :
  a <> 0 -> b <> 0 -> c <> 0 ->
  inv ((a, 0, 0), (0, b, 0), (0, 0, c)) = inr r ->
  r = ((/ a, 0, 0), (0, / b, 0), (0, 0, / c)).
Proof.
  intros Ha Hb Hc H. apply inv_inr in H. destruct H as [_ ->].
  rewrite diag_det. cbn.
  f_equal; [f_equal |]; (f_equal; [f_equal |]); field; repeat split; assumption.
Qed.

Lemma height_value (t u x q : R) :
  0 < x -> 0 < q -> t = x * q -> u = q * q -> Rabs t / sqrt u = x.
Proof.
  intros Hx Hq -> ->. rewrite sqrt_square by lra.
  rewrite Rabs_right by nra. field. lra.
Qed.

Lemma diag_smallest_height (a b c : R) :
  0 < a -> 0 < b -> 0 < c ->
  smallest_height ((a, 0, 0), (0, b, 0), (0, 0, c))
    ((/ a, 0, 0), (0, / b, 0), (0, 0, / c))
  = Rmin (Rmin a b) c.
Proof.
  intros Ha Hb Hc. unfold smallest_height. rewrite diag_det.
  cbn [transpose mscale vmulr rows map2 map combine fst snd vdot hd tl amin
       fold_left].
  unfold norm, sumsq, vdot.
  f_equal; [f_equal |];
    [apply (height_value _ _ a (b * c)) | apply (height_value _ _ b (a * c))
     | apply (height_value _ _ c (a * b))];
    try assumption; try (apply Rmult_lt_0_compat; assumption); field; lra.
Qed.

(** X21 (orthorhombic cells).  For a cell whose lattice vectors are
    (a, 0, 0), (0, b, 0), (0, 0, c) with positive a, b, c, the
    constructor sets alpha to 5 over the shortest side, and every stored
    reciprocal vector is 2 pi (n1/a, n2/b, n3/c) for an integer triple n
    of the search cube. *)
Theorem orthorhombic_cell (MID : M33 -> Distance) (cell : Cell)
    (gmax nlatvec : Z) (s : Ewald) (a b c : R) :
  cell_lattice_vectors cell = ((a, 0, 0), (0, b, 0), (0, 0, c)) ->
  0 < a -> 0 < b -> 0 < c ->
  __init__ MID cell gmax nlatvec = inr s ->
  alpha s = 5 / Rmin (Rmin a b) c /\
  forall g, In g (gpoints s) ->
    exists n1 n2 n3, in_cube gmax (n1, n2, n3) /\
      g = (2 * PI * IZR n1 / a, 2 * PI * IZR n2 / b, 2 * PI * IZR n3 / c).
Proof.
  intros Hlat Ha Hb Hc H.
  destruct (init_reciprocal _ _ _ _ _ H) as [r [Hinv [Hal [_ Hg]]]].
  rewrite Hlat in Hinv, Hal.
  pose proof (diag_inv a b c r ltac:(lra) ltac:(lra) ltac:(lra) Hinv) as ->.
  rewrite diag_smallest_height in Hal by assumption.
  split; [rewrite Hal; lra |].
  intros g Hin. rewrite Hg in Hin. apply filter_In in Hin.
  destruct Hin as [Hin _]. apply in_map_iff in Hin.
  destruct Hin as [[[n1 n2] n3] [<- Hn]].
  apply filter_In in Hn. destruct Hn as [Hn _].
  apply in_search_cube in Hn. exists n1, n2, n3. split; [exact Hn |].
  cbn. f_equal; [f_equal |]; field; lra.
Qed.

Lemma orthorhombic_cell_witness :
  exists s,
    cell_lattice_vectors cubic10 = ((10, 0, 0), (0, 10, 0), (0, 0, 10)) /\
    0 < 10 /\
    __init__ (fun _ => raw_distance) cubic10 1 1 = inr s /\
    alpha s = 5 / Rmin (Rmin 10 10) 10.
Proof.
  destruct (cubic10_constructs (fun _ => raw_distance) 1 1) as [s Hs].
  exists s. split; [reflexivity |]. split; [lra |]. split; [exact Hs |].
  exact (proj1 (orthorhombic_cell (fun _ => raw_distance) cubic10 1 1 s
                  10 10 10 eq_refl ltac:(lra) ltac:(lra) ltac:(lra) Hs)).
Defined.

(** ** The energy of the fixed charges in closed form *)

(** Half of the square of the total charge minus the squared charges is
    the sum of the products of the charges over the pairs I < J. *)
Lemma charge_pairs (Z : list R) :
  sum Z ^ 2 - sum (map (fun z => z ^ 2) Z)
  = 2 * sum (map (fun ij => nth (fst ij) Z 0 * nth (snd ij) Z 0)
                 (pair_indices (length Z))).
Proof.
  induction Z as [| z l IH] using rev_ind; [cbn; ring |].
  rewrite length_app. cbn [length]. rewrite Nat.add_1_r.
  rewrite sum_pair_indices_S. cbn [fst snd].
  rewrite (sum_map_ext _ (fun ij => nth (fst ij) l 0 * nth (snd ij) l 0)
             (pair_indices (length l))).
  2:{ intros [i j] Hij. apply in_pair_indices in Hij. cbn [fst snd].
      rewrite !app_nth1 by lia. reflexivity. }
  rewrite (sum_map_ext _ (fun a => z * nth a l 0) (seq 0 (length l))).
  2:{ intros a Ha. apply in_seq in Ha.
      rewrite app_nth1 by lia. rewrite app_nth2 by lia.
      rewrite Nat.sub_diag. cbn [nth]. ring. }
  rewrite sum_map_scal, (map_nth_seq (fun x => x) l 0), map_id.
  rewrite map_app, !sum_app. cbn [map sum fold_right].
  nra.
Qed.

(** X22 (the energy of the fixed charges in closed form).  When the cell
    has at least one fixed charge and as many coordinates as charges,
    the attribute [ion_exp] holds, for every stored G, the structure
    factor of the fixed charges S_ion(G) = Sum_I Z_I exp(i G.R_I), and
    the ii that [energy] returns is
    the sum over the pairs I < J of Z_I Z_J times (the lattice sum of
    erfc(alpha r)/r at their displacement + ijconst), plus
    Sum_G weight(G) |Sum_I Z_I exp(i G.R_I)|^2, plus the squared charges
    times (-alpha/sqrt(pi) + ijconst/2). *)
Theorem energy_ii_closed_form (MID : M33 -> Distance) (cell : Cell)
    (gmax nlatvec : Z) (s : Ewald) (cfg : PeriodicConfigs)
    (nconf nelec : nat) :
  length (cell_atom_coords cell) = length (cell_atom_charges cell) ->
  cell_atom_charges cell <> [] ->
  __init__ MID cell gmax nlatvec = inr s ->
  batch3 (configs cfg) nconf nelec ->
  let Zs := cell_atom_charges cell in
  let Rs := cell_atom_coords cell in
  let d := MID (cell_lattice_vectors cell) in
  let S_ion := fun g : V3 =>
    csum (map2 cscale (map (fun R => exp1j (vdot g R)) Rs) Zs) in
  ion_exp s = map S_ion (gpoints s) /\
  exists ee ei s',
    energy cfg s
    = (inr (ee, ei,
            sum (map (fun ij =>
                        nth (fst ij) Zs 0 * nth (snd ij) Zs 0
                        * (image_sum (alpha s) (lattice_displacements s)
                             (disp d (nth (snd ij) Rs (0, 0, 0))
                                     (nth (fst ij) Rs (0, 0, 0)))
                           + ijconst s))
                     (pair_indices (length Zs)))
            + dot (gweight s) (map (fun g => abs (S_ion g) ^ 2) (gpoints s))
            + sum (map (fun z => z ^ 2) Zs)
              * (- alpha s / sqrt PI + ijconst s / 2)), s').
Proof.
  intros Hlen _ H Hb Zs Rs d S_ion.
  destruct (init_ion _ _ _ _ _ H) as (_ & _ & Hion & Hii).
  unfold ewald_ion in Hion. injection Hion as Hexp Hval.
  fold Zs Rs d in Hexp, Hval.
  assert (Hexp' : ion_exp s = map S_ion (gpoints s)).
  { rewrite Hexp, map_map. apply map_ext. intros g.
    unfold S_ion, cdot. rewrite map_map. reflexivity. }
  split; [exact Hexp' |].
  rewrite (energy_ok cfg s nconf nelec Hb). do 3 eexists. do 3 f_equal.
  destruct (constructed_constants _ _ _ _ _ (init_constructed _ _ _ _ _ H))
    as (Hij & _ & _ & _ & Het).
  rewrite Hii, Het, <- Hij, Hval, <- Hexp. fold Zs.
  rewrite Hexp', map_map.
  pose proof (charge_pairs Zs) as Hp.
  set (pairs := pair_indices (length Zs)) in *.
  set (q := fun ij : nat * nat => nth (fst ij) Zs 0 * nth (snd ij) Zs 0) in *.
  set (im := fun ij : nat * nat =>
               image_sum (alpha s) (lattice_displacements s)
                 (disp d (nth (snd ij) Rs (0, 0, 0))
                         (nth (fst ij) Rs (0, 0, 0)))).
  assert (Hreal : (if Nat.eqb (length Zs) 1 then 0
                   else sum (map2 (fun c v =>
                                     c * image_sum (alpha s)
                                           (lattice_displacements s) v)
                                  (map q (pair_indices (length Rs)))
                                  (dist_matrix3 d Rs)))
                  = sum (map (fun ij => q ij * im ij) pairs)).
  { destruct (Nat.eqb_spec (length Zs) 1) as [E1 | _].
    - unfold pairs. rewrite E1. reflexivity.
    - unfold dist_matrix3, pairs. fold Rs Zs in Hlen. rewrite Hlen.
      rewrite map2_map_same. reflexivity. }
  rewrite Hreal.
  assert (HS : sum (map (fun ij : nat * nat =>
                           nth (fst ij) Zs 0 * nth (snd ij) Zs 0
                           * (image_sum (alpha s) (lattice_displacements s)
                                (disp d (nth (snd ij) Rs (0, 0, 0))
                                        (nth (fst ij) Rs (0, 0, 0)))
                              + ijconst s)) pairs)
               = sum (map (fun ij => q ij * im ij) pairs)
                 + ijconst s * sum (map q pairs)).
  { rewrite <- sum_map_scal, <- sum_map_plus. apply sum_map_ext.
    intros ij _. unfold q, im. ring. }
  rewrite HS.
  change (fun x : V3 => abs (S_ion x) * (abs (S_ion x) * 1))
    with (fun x : V3 => abs (S_ion x) ^ 2).
  replace ((sum Zs ^ 2 - sum (map (fun z : R => z ^ 2) Zs)) / 2)
    with (sum (map q pairs)) by lra.
  ring.
Qed.

Lemma energy_ii_closed_form_witness :
  exists s,
    length (cell_atom_coords cubic10) = length (cell_atom_charges cubic10) /\
    cell_atom_charges cubic10 <> [] /\
    __init__ (fun _ => raw_distance) cubic10 1 1 = inr s /\
    batch3 (configs one_electron) 1 1 /\
    let S_ion := fun g : V3 =>
      csum (map2 cscale
              (map (fun R => exp1j (vdot g R)) [(0, 0, 0); (0, 0, 1.5)])
              [1; 1]) in
    ion_exp s = map S_ion (gpoints s) /\
    exists ee ei s',
      energy one_electron s
      = (inr (ee, ei,
              sum (map (fun ij =>
                          nth (fst ij) [1; 1] 0 * nth (snd ij) [1; 1] 0
                          * (image_sum (alpha s) (lattice_displacements s)
                               (disp raw_distance
                                  (nth (snd ij) [(0, 0, 0); (0, 0, 1.5)]
                                       (0, 0, 0))
                                  (nth (fst ij) [(0, 0, 0); (0, 0, 1.5)]
                                       (0, 0, 0)))
                             + ijconst s))
                       (pair_indices 2))
              + dot (gweight s) (map (fun g => abs (S_ion g) ^ 2) (gpoints s))
              + sum (map (fun z => z ^ 2) [1; 1])
                * (- alpha s / sqrt PI + ijconst s / 2)), s').
Proof.
  destruct (cubic10_constructs (fun _ => raw_distance) 1 1) as [s Hs].
  assert (Hne : cell_atom_charges cubic10 <> []) by discriminate.
  exists s. split; [reflexivity |]. split; [exact Hne |].
  split; [exact Hs |]. split; [exact one_electron_batch |].
  exact (energy_ii_closed_form (fun _ => raw_distance) cubic10 1 1 s
           one_electron 1 1 eq_refl Hne Hs one_electron_batch).
Defined.
